(** * Indicator enrichment and simulated live feed of the charting view

    A shallow embedding of the charting component's algorithmic core:
    [enrichDataWithIndicators] (SMA(20) and Wilder RSI(14)), the updater
    that the live stream runs on every tick (sliding window of 100), and
    the [MockWebSocket] class with its two timers.

    JavaScript numbers are IEEE 754 binary64 values; they are modelled by
    Rocq's primitive floats, whose operations are the same correctly
    rounded binary64 operations.  Objects live in a store and are named by
    references, so that sharing and mutation are visible. *)

From Stdlib Require Import ZArith Floats String Ascii List Lia.
From stdpp Require Import base option list gmap strings pretty.

Set Warnings "-inexact-float".

(** ** JavaScript numbers *)

Module JsNumber.

Local Open Scope Z_scope.

Definition NaN : float := PrimFloat.nan.

(** [x === y] on two numbers. *)
Definition strict_eq (x y : float) : bool := PrimFloat.eqb x y.
(** [x > y] and [x < y]. *)
Definition gt (x y : float) : bool := PrimFloat.ltb y x.
Definition lt (x y : float) : bool := PrimFloat.ltb x y.

Definition isNaN (x : float) : bool := PrimFloat.is_nan x.

(** The binary64 value nearest to the integer [n]. *)
Definition of_Z (n : Z) : float :=
  SF2Prim (binary_normalize prec emax n 0 false).

(** The binary64 value nearest to [(-1)^neg * m / d], for [m, d > 0]. *)
Definition of_ratio (neg : bool) (m d : positive) : float :=
  SF2Prim (SFdiv prec emax (S754_finite neg m 0) (S754_finite false d 0)).

(** The binary64 value nearest to [(-1)^neg * m * 10^e]. *)
Definition of_decimal (neg : bool) (m : Z) (e : Z) : float :=
  match m with
  | Zpos p =>
      if 0 <=? e
      then of_Z ((if neg then -1 else 1) * (m * 10 ^ e))
      else of_ratio neg p (Z.to_pos (10 ^ (- e)))
  | _ => if neg then (-0)%float else 0%float
  end.

(** [Number(x.toFixed(2))]: [toFixed] writes the decimal numeral of the
    integer [n] nearest to [|x| * 100] (the larger one on a tie) with the
    point before its last two digits, and [Number] reads that numeral
    back as the nearest binary64 value.  Non-finite numbers print as
    their names and numbers of magnitude at least 10^21 print in the
    round-tripping shortest form, so both read back unchanged. *)
Definition toFixed2 (x : float) : float :=
  match Prim2SF x with
  | S754_nan => NaN
  | S754_infinity _ => x
  | S754_zero _ => 0%float
  | S754_finite s m e =>
      if PrimFloat.leb 1e21%float (PrimFloat.abs x) then x
      else
        let n :=
          if 0 <=? e then Zpos m * 2 ^ e * 100
          else (Zpos m * 200 + 2 ^ (- e)) / 2 ^ (1 - e) in
        match n with
        | Zpos p => of_ratio s p 100
        | _ => if s then (-0)%float else 0%float
        end
  end.

End JsNumber.

(** ** Primitive values and the conversions the component applies *)

Inductive prim : Type :=
| PUndefined
| PNull
| PBool (b : bool)
| PNum (x : float)
| PStr (s : string).

Module StringToNumber.

Local Open Scope Z_scope.

(** ECMAScript's StringToNumber on byte strings: white space is trimmed,
    the empty string is [0], then an optionally signed decimal literal
    (digits, fraction, exponent), [Infinity], or an unsigned binary,
    octal or hexadecimal integer literal; anything else is [NaN]. *)

Definition is_space (c : ascii) : bool :=
  let n := nat_of_ascii c in
  (Nat.leb 9 n && Nat.leb n 13) || Nat.eqb n 32.

Fixpoint skip_space (cs : list ascii) : list ascii :=
  match cs with
  | c :: cs' => if is_space c then skip_space cs' else cs
  | [] => []
  end.

Definition trim (cs : list ascii) : list ascii :=
  rev (skip_space (rev (skip_space cs))).

Definition digit (base : Z) (c : ascii) : option Z :=
  let n := Z.of_nat (nat_of_ascii c) in
  let d :=
    if (48 <=? n) && (n <=? 57) then n - 48
    else if (97 <=? n) && (n <=? 102) then n - 87
    else if (65 <=? n) && (n <=? 70) then n - 55
    else 99 in
  if d <? base then Some d else None.

(** Reads the longest prefix of digits: the number read so far, how many
    digits were read, and the rest of the input. *)
Fixpoint digits (base : Z) (cs : list ascii) (acc : Z) (count : Z)
  : Z * Z * list ascii :=
  match cs with
  | c :: cs' =>
      match digit base c with
      | Some d => digits base cs' (acc * base + d) (count + 1)
      | None => (acc, count, cs)
      end
  | [] => (acc, count, [])
  end.

Definition is_char (c : ascii) (n : nat) : bool := Nat.eqb (nat_of_ascii c) n.

(** Exponent part: [e] or [E], an optional sign, at least one digit. *)
Definition exponent (cs : list ascii) : option Z :=
  match cs with
  | [] => Some 0
  | c :: cs' =>
      if is_char c 101 || is_char c 69 then
        let '(neg, ds) :=
          match cs' with
          | s :: r =>
              if is_char s 45 then (true, r)
              else if is_char s 43 then (false, r) else (false, cs')
          | [] => (false, cs')
          end in
        match digits 10 ds 0 0 with
        | (n, k, []) => if 0 <? k then Some (if neg then - n else n) else None
        | _ => None
        end
      else None
  end.

Definition unsigned_decimal (neg : bool) (cs : list ascii) : float :=
  if String.eqb (string_of_list_ascii cs) "Infinity"
  then (if neg then PrimFloat.neg_infinity else PrimFloat.infinity)
  else
    let '(ip, ik, r1) := digits 10 cs 0 0 in
    let '(m, fk, r2) :=
      match r1 with
      | c :: r => if is_char c 46 then digits 10 r ip 0 else (ip, 0, r1)
      | [] => (ip, 0, r1)
      end in
    let dot_only := match r1 with c :: _ => is_char c 46 | [] => false end in
    if (ik =? 0) && ((fk =? 0) || negb dot_only) then JsNumber.NaN
    else
      match exponent r2 with
      | Some e => JsNumber.of_decimal neg m (e - fk)
      | None => JsNumber.NaN
      end.

Definition radix_literal (cs : list ascii) : option float :=
  match cs with
  | z :: x :: ds =>
      let base :=
        if is_char x 120 || is_char x 88 then 16
        else if is_char x 111 || is_char x 79 then 8
        else if is_char x 98 || is_char x 66 then 2 else 0 in
      if is_char z 48 && (0 <? base) then
        match digits base ds 0 0 with
        | (n, k, []) => if 0 <? k then Some (JsNumber.of_Z n) else Some JsNumber.NaN
        | _ => Some JsNumber.NaN
        end
      else None
  | _ => None
  end.

Definition parse (s : string) : float :=
  match trim (list_ascii_of_string s) with
  | [] => 0%float
  | c :: cs =>
      match radix_literal (c :: cs) with
      | Some x => x
      | None =>
          if is_char c 45 then unsigned_decimal true cs
          else if is_char c 43 then unsigned_decimal false cs
          else unsigned_decimal false (c :: cs)
      end
  end.

End StringToNumber.

(** [Number(v)] on a primitive. *)
Definition ToNumber (v : prim) : float :=
  match v with
  | PUndefined => JsNumber.NaN
  | PNull => 0%float
  | PBool b => if b then 1%float else 0%float
  | PNum x => x
  | PStr s => StringToNumber.parse s
  end.

(** The truth value a condition gives to a primitive. *)
Definition ToBoolean (v : prim) : bool :=
  match v with
  | PUndefined | PNull => false
  | PBool b => b
  | PNum x => negb (JsNumber.strict_eq x 0%float) && negb (JsNumber.isNaN x)
  | PStr s => negb (String.eqb s "")
  end.

(** ** The store: objects, arrays and the random source *)

(** A reference names a cell of the store by its position. *)
Abbreviation loc := nat.

(** An object is a finite map from the names of its own properties to
    primitives: the points of a series are flat records (date, value,
    indicators and one number per comparison symbol).  What an object
    inherits from [Object.prototype] is added where the component reads
    a name the user chose (see [Get] below). *)
Abbreviation obj := (gmap string prim).

(** What an array cell can hold: a primitive or a reference to an object. *)
Inductive elem : Type :=
| EPrim (p : prim)
| ERef (l : loc).

(** What a caller can pass where an array is expected. *)
Inductive jsval : Type :=
| JElem (e : elem)
| JArr (a : loc).

Record world : Type := World {
  objs : list obj;            (* the objects allocated so far *)
  arrs : list (list elem);    (* the arrays allocated so far *)
  entropy : nat -> float;     (* the results of successive Math.random() calls *)
  draws : nat                 (* how many of them were consumed *)
}.

Inductive error : Type := TypeError.

Inductive completion (A : Type) : Type :=
| Normal (a : A)
| Throw (e : error).
Arguments Normal {A} a.
Arguments Throw {A} e.

(** A computation reads and updates the store and completes normally or
    throws; the store is kept in both cases. *)
Definition js (A : Type) : Type := world -> completion A * world.

Definition ret {A} (a : A) : js A := fun w => (Normal a, w).
Definition throw {A} (e : error) : js A := fun w => (Throw e, w).
Definition bind {A B} (m : js A) (k : A -> js B) : js B :=
  fun w =>
    match m w with
    | (Normal a, w') => k a w'
    | (Throw e, w') => (Throw e, w')
    end.

Notation "'let*' x ':=' m 'in' k" := (bind m (fun x => k))
  (at level 10, x pattern, m at level 100, k at level 200).
Notation "m ';;' k" := (bind m (fun _ => k))
  (at level 100, k at level 200, right associativity).

Definition with_objs (f : list obj -> list obj) (w : world) : world :=
  World (f (objs w)) (arrs w) (entropy w) (draws w).
Definition with_arrs (f : list (list elem) -> list (list elem)) (w : world) : world :=
  World (objs w) (f (arrs w)) (entropy w) (draws w).

(** [{ ... }]: a new object. *)
Definition alloc_obj (o : obj) : js loc :=
  fun w => (Normal (length (objs w)), with_objs (fun os => os ++ [o]) w).

(** [[ ... ]]: a new array. *)
Definition alloc_arr (es : list elem) : js loc :=
  fun w => (Normal (length (arrs w)), with_arrs (fun ars => ars ++ [es]) w).

Definition read_arr (a : loc) : js (list elem) :=
  fun w => (Normal (arrs w !!! a), w).

(** [a.length] *)
Definition arr_length (a : loc) : js nat :=
  let* es := read_arr a in ret (length es).

(** [a[i]]: [undefined] beyond the end. *)
Definition arr_get (a : loc) (i : nat) : js elem :=
  let* es := read_arr a in ret (default (EPrim PUndefined) (es !! i)).

(** The own enumerable properties of a value, as the spread [{...v}]
    copies them: those of an object, the characters of a string, none of
    the other primitives. *)
Definition own_fields (w : world) (v : elem) : obj :=
  match v with
  | ERef l => objs w !!! l
  | EPrim (PStr s) =>
      list_to_map
        (imap (fun i c => (pretty i, PStr (String c EmptyString)))
              (list_ascii_of_string s))
  | EPrim _ => ∅
  end.

Definition num (n : nat) : float := JsNumber.of_Z (Z.of_nat n).

(** [v.k] for a name [k] that no prototype defines ([value] is the one
    the component reads this way): the own property, [undefined] if there
    is none, and a [TypeError] on [undefined] and [null]. *)
Definition GetV (v : elem) (k : string) : js prim :=
  fun w =>
    match v with
    | EPrim PUndefined | EPrim PNull => (Throw TypeError, w)
    | EPrim (PStr s) =>
        if String.eqb k "length" then (Normal (PNum (num (String.length s))), w)
        else (Normal (default PUndefined (own_fields w v !! k)), w)
    | _ => (Normal (default PUndefined (own_fields w v !! k)), w)
    end.

(** [v.k = x] in strict code: only an object can be assigned to. *)
Definition SetV (v : elem) (k : string) (x : prim) : js unit :=
  fun w =>
    match v with
    | ERef l => (Normal tt, with_objs (alter (insert k x) l) w)
    | EPrim _ => (Throw TypeError, w)
    end.

(** [Math.random()] *)
Definition Math_random : js float :=
  fun w => (Normal (entropy w (draws w)),
            World (objs w) (arrs w) (entropy w) (S (draws w))).

(** [for (let i = start; i < start + count; i++) body] with the local
    variables the body updates threaded as [s]. *)
Fixpoint for_loop {S : Type} (count : nat) (i : nat)
    (body : nat -> S -> js S) (s : S) : js S :=
  match count with
  | O => ret s
  | Datatypes.S c => let* s' := body i s in for_loop c (Datatypes.S i) body s'
  end.

(** [items.map(f)], element by element, into a new array. *)
Fixpoint map_elems (f : elem -> js elem) (items : list elem) : js (list elem) :=
  match items with
  | [] => ret []
  | item :: rest =>
      let* x := f item in
      let* xs := map_elems f rest in
      ret (x :: xs)
  end.

Definition Array_map (a : loc) (f : elem -> js elem) : js loc :=
  let* items := read_arr a in
  let* out := map_elems f items in
  alloc_arr out.

(** ** The enrichment engine *)

Definition rsiPeriod : nat := 14.
Definition smaPeriod : nat := 20.

(** [item => ({ ...item, value: Number(item.value) })] *)
Definition copy_item (item : elem) : js elem :=
  fun w =>
    let fields := own_fields w item in
    (let* v := GetV item "value" in
     let* l := alloc_obj (<["value" := PNum (ToNumber v)]> fields) in
     ret (ERef l)) w.

(** One round of the Wilder recurrence on the two running averages:
    the body of the [if (i > 0)] branch without its store accesses.
    Returns the new averages and the value assigned to [current.rsi]. *)
Definition rsi_update (i : nat) (price prevPrice : float)
    (avg : float * float) : (float * float) * prim :=
  let '(avgGain, avgLoss) := avg in
  let change := (price - prevPrice)%float in
  let gain := if JsNumber.gt change 0 then change else 0%float in
  let loss := if JsNumber.lt change 0 then PrimFloat.abs change else 0%float in
  if (i <=? rsiPeriod)%nat then
    let avgGain := (avgGain + gain)%float in
    let avgLoss := (avgLoss + loss)%float in
    if (i =? rsiPeriod)%nat then
      let firstAvgGain := (avgGain / num rsiPeriod)%float in
      let firstAvgLoss := (avgLoss / num rsiPeriod)%float in
      let rs := if JsNumber.strict_eq firstAvgLoss 0
                then 100%float else (firstAvgGain / firstAvgLoss)%float in
      ((firstAvgGain, firstAvgLoss), PNum (100 - (100 / (1 + rs)))%float)
    else ((avgGain, avgLoss), PNull)
  else
    let avgGain := ((avgGain * num (rsiPeriod - 1) + gain) / num rsiPeriod)%float in
    let avgLoss := ((avgLoss * num (rsiPeriod - 1) + loss) / num rsiPeriod)%float in
    let rs := if JsNumber.strict_eq avgLoss 0
              then 100%float else (avgGain / avgLoss)%float in
    ((avgGain, avgLoss), PNum (100 - (100 / (1 + rs)))%float).

(** The body of the main loop at index [i]; [avg] holds [avgGain] and
    [avgLoss].  The [value] property of every element of [enriched] was
    stored by [Number(...)], so [+] and [-] on it are numeric. *)
Definition enrich_body (enriched : loc) (i : nat) (avg : float * float)
    : js (float * float) :=
  let* current := arr_get enriched i in
  let* price := GetV current "value" in
  (if (smaPeriod - 1 <=? i)%nat then
     let* sum :=
       for_loop smaPeriod 0
         (fun j sum =>
            let* e := arr_get enriched (i - j) in
            let* v := GetV e "value" in
            ret (sum + ToNumber v)%float)
         0%float in
     SetV current "sma" (PNum (sum / num smaPeriod)%float)
   else SetV current "sma" PNull);;
  if (0 <? i)%nat then
    let* prev := arr_get enriched (i - 1) in
    let* prevPrice := GetV prev "value" in
    let '(avg', rsi) := rsi_update i (ToNumber price) (ToNumber prevPrice) avg in
    SetV current "rsi" rsi;;
    ret avg'
  else
    SetV current "rsi" PNull;;
    ret avg.

Definition enrichDataWithIndicators (rawData : jsval) : js loc :=
  match rawData with
  | JArr a =>
      let* n := arr_length a in
      if (n =? 0)%nat then alloc_arr []
      else
        let* enriched := Array_map a copy_item in
        (* the body never changes [enriched.length]: it is read once *)
        let* len := arr_length enriched in
        for_loop len 0 (enrich_body enriched) (0%float, 0%float);;
        ret enriched
  | JElem _ => alloc_arr []
  end.

(** ** What the engine computes, as functions of the numeric values *)

#[global] Instance float_inhabited : Inhabited float := populate 0%float.

(** The value the inner loop leaves in [sum] after [n] rounds at index [i]:
    it adds the values at [i], [i-1], ..., in that order, to [0]. *)
Definition window_sum (vs : list float) (i n : nat) : float :=
  fold_left (fun sum j => (sum + vs !!! (i - j)%nat)%float) (seq 0 n) 0%float.

Definition sma_at (vs : list float) (i : nat) : prim :=
  if (smaPeriod - 1 <=? i)%nat
  then PNum (window_sum vs i smaPeriod / num smaPeriod)%float
  else PNull.

(** [avgGain] and [avgLoss] when the iteration at index [i] starts. *)
Fixpoint avg_before (vs : list float) (i : nat) : float * float :=
  match i with
  | O => (0%float, 0%float)
  | S k =>
      if (0 <? k)%nat
      then fst (rsi_update k (vs !!! k) (vs !!! (k - 1)%nat) (avg_before vs k))
      else avg_before vs k
  end.

Definition rsi_at (vs : list float) (i : nat) : prim :=
  if (0 <? i)%nat
  then snd (rsi_update i (vs !!! i) (vs !!! (i - 1)%nat) (avg_before vs i))
  else PNull.

(** The record the engine leaves at index [i]: the copy with both
    indicator properties assigned. *)
Definition decorate (vs : list float) (i : nat) (o : obj) : obj :=
  <["rsi" := rsi_at vs i]> (<["sma" := sma_at vs i]> o).

Definition nullish (e : elem) : bool :=
  match e with
  | EPrim PUndefined | EPrim PNull => true
  | _ => false
  end.

(** [item.value] as [copy_item] reads it from a value that has properties. *)
Definition item_value (w : world) (item : elem) : prim :=
  default PUndefined (own_fields w item !! "value").

Definition copy_obj (w : world) (item : elem) : obj :=
  <["value" := PNum (ToNumber (item_value w item))]> (own_fields w item).

(** The number stored under [value]. *)
Definition value_of (o : obj) : float :=
  ToNumber (default PUndefined (o !! "value")).

(** Every reference of the array names an allocated object. *)
Definition refs_allocated (w : world) (items : list elem) : Prop :=
  Forall (fun e => match e with ERef l => l < length (objs w) | EPrim _ => True end)
         items.

(** The store [w] with [extra] objects and [arr] arrays allocated after it. *)
Definition extend (w : world) (extra : list obj) (arr : list (list elem)) : world :=
  World (objs w ++ extra) (arrs w ++ arr) (entropy w) (draws w).

(** The references to [n] objects allocated from position [base] on. *)
Definition fresh_refs (base n : nat) : list elem := map ERef (seq base n).

(** ** Running computations *)

Lemma bind_normal {A B} (m : js A) (k : A -> js B) w a w' :
  m w = (Normal a, w') -> bind m k w = k a w'.
Proof. unfold bind. intros ->. reflexivity. Qed.

Lemma bind_throw {A B} (m : js A) (k : A -> js B) w e w' :
  m w = (Throw e, w') -> bind m k w = (Throw e, w').
Proof. unfold bind. intros ->. reflexivity. Qed.

Lemma extend_nil w : extend w [] [] = w.
Proof. destruct w. unfold extend. simpl. rewrite !app_nil_r. reflexivity. Qed.

Lemma extend_extend w xs ys as1 as2 :
  extend (extend w xs as1) ys as2 = extend w (xs ++ ys) (as1 ++ as2).
Proof. unfold extend. simpl. rewrite !app_assoc. reflexivity. Qed.

Lemma alloc_obj_run w o :
  alloc_obj o w = (Normal (length (objs w)), extend w [o] []).
Proof.
  unfold alloc_obj, with_objs, extend. rewrite app_nil_r. reflexivity.
Qed.

Lemma alloc_arr_run w es :
  alloc_arr es w = (Normal (length (arrs w)), extend w [] [es]).
Proof.
  unfold alloc_arr, with_arrs, extend. rewrite app_nil_r. reflexivity.
Qed.

Section FreshWindow.

(** The store while the main loop runs: [w] followed by the window's
    records [mid] and by the array of references to them. *)
Variable w : world.
Variable n : nat.

Let base := length (objs w).
Let enriched : loc := length (arrs w).
Definition window (mid : list obj) : world :=
  extend w mid [fresh_refs (length (objs w)) n].

Lemma arr_length_window mid :
  arr_length enriched (window mid) = (Normal n, window mid).
Proof.
  unfold arr_length, read_arr, bind, ret, window, extend, enriched. simpl.
  rewrite list_lookup_total_middle by reflexivity.
  unfold fresh_refs. rewrite length_map, length_seq. reflexivity.
Qed.

Lemma arr_get_window mid k :
  k < n ->
  arr_get enriched k (window mid) = (Normal (ERef (base + k)), window mid).
Proof.
  intros Hk.
  unfold arr_get, read_arr, bind, ret, window, extend, enriched. simpl.
  rewrite list_lookup_total_middle by reflexivity.
  unfold fresh_refs. rewrite list_lookup_fmap, lookup_seq_lt by exact Hk.
  reflexivity.
Qed.

Lemma GetV_window mid k key o :
  mid !! k = Some o ->
  GetV (ERef (base + k)) key (window mid)
  = (Normal (default PUndefined (o !! key)), window mid).
Proof.
  intros Ho. unfold GetV, own_fields, window, extend, base. simpl.
  rewrite (list_lookup_total_correct _ _ o); [reflexivity|].
  rewrite lookup_app_r by lia.
  replace (length (objs w) + k - length (objs w)) with k by lia. exact Ho.
Qed.

Lemma SetV_window mid k key x :
  SetV (ERef (base + k)) key x (window mid)
  = (Normal tt, window (alter (insert key x) k mid)).
Proof.
  unfold SetV, with_objs, window, extend, base. simpl.
  rewrite alter_app_r. reflexivity.
Qed.

End FreshWindow.

(** The records of the window all carry the number listed for them. *)
Definition has_values (mid : list obj) (vs : list float) : Prop :=
  Forall2 (fun o x => o !! "value" = Some (PNum x)) mid vs.

Lemma has_values_lookup mid vs k :
  has_values mid vs -> k < length vs ->
  exists o, mid !! k = Some o /\ o !! "value" = Some (PNum (vs !!! k)).
Proof.
  intros H Hk.
  destruct (lookup_lt_is_Some_2 vs k Hk) as [x Hx].
  destruct (Forall2_lookup_r _ _ _ _ _ H Hx) as (o & Ho & Hv).
  exists o. split; [exact Ho|].
  rewrite (list_lookup_total_correct _ _ _ Hx). exact Hv.
Qed.

Lemma has_values_alter mid vs k key x :
  key <> "value" ->
  has_values mid vs -> has_values (alter (insert key x) k mid) vs.
Proof.
  intros Hkey H. unfold has_values in *.
  apply Forall2_same_length_lookup. split.
  - rewrite length_alter. eapply Forall2_length, H.
  - intros i o y Ho Hy.
    destruct (decide (i = k)) as [->|Hne].
    + rewrite list_lookup_alter_eq in Ho.
      destruct (mid !! k) as [o'|] eqn:Ho'; simpl in Ho; [|discriminate].
      injection Ho as <-.
      rewrite lookup_insert_ne by exact Hkey.
      exact (Forall2_lookup_lr _ _ _ _ _ _ H Ho' Hy).
    + rewrite list_lookup_alter_ne in Ho by congruence.
      exact (Forall2_lookup_lr _ _ _ _ _ _ H Ho Hy).
Qed.

Section MainLoop.

Variable w : world.
Variable vs : list float.

Let n := length vs.
Let enriched : loc := length (arrs w).

(** The inner loop only reads: it leaves the sum of the window in [sum]. *)
Lemma sum_loop_run mid i c j s :
  has_values mid vs -> i < length vs ->
  for_loop c j
    (fun j sum =>
       let* e := arr_get (length (arrs w)) (i - j) in
       let* v := GetV e "value" in
       ret (sum + ToNumber v)%float) s (window w (length vs) mid)
  = (Normal (fold_left (fun sum j => (sum + vs !!! (i - j)%nat)%float) (seq j c) s),
     window w (length vs) mid).
Proof.
  intros Hv Hi. revert j s.
  induction c as [|c IH]; intros j s; simpl; [reflexivity|].
  assert (Hij : i - j < length vs) by lia.
  destruct (has_values_lookup mid vs (i - j) Hv Hij) as (o & Ho & Hval).
  erewrite bind_normal; [apply IH|].
  rewrite (bind_normal _ _ _ _ _ (arr_get_window w (length vs) mid (i - j) Hij)).
  rewrite (bind_normal _ _ _ _ _ (GetV_window w (length vs) mid _ "value" o Ho)).
  rewrite Hval. reflexivity.
Qed.

(** One round of the main loop on the window. *)
Lemma enrich_body_run mid i avg :
  has_values mid vs -> i < length vs ->
  enrich_body (length (arrs w)) i avg (window w (length vs) mid)
  = (Normal (if (0 <? i)%nat
             then fst (rsi_update i (vs !!! i) (vs !!! (i - 1)%nat) avg)
             else avg),
     window w (length vs)
       (alter (fun o =>
                 <["rsi" := if (0 <? i)%nat
                            then snd (rsi_update i (vs !!! i) (vs !!! (i - 1)%nat) avg)
                            else PNull]>
                   (<["sma" := sma_at vs i]> o)) i mid)).
Proof.
  intros Hv Hi. unfold enrich_body.
  destruct (has_values_lookup mid vs i Hv Hi) as (o & Ho & Hval).
  rewrite (bind_normal _ _ _ _ _ (arr_get_window w (length vs) mid i Hi)).
  rewrite (bind_normal _ _ _ _ _ (GetV_window w (length vs) mid _ "value" o Ho)).
  rewrite Hval. simpl default.
  (* the moving average *)
  assert (Hsma :
    (if (smaPeriod - 1 <=? i)%nat
     then
       let* sum :=
         for_loop smaPeriod 0
           (fun j sum =>
              let* e := arr_get (length (arrs w)) (i - j) in
              let* v := GetV e "value" in
              ret (sum + ToNumber v)%float) 0%float in
       SetV (ERef (length (objs w) + i)) "sma" (PNum (sum / num smaPeriod)%float)
     else SetV (ERef (length (objs w) + i)) "sma" PNull)
      (window w (length vs) mid)
    = (Normal tt, window w (length vs) (alter (insert "sma" (sma_at vs i)) i mid))).
  { unfold sma_at. destruct (smaPeriod - 1 <=? i)%nat.
    - rewrite (bind_normal _ _ _ _ _ (sum_loop_run mid i smaPeriod 0 0%float Hv Hi)).
      apply SetV_window.
    - apply SetV_window. }
  rewrite (bind_normal _ _ _ _ _ Hsma). clear Hsma.
  assert (Hv' : has_values (alter (insert "sma" (sma_at vs i)) i mid) vs)
    by (apply has_values_alter; [discriminate|exact Hv]).
  destruct (0 <? i)%nat eqn:Hpos.
  - assert (Hp : i - 1 < length vs) by lia.
    destruct (has_values_lookup _ vs (i - 1) Hv' Hp) as (o' & Ho' & Hval').
    rewrite (bind_normal _ _ _ _ _ (arr_get_window w (length vs) _ (i - 1) Hp)).
    rewrite (bind_normal _ _ _ _ _ (GetV_window w (length vs) _ _ "value" o' Ho')).
    rewrite Hval'. cbn [ToNumber default from_option id].
    destruct (rsi_update i (vs !!! i) (vs !!! (i - 1)%nat) avg) as [avg' rsi].
    cbv beta iota.
    rewrite (bind_normal _ _ _ _ _ (SetV_window w (length vs) _ i "rsi" rsi)).
    rewrite list_alter_alter_eq. reflexivity.
  - rewrite (bind_normal _ _ _ _ _ (SetV_window w (length vs) _ i "rsi" PNull)).
    rewrite list_alter_alter_eq. reflexivity.
Qed.

End MainLoop.

(** The window while the main loop is about to run index [i]: the records
    before [i] carry their indicators, the others are still bare copies. *)
Definition progress (vs : list float) (i : nat) (copies : list obj) : list obj :=
  imap (fun k o => if (k <? i)%nat then decorate vs k o else o) copies.

Lemma progress_0 vs copies : progress vs 0 copies = copies.
Proof.
  unfold progress. apply list_eq. intros k. rewrite list_lookup_imap.
  destruct (copies !! k); reflexivity.
Qed.

Lemma progress_all vs copies i :
  length copies <= i -> progress vs i copies = imap (decorate vs) copies.
Proof.
  intros Hlen. unfold progress. apply list_eq. intros k.
  rewrite !list_lookup_imap.
  destruct (copies !! k) as [o|] eqn:Ho; [|reflexivity]. simpl.
  apply lookup_lt_Some in Ho.
  destruct (Nat.ltb_spec k i); [reflexivity|lia].
Qed.

Lemma progress_step vs copies i :
  alter (decorate vs i) i (progress vs i copies) = progress vs (S i) copies.
Proof.
  unfold progress. apply list_eq. intros k. rewrite list_lookup_imap.
  destruct (decide (k = i)) as [->|Hne].
  - rewrite list_lookup_alter_eq, list_lookup_imap.
    destruct (copies !! i) as [o|]; [|reflexivity]. simpl.
    rewrite Nat.ltb_irrefl.
    destruct (Nat.ltb_spec i (S i)); [reflexivity|lia].
  - rewrite list_lookup_alter_ne by congruence. rewrite list_lookup_imap.
    destruct (copies !! k) as [o|]; [|reflexivity]. simpl.
    destruct (Nat.ltb_spec k i), (Nat.ltb_spec k (S i)); try reflexivity; lia.
Qed.

Lemma has_values_progress vs i copies :
  has_values copies vs -> has_values (progress vs i copies) vs.
Proof.
  intros H. unfold has_values, progress in *.
  apply Forall2_same_length_lookup. split.
  - rewrite length_imap. eapply Forall2_length, H.
  - intros k o y Ho Hy. rewrite list_lookup_imap in Ho.
    destruct (copies !! k) as [o'|] eqn:Ho'; [|discriminate].
    simpl in Ho. injection Ho as <-.
    pose proof (Forall2_lookup_lr _ _ _ _ _ _ H Ho' Hy) as Hval.
    destruct (k <? i)%nat; [|exact Hval].
    unfold decorate. rewrite !lookup_insert_ne by discriminate. exact Hval.
Qed.

(** The main loop, from index [i] for [c] rounds. *)
Lemma main_loop_run w vs copies c : forall i,
  has_values copies vs -> i + c <= length vs ->
  for_loop c i (enrich_body (length (arrs w))) (avg_before vs i)
    (window w (length vs) (progress vs i copies))
  = (Normal (avg_before vs (i + c)),
     window w (length vs) (progress vs (i + c) copies)).
Proof.
  induction c as [|c IH]; intros i Hv Hic; simpl.
  - rewrite Nat.add_0_r. reflexivity.
  - assert (Hi : i < length vs) by lia.
    rewrite (bind_normal _ _ _ _ _
      (enrich_body_run w vs _ i (avg_before vs i) (has_values_progress vs i copies Hv) Hi)).
    change (alter _ i (progress vs i copies))
      with (alter (decorate vs i) i (progress vs i copies)).
    rewrite progress_step.
    change (if (0 <? i)%nat
            then fst (rsi_update i (vs !!! i) (vs !!! (i - 1)%nat) (avg_before vs i))
            else avg_before vs i) with (avg_before vs (S i)).
    rewrite (IH (S i) Hv) by lia.
    replace (S i + c) with (i + S c) by lia. reflexivity.
Qed.

(** ** The copying pass *)

Lemma own_fields_extend w pre arr e :
  match e with ERef l => l < length (objs w) | EPrim _ => True end ->
  own_fields (extend w pre arr) e = own_fields w e.
Proof.
  destruct e as [p|l]; [reflexivity|]. intros Hl. unfold own_fields, extend. simpl.
  destruct (lookup_lt_is_Some_2 (objs w) l Hl) as [o Ho].
  rewrite (list_lookup_total_correct _ _ o Ho).
  apply list_lookup_total_correct. rewrite lookup_app_l by exact Hl. exact Ho.
Qed.

Lemma GetV_value w item :
  nullish item = false ->
  GetV item "value" w = (Normal (item_value w item), w).
Proof.
  unfold GetV, item_value. destruct item as [[| |b|x|s]|l]; try discriminate; reflexivity.
Qed.

Lemma copy_item_run w item :
  nullish item = false ->
  copy_item item w = (Normal (ERef (length (objs w))), extend w [copy_obj w item] []).
Proof.
  intros Hn. unfold copy_item.
  rewrite (bind_normal _ _ _ _ _ (GetV_value w item Hn)).
  rewrite (bind_normal _ _ _ _ _ (alloc_obj_run w _)). reflexivity.
Qed.

Lemma copy_item_throw w item :
  nullish item = true -> copy_item item w = (Throw TypeError, w).
Proof.
  unfold copy_item. destruct item as [[| |b|x|s]|l]; try discriminate; reflexivity.
Qed.

Lemma copy_obj_value w item :
  copy_obj w item !! "value" = Some (PNum (ToNumber (item_value w item))).
Proof. unfold copy_obj. apply lookup_insert_eq. Qed.

Lemma value_of_copy w item :
  value_of (copy_obj w item) = ToNumber (item_value w item).
Proof. unfold value_of. rewrite copy_obj_value. reflexivity. Qed.

(** The numbers the engine works on: [Number(item.value)] for every item. *)
Definition values (w : world) (items : list elem) : list float :=
  map (fun item => ToNumber (item_value w item)) items.

Definition copies_of (w : world) (items : list elem) : list obj :=
  map (copy_obj w) items.

Lemma has_values_copies w items :
  has_values (copies_of w items) (values w items).
Proof.
  unfold has_values, copies_of, values.
  induction items as [|item items IH]; simpl; constructor.
  - apply copy_obj_value.
  - exact IH.
Qed.

(** The copying pass allocates one record per item, in order, and changes
    nothing else.  When every reference of the input is allocated the
    records are the [copies_of] the items. *)
Lemma map_elems_run w items : forall pre,
  Forall (fun e => nullish e = false) items ->
  exists copies,
    length copies = length items /\
    has_values copies (map value_of copies) /\
    (refs_allocated w items -> copies = copies_of w items) /\
    map_elems copy_item items (extend w pre [])
    = (Normal (fresh_refs (length (objs w) + length pre) (length items)),
       extend w (pre ++ copies) []).
Proof.
  induction items as [|item items IH]; intros pre Hn.
  - exists []. simpl. rewrite app_nil_r. repeat split; try constructor.
  - inversion Hn as [|? ? Hitem Hrest]; subst.
    destruct (IH (pre ++ [copy_obj (extend w pre []) item]) Hrest)
      as (copies & Hlen & Hval & Hwf & Hrun).
    exists (copy_obj (extend w pre []) item :: copies).
    split; [simpl; congruence|]. split; [|split].
    + simpl. constructor; [|exact Hval].
      rewrite value_of_copy. apply copy_obj_value.
    + intros Hall. inversion Hall as [|? ? Hhd Htl]; subst.
      unfold copies_of. simpl. f_equal; [|exact (Hwf Htl)].
      unfold copy_obj, item_value. rewrite own_fields_extend by exact Hhd. reflexivity.
    + simpl map_elems.
      rewrite (bind_normal _ _ _ _ _ (copy_item_run _ item Hitem)).
      rewrite extend_extend. simpl app at 2.
      rewrite (bind_normal _ _ _ _ _ Hrun). unfold ret.
      rewrite <- app_assoc. simpl app.
      replace (length (objs (extend w pre []))) with (length (objs w) + length pre)
        by (unfold extend; simpl; rewrite length_app; reflexivity).
      rewrite length_app. simpl length.
      replace (length (objs w) + (length pre + 1)) with (S (length (objs w) + length pre)) by lia.
      reflexivity.
Qed.

(** A nullish item makes the copying pass throw, after some records were
    allocated for the items before it. *)
Lemma map_elems_throw items : forall w,
  Exists (fun e => nullish e = true) items ->
  exists extra,
    map_elems copy_item items w = (Throw TypeError, extend w extra []).
Proof.
  induction items as [|item items IH]; intros w Hex.
  - inversion Hex.
  - destruct (nullish item) eqn:Hn.
    + exists []. simpl. rewrite (bind_throw _ _ _ _ _ (copy_item_throw w item Hn)).
      rewrite extend_nil. reflexivity.
    + assert (Hrest : Exists (fun e => nullish e = true) items).
      { inversion Hex as [? ? H|? ? H]; subst; [congruence|exact H]. }
      destruct (IH (extend w [copy_obj w item] []) Hrest) as (extra & Hrun).
      exists (copy_obj w item :: extra). simpl.
      rewrite (bind_normal _ _ _ _ _ (copy_item_run w item Hn)).
      rewrite (bind_throw _ _ _ _ _ Hrun). rewrite extend_extend. reflexivity.
Qed.

(** ** The outcome of a call *)

(** The records an array refers to, read through the store. *)
Definition records (w : world) (a : loc) : list obj :=
  map (own_fields w) (arrs w !!! a).

(** The records the engine builds from the copies of the items. *)
Definition enriched_records (copies : list obj) : list obj :=
  imap (decorate (map value_of copies)) copies.

Lemma arr_length_run w a : arr_length a w = (Normal (length (arrs w !!! a)), w).
Proof. reflexivity. Qed.

Lemma enrich_run_copies w a :
  arrs w !!! a <> [] ->
  Forall (fun e => nullish e = false) (arrs w !!! a) ->
  exists copies,
    length copies = length (arrs w !!! a) /\
    has_values copies (map value_of copies) /\
    (refs_allocated w (arrs w !!! a) -> copies = copies_of w (arrs w !!! a)) /\
    enrichDataWithIndicators (JArr a) w
    = (Normal (length (arrs w)),
       extend w (enriched_records copies)
                [fresh_refs (length (objs w)) (length (arrs w !!! a))]).
Proof.
  intros Hne Hn.
  destruct (map_elems_run w (arrs w !!! a) [] Hn) as (copies & Hlen & Hval & Hwf & Hrun).
  exists copies. repeat split; try assumption.
  unfold enrichDataWithIndicators.
  rewrite (bind_normal _ _ _ _ _ (arr_length_run w a)).
  destruct (arrs w !!! a) as [|item items] eqn:Hitems; [congruence|].
  change (length (item :: items) =? 0)%nat with false. cbv iota.
  set (n := length (item :: items)) in *.
  set (vs := map value_of copies) in *.
  assert (Hvs : length vs = n) by (unfold vs; rewrite length_map; exact Hlen).
  assert (Hmap : Array_map a copy_item w
                 = (Normal (length (arrs w)), window w (length vs) copies)).
  { unfold Array_map, read_arr.
    rewrite (bind_normal _ _ w (arrs w !!! a) w) by reflexivity.
    rewrite Hitems. rewrite extend_nil in Hrun.
    rewrite (bind_normal _ _ _ _ _ Hrun).
    rewrite alloc_arr_run, extend_extend. simpl. unfold window.
    rewrite !app_nil_r, Nat.add_0_r, Hvs. reflexivity. }
  rewrite (bind_normal _ _ _ _ _ Hmap).
  rewrite (bind_normal _ _ _ _ _ (arr_length_window w (length vs) copies)).
  rewrite <- (progress_0 vs copies) at 1.
  change (0%float, 0%float) with (avg_before vs 0).
  rewrite (bind_normal _ _ _ _ _ (main_loop_run w vs copies (length vs) 0 Hval (le_n _))).
  unfold ret, window. simpl Nat.add.
  rewrite progress_all by lia. rewrite Hvs. reflexivity.
Qed.

(** The outcome on a non-empty array of items that have properties and
    whose references are allocated. *)
Theorem enrich_run w a :
  arrs w !!! a <> [] ->
  Forall (fun e => nullish e = false) (arrs w !!! a) ->
  refs_allocated w (arrs w !!! a) ->
  enrichDataWithIndicators (JArr a) w
  = (Normal (length (arrs w)),
     extend w (imap (decorate (values w (arrs w !!! a))) (copies_of w (arrs w !!! a)))
              [fresh_refs (length (objs w)) (length (arrs w !!! a))]).
Proof.
  intros Hne Hn Hwf.
  destruct (enrich_run_copies w a Hne Hn) as (copies & _ & _ & Hc & Hrun).
  rewrite Hrun, (Hc Hwf). unfold enriched_records, copies_of, values.
  rewrite map_map. do 4 f_equal.
  apply map_ext. intros item. apply value_of_copy.
Qed.

Lemma records_fresh w extra n :
  n <= length extra ->
  records (extend w extra [fresh_refs (length (objs w)) n]) (length (arrs w))
  = take n extra.
Proof.
  intros Hn. unfold records, extend, fresh_refs. simpl.
  rewrite list_lookup_total_middle by reflexivity.
  rewrite map_map. apply list_eq. intros k.
  rewrite list_lookup_fmap.
  destruct (decide (k < n)) as [Hk|Hk].
  - rewrite lookup_seq_lt by exact Hk. simpl. rewrite lookup_take_lt by exact Hk.
    destruct (lookup_lt_is_Some_2 extra k ltac:(lia)) as [o Ho].
    rewrite Ho. f_equal. apply list_lookup_total_correct.
    rewrite lookup_app_r by lia.
    replace (length (objs w) + k - length (objs w)) with k by lia. exact Ho.
  - rewrite lookup_seq_ge by lia. simpl. symmetry.
    apply lookup_ge_None. rewrite length_take. lia.
Qed.

(** ** Facts of binary64 arithmetic *)

Module FloatFacts.

Lemma SFcompare_refl s : s <> S754_nan -> SFcompare s s = Some Eq.
Proof.
  destruct s as [[|]|[|]| |[|] m e]; intros H; try congruence; try reflexivity;
    simpl; rewrite Z.compare_refl, (Pos.compare_cont_refl m Eq); reflexivity.
Qed.

Lemma is_nan_spec x : PrimFloat.is_nan x = true <-> Prim2SF x = S754_nan.
Proof.
  unfold PrimFloat.is_nan. rewrite FloatAxioms.eqb_spec. unfold SFeqb. split.
  - intros H. destruct (Prim2SF x) eqn:E; try reflexivity;
      rewrite SFcompare_refl in H by discriminate; discriminate.
  - intros ->. reflexivity.
Qed.

Lemma is_nan_eq x : PrimFloat.is_nan x = true -> x = JsNumber.NaN.
Proof.
  intros H. apply is_nan_spec in H. apply Prim2SF_inj. rewrite H. reflexivity.
Qed.

Lemma add_nan_l x : (JsNumber.NaN + x)%float = JsNumber.NaN.
Proof. apply Prim2SF_inj. rewrite add_spec. reflexivity. Qed.

Lemma add_nan_r x : (x + JsNumber.NaN)%float = JsNumber.NaN.
Proof.
  apply Prim2SF_inj. rewrite add_spec.
  destruct (Prim2SF x) as [[|]|[|]| |[|] m e]; reflexivity.
Qed.

Lemma div_nan_l x : (JsNumber.NaN / x)%float = JsNumber.NaN.
Proof. apply Prim2SF_inj. rewrite div_spec. reflexivity. Qed.

Lemma binary_round_aux_opp s m e l :
  binary_round_aux prec emax (negb s) m e l
  = SFopp (binary_round_aux prec emax s m e l).
Proof.
  unfold binary_round_aux.
  destruct (shr_fexp prec emax m e l) as [mrs e'].
  destruct (shr_fexp prec emax _ e' loc_Exact) as [mrs' e''].
  destruct (shr_m mrs'); try reflexivity.
  destruct (e'' <=? emax - prec)%Z; reflexivity.
Qed.

Lemma binary_normalize_opp m e :
  m <> 0%Z ->
  binary_normalize prec emax (- m) e false
  = SFopp (binary_normalize prec emax m e false).
Proof.
  destruct m as [|p|p]; intros H; [congruence| |]; simpl; unfold binary_round;
    destruct (shl_align _ _ _) as [mz ez].
  - apply (binary_round_aux_opp false).
  - rewrite (binary_round_aux_opp false).
    destruct (binary_round_aux _ _ _ _ _ _) as [[|]|[|]| |[|] ? ?]; reflexivity.
Qed.

(** Subtraction the other way round gives the opposite number, or both
    differences are zeros. *)
Lemma sub_swap x y :
  Prim2SF (y - x)%float = SFopp (Prim2SF (x - y)%float)
  \/ (exists s s', Prim2SF (x - y)%float = S754_zero s
                   /\ Prim2SF (y - x)%float = S754_zero s').
Proof.
  rewrite !sub_spec. unfold SF64sub.
  destruct (Prim2SF x) as [sx|sx| |sx mx ex], (Prim2SF y) as [sy|sy| |sy my ey];
    try (left; destruct sx; try destruct sy; reflexivity);
    try (left; destruct sy; reflexivity);
    try (right; destruct sx, sy; eexists; eexists; split; reflexivity).
  - left. reflexivity.
  - simpl SFsub. rewrite (Z.min_comm ey ex).
    set (a := cond_Zopp sx (Zpos (fst (shl_align mx ex (Z.min ex ey))))).
    set (b := cond_Zopp sy (Zpos (fst (shl_align my ey (Z.min ex ey))))).
    destruct (Z.eq_dec (a - b)%Z 0%Z) as [E|E].
    + right. exists false, false.
      replace (b - a)%Z with 0%Z by lia. rewrite E. split; reflexivity.
    + left. replace (b - a)%Z with (- (a - b))%Z by lia.
      apply binary_normalize_opp. exact E.
Qed.

Lemma ltb_zero_r x :
  PrimFloat.ltb x 0 = true
  <-> (exists m e, Prim2SF x = S754_finite true m e) \/ Prim2SF x = S754_infinity true.
Proof.
  rewrite FloatAxioms.ltb_spec. change (Prim2SF 0) with (S754_zero false). unfold SFltb.
  destruct (Prim2SF x) as [s|s| |s m e]; try destruct s; simpl;
    split; intros H; try discriminate;
    try (destruct H as [(m' & e' & H)|H]; discriminate); eauto.
Qed.

Lemma ltb_zero_l x :
  PrimFloat.ltb 0 x = true
  <-> (exists m e, Prim2SF x = S754_finite false m e) \/ Prim2SF x = S754_infinity false.
Proof.
  rewrite FloatAxioms.ltb_spec. change (Prim2SF 0) with (S754_zero false). unfold SFltb.
  destruct (Prim2SF x) as [s|s| |s m e]; try destruct s; simpl;
    split; intros H; try discriminate;
    try (destruct H as [(m' & e' & H)|H]; discriminate); eauto.
Qed.

(** The loss as the code computes it, [change < 0 ? Math.abs(change) : 0]
    with [change = x - y], is the positive part of [y - x]. *)
Lemma loss_as_positive_part x y :
  (if JsNumber.lt (x - y) 0 then PrimFloat.abs (x - y) else 0)%float
  = (if JsNumber.gt (y - x) 0 then y - x else 0)%float.
Proof.
  unfold JsNumber.lt, JsNumber.gt.
  destruct (PrimFloat.ltb (x - y) 0) eqn:Hlt.
  - apply ltb_zero_r in Hlt.
    assert (Hopp : Prim2SF (y - x)%float = SFopp (Prim2SF (x - y)%float)).
    { destruct (sub_swap x y) as [H|(s & s' & H & _)]; [exact H|].
      destruct Hlt as [(m & e & Hm)|Hm]; congruence. }
    assert (Hpos : PrimFloat.ltb 0 (y - x) = true).
    { apply ltb_zero_l. rewrite Hopp.
      destruct Hlt as [(m & e & ->) | ->]; simpl; eauto. }
    rewrite Hpos. apply Prim2SF_inj. rewrite abs_spec, Hopp.
    destruct Hlt as [(m & e & ->) | ->]; reflexivity.
  - destruct (PrimFloat.ltb 0 (y - x)) eqn:Hpos; [|reflexivity].
    exfalso. apply ltb_zero_l in Hpos.
    assert (Hneg : PrimFloat.ltb (x - y) 0 = true); [|congruence].
    apply ltb_zero_r.
    destruct (sub_swap y x) as [H|(s & s' & H & _)].
    + rewrite H. destruct Hpos as [(m & e & ->) | ->]; simpl; eauto.
    + destruct Hpos as [(m & e & Hm)|Hm]; congruence.
Qed.

(** A number minus itself is never positive and never negative. *)
Lemma sub_self x :
  Prim2SF (x - x)%float = S754_zero false \/ Prim2SF (x - x)%float = S754_nan.
Proof.
  rewrite sub_spec. unfold SF64sub.
  destruct (Prim2SF x) as [[|]|[|]| |s m e]; simpl; auto.
  left. set (a := cond_Zopp s _).
  replace (a - a)%Z with 0%Z by lia. reflexivity.
Qed.

Lemma sub_self_flat x :
  JsNumber.gt (x - x) 0 = false /\ JsNumber.lt (x - x) 0 = false.
Proof.
  unfold JsNumber.gt, JsNumber.lt. rewrite !FloatAxioms.ltb_spec.
  destruct (sub_self x) as [-> | ->]; split; reflexivity.
Qed.

End FloatFacts.

(** ** Rounding of binary64 operations

    The specification of the primitive operations ([SFsub], [SFmul]) rounds
    an exact integer mantissa with [binary_round_aux].  The lemmas of this
    module follow the mantissa through the shifts and the rounding, to bound
    the result of an operation on arbitrary arguments. *)

Module Rounding.

Local Open Scope Z_scope.

(** The number of binary digits of a positive. *)
Lemma digits2_pos_bounds p :
  2 ^ (Zpos (digits2_pos p) - 1) <= Zpos p < 2 ^ Zpos (digits2_pos p).
Proof.
  induction p as [p IH|p IH|]; simpl digits2_pos.
  - rewrite Pos2Z.inj_succ.
    replace (Z.succ (Zpos (digits2_pos p)) - 1) with (Z.succ (Zpos (digits2_pos p) - 1)) by lia.
    rewrite !Z.pow_succ_r by lia. lia.
  - rewrite Pos2Z.inj_succ.
    replace (Z.succ (Zpos (digits2_pos p)) - 1) with (Z.succ (Zpos (digits2_pos p) - 1)) by lia.
    rewrite !Z.pow_succ_r by lia. lia.
  - simpl. lia.
Qed.

(** One right shift halves the mantissa and remembers what it drops. *)
Lemma shr_1_spec m r s :
  0 <= m ->
  shr_1 (Build_shr_record m r s) = Build_shr_record (m / 2) (Z.odd m) (r || s).
Proof.
  intros Hm. rewrite <- Z.div2_div.
  destruct m as [|p|p]; [reflexivity| |lia].
  destruct p; reflexivity.
Qed.

Lemma iter_pos_nat {A} (f : A -> A) p : forall x,
  SpecFloat.iter_pos f p x = Nat.iter (Pos.to_nat p) f x.
Proof.
  induction p as [p IH|p IH|]; intros x; simpl SpecFloat.iter_pos.
  - rewrite !IH, Pos2Nat.inj_xI.
    rewrite <- Nat.iter_add, <- Nat.iter_succ_r. f_equal. lia.
  - rewrite !IH, Pos2Nat.inj_xO. rewrite <- Nat.iter_add. f_equal. lia.
  - reflexivity.
Qed.

(** [n] right shifts divide by [2 ^ n]; the round and sticky bits tell
    whether the division was exact. *)
Lemma shr_iter n M :
  0 <= M ->
  shr_m (Nat.iter n shr_1 (Build_shr_record M false false)) = M / 2 ^ Z.of_nat n /\
  (shr_r (Nat.iter n shr_1 (Build_shr_record M false false))
   || shr_s (Nat.iter n shr_1 (Build_shr_record M false false)))%bool
  = negb (M mod 2 ^ Z.of_nat n =? 0).
Proof.
  intros HM. induction n as [|n [IHm IHrs]].
  - simpl. rewrite Z.div_1_r, Z.mod_1_r. split; reflexivity.
  - simpl Nat.iter.
    destruct (Nat.iter n shr_1 (Build_shr_record M false false)) as [m r s].
    simpl in IHm, IHrs. subst m.
    assert (Hpow : 0 < 2 ^ Z.of_nat n) by (apply Z.pow_pos_nonneg; lia).
    rewrite shr_1_spec by (apply Z.div_pos; lia). simpl shr_m. simpl shr_r. simpl shr_s.
    rewrite Nat2Z.inj_succ, Z.pow_succ_r by lia.
    split.
    + rewrite Z.div_div by lia. f_equal. lia.
    + rewrite IHrs. rewrite (Z.mul_comm 2), Z.rem_mul_r by lia.
      pose proof (Z.mod_pos_bound M (2 ^ Z.of_nat n) Hpow) as Hb.
      pose proof (Z.mod_pos_bound (M / 2 ^ Z.of_nat n) 2 ltac:(lia)) as Hb2.
      rewrite Zodd_mod.
      destruct (Z.eqb_spec ((M / 2 ^ Z.of_nat n) mod 2) 1) as [E1|E1];
      destruct (Z.eqb_spec (M mod 2 ^ Z.of_nat n) 0) as [E2|E2];
      destruct (Z.eqb_spec (M mod 2 ^ Z.of_nat n + 2 ^ Z.of_nat n * ((M / 2 ^ Z.of_nat n) mod 2)) 0) as [E3|E3];
      simpl; try reflexivity; exfalso; nia.
Qed.

Lemma fexp_eq x : fexp prec emax x = Z.max (x - 53) (-1074).
Proof. reflexivity. Qed.

Lemma loc_exact_iff mrs :
  loc_of_shr_record mrs = loc_Exact <-> (shr_r mrs || shr_s mrs)%bool = false.
Proof. destruct mrs as [m [|] [|]]; simpl; split; congruence. Qed.

(** The shift that brings a mantissa to the exponent of its format. *)
Lemma shr_fexp_exact M E :
  0 <= M ->
  let k := Z.max 0 (fexp prec emax (Zdigits2 M + E) - E) in
  shr_m (fst (shr_fexp prec emax M E loc_Exact)) = M / 2 ^ k /\
  snd (shr_fexp prec emax M E loc_Exact) = E + k /\
  (loc_of_shr_record (fst (shr_fexp prec emax M E loc_Exact)) = loc_Exact
   <-> M mod 2 ^ k = 0).
Proof.
  intros HM k. unfold shr_fexp, shr. simpl shr_record_of_loc.
  subst k. destruct (fexp prec emax (Zdigits2 M + E) - E) as [|p|p] eqn:Hk.
  - simpl. rewrite Z.div_1_r, Z.mod_1_r, Z.add_0_r. repeat split.
  - rewrite iter_pos_nat. simpl fst. simpl snd.
    destruct (shr_iter (Pos.to_nat p) M HM) as [Hm Hrs].
    rewrite positive_nat_Z in Hm, Hrs.
    replace (Z.max 0 (Zpos p)) with (Zpos p) by lia.
    split; [exact Hm|]. split; [reflexivity|].
    rewrite loc_exact_iff, Hrs. rewrite negb_false_iff. apply Z.eqb_eq.
  - simpl. rewrite Z.div_1_r, Z.mod_1_r, Z.add_0_r. repeat split.
Qed.

(** Rounding to nearest even moves a shifted mantissa up by at most one,
    and not at all when nothing was dropped. *)
Lemma round_nearest_even_bounds m l :
  m <= round_nearest_even m l <= m + 1 /\
  (l = loc_Exact -> round_nearest_even m l = m).
Proof.
  destruct l as [|[| |]]; simpl; try (split; [lia|congruence]).
  destruct (Z.even m); split; try lia; congruence.
Qed.

(** The value [m * 2 ^ e] of a mantissa and an exponent, scaled by
    [2 ^ 2200] so that it is an integer for every exponent of a binary64
    operation on finite arguments. *)
Definition val (m e : Z) : Z := m * 2 ^ (e + 2200).

(** A smaller value has no larger magnitude. *)
Lemma val_magnitude m e B Eb :
  0 < m -> -2200 <= e -> -2200 <= Eb ->
  val m e <= val (Zpos B) Eb ->
  Zdigits2 m + e <= Zpos (digits2_pos B) + Eb.
Proof.
  intros Hm He HEb Hle. unfold val in Hle.
  destruct m as [|p|p]; try lia. simpl Zdigits2.
  pose proof (digits2_pos_bounds p) as [Hlo _].
  pose proof (digits2_pos_bounds B) as [_ Hhi].
  assert (H1 : 2 ^ (Zpos (digits2_pos p) - 1 + (e + 2200)) <= Zpos p * 2 ^ (e + 2200)).
  { rewrite (Z.pow_add_r 2 (Zpos (digits2_pos p) - 1) (e + 2200)) by lia.
    apply Z.mul_le_mono_nonneg_r; [|exact Hlo].
    apply Z.pow_nonneg. lia. }
  assert (H2 : Zpos B * 2 ^ (Eb + 2200) < 2 ^ (Zpos (digits2_pos B) + (Eb + 2200))).
  { rewrite (Z.pow_add_r 2 (Zpos (digits2_pos B)) (Eb + 2200)) by lia.
    apply Z.mul_lt_mono_pos_r; [|exact Hhi].
    apply Z.pow_pos_nonneg; lia. }
  assert (H3 : 2 ^ (Zpos (digits2_pos p) - 1 + (e + 2200))
               < 2 ^ (Zpos (digits2_pos B) + (Eb + 2200))) by lia.
  apply Z.pow_lt_mono_r_iff in H3; lia.
Qed.

Lemma fexp_mono x y : x <= y -> fexp prec emax x <= fexp prec emax y.
Proof. rewrite !fexp_eq. lia. Qed.

Lemma val_split m e e' :
  -2200 <= e' -> e' <= e -> val m e = (m * 2 ^ (e - e')) * 2 ^ (e' + 2200).
Proof.
  intros H1 H2. unfold val.
  replace (e + 2200) with ((e - e') + (e' + 2200)) by lia.
  rewrite (Z.pow_add_r 2 (e - e') (e' + 2200)) by lia. ring.
Qed.

(** Rounding up after a right shift cannot pass a bound that lies on the
    grid of the shifted exponent. *)
Lemma round_step M E B Eb :
  0 < M -> -2200 <= E -> E <= Eb ->
  fexp prec emax (Zpos (digits2_pos B) + Eb) = Eb ->
  val M E <= val (Zpos B) Eb ->
  let k := Z.max 0 (fexp prec emax (Zdigits2 M + E) - E) in
  E + k <= Eb /\
  forall m2,
    M / 2 ^ k <= m2 <= M / 2 ^ k + 1 ->
    (M mod 2 ^ k = 0 -> m2 = M / 2 ^ k) ->
    val m2 (E + k) <= val (Zpos B) Eb.
Proof.
  intros HM HE HEb Hcan Hle k.
  assert (Hmag : Zdigits2 M + E <= Zpos (digits2_pos B) + Eb)
    by (apply val_magnitude; lia).
  assert (He' : E + k <= Eb).
  { apply fexp_mono in Hmag. rewrite Hcan in Hmag. subst k. lia. }
  split; [exact He'|]. intros m2 Hm2 Hexact.
  assert (Hk : 0 <= k) by (subst k; lia).
  rewrite (val_split (Zpos B) Eb (E + k)) by lia.
  set (X := Zpos B * 2 ^ (Eb - (E + k))).
  assert (HMX : M <= X * 2 ^ k).
  { rewrite (val_split (Zpos B) Eb (E + k)) in Hle by lia. fold X in Hle.
    unfold val in Hle.
    replace (E + k + 2200) with (k + (E + 2200)) in Hle by lia.
    rewrite (Z.pow_add_r 2 k (E + 2200)) in Hle by lia.
    assert (0 < 2 ^ (E + 2200)) by (apply Z.pow_pos_nonneg; lia).
    nia. }
  assert (HP : 0 < 2 ^ k) by (apply Z.pow_pos_nonneg; lia).
  pose proof (Z.div_mod M (2 ^ k) ltac:(lia)) as Hdm.
  pose proof (Z.mod_pos_bound M (2 ^ k) HP) as Hmod.
  assert (Hm2X : m2 <= X).
  { destruct (Z.eq_dec (M mod 2 ^ k) 0) as [E0|E0].
    - rewrite (Hexact E0). nia.
    - nia. }
  unfold val. apply Z.mul_le_mono_nonneg_r; [|exact Hm2X].
  apply Z.pow_nonneg. lia.
Qed.

(** Dropping digits never increases the value. *)
Lemma floor_step m e k :
  0 <= m -> 0 <= k -> -2200 <= e -> val (m / 2 ^ k) (e + k) <= val m e.
Proof.
  intros Hm Hk He. unfold val.
  replace (e + k + 2200) with (k + (e + 2200)) by lia.
  rewrite (Z.pow_add_r 2 k (e + 2200)) by lia.
  assert (HP : 0 < 2 ^ k) by (apply Z.pow_pos_nonneg; lia).
  assert (0 < 2 ^ (e + 2200)) by (apply Z.pow_pos_nonneg; lia).
  pose proof (Z.mul_div_le m (2 ^ k) HP). nia.
Qed.

(** [below f B Eb]: [f] is a zero or a finite number of absolute value
    at most [B * 2 ^ Eb]. *)
Definition below (f : spec_float) (B : positive) (Eb : Z) : Prop :=
  match f with
  | S754_zero _ => True
  | S754_finite _ m e => val (Zpos m) e <= val (Zpos B) Eb
  | _ => False
  end.

(** Rounding is monotone at a representable bound: an exact value that is
    at most a binary64 number rounds to at most that number. *)
Lemma binary_round_aux_below s M E B Eb :
  0 < M -> -2200 <= E -> E <= Eb -> Eb <= 971 ->
  fexp prec emax (Zpos (digits2_pos B) + Eb) = Eb ->
  val M E <= val (Zpos B) Eb ->
  below (binary_round_aux prec emax s M E loc_Exact) B Eb.
Proof.
  intros HM HE HEb Hmax Hcan Hle. unfold binary_round_aux.
  destruct (shr_fexp_exact M E ltac:(lia)) as (Hm1 & He1 & Hx1).
  destruct (shr_fexp prec emax M E loc_Exact) as [mrs1 e1]. simpl in Hm1, He1, Hx1.
  destruct (round_step M E B Eb HM HE HEb Hcan Hle) as [He1b Hround].
  set (k1 := Z.max 0 (fexp prec emax (Zdigits2 M + E) - E)) in *.
  set (m2 := round_nearest_even (shr_m mrs1) (loc_of_shr_record mrs1)).
  destruct (round_nearest_even_bounds (shr_m mrs1) (loc_of_shr_record mrs1)) as [Hb Hex].
  fold m2 in Hb, Hex.
  assert (Hm2 : val m2 e1 <= val (Zpos B) Eb).
  { rewrite He1. apply Hround.
    - rewrite <- Hm1. exact Hb.
    - intros H0. rewrite <- Hm1. apply Hex. apply Hx1. exact H0. }
  assert (Hm2pos : 0 <= m2).
  { assert (0 <= M / 2 ^ k1) by (apply Z.div_pos; [lia|apply Z.pow_pos_nonneg; subst k1; lia]).
    lia. }
  destruct (shr_fexp_exact m2 e1 Hm2pos) as (Hm3 & He3 & _).
  destruct (shr_fexp prec emax m2 e1 loc_Exact) as [mrs3 e3]. simpl in Hm3, He3.
  set (k2 := Z.max 0 (fexp prec emax (Zdigits2 m2 + e1) - e1)) in *.
  assert (He1lo : -2200 <= e1) by (subst k1; lia).
  destruct (shr_m mrs3) as [|m3|m3] eqn:Hm3'.
  - exact I.
  - assert (Hm2gt : 0 < m2).
    { destruct (Z.eq_dec m2 0) as [E0|E0]; [|lia].
      rewrite E0 in Hm3. rewrite Z.div_0_l in Hm3 by (apply Z.pow_nonzero; subst k2; lia).
      discriminate. }
    assert (Hmag : Zdigits2 m2 + e1 <= Zpos (digits2_pos B) + Eb)
      by (apply val_magnitude; lia).
    assert (He3b : e3 <= Eb).
    { apply fexp_mono in Hmag. rewrite Hcan in Hmag. subst k2. lia. }
    destruct (Z.leb_spec e3 (emax - prec)) as [_|Hover];
      [|unfold emax, prec in Hover; lia].
    cbn [below]. rewrite He3, Hm3.
    eapply Z.le_trans; [apply floor_step; subst k2; lia|exact Hm2].
  - exfalso.
    assert (0 <= m2 / 2 ^ k2) by (apply Z.div_pos; [lia|apply Z.pow_pos_nonneg; subst k2; lia]).
    lia.
Qed.

(** What [valid_binary] says of a finite number. *)
Lemma valid_finite s m e :
  valid_binary (S754_finite s m e) = true ->
  fexp prec emax (Zpos (digits2_pos m) + e) = e /\
  -1074 <= e <= 971 /\ Zpos (digits2_pos m) <= 53.
Proof.
  cbn [SpecFloat.valid_binary]. unfold bounded, canonical_mantissa.
  rewrite andb_true_iff, Z.eqb_eq, Z.leb_le. intros [Hc Hb].
  split; [exact Hc|]. rewrite fexp_eq in Hc. unfold emax, prec in Hb. lia.
Qed.

(** Aligning a mantissa to a smaller exponent keeps its value. *)
Lemma shl_align_spec mx ex ex' :
  snd (shl_align mx ex ex') = Z.min ex ex' /\
  Zpos (fst (shl_align mx ex ex')) = Zpos mx * 2 ^ (ex - Z.min ex ex').
Proof.
  unfold shl_align. destruct (ex' - ex) as [|d|d] eqn:Hd; cbn [fst snd].
  - replace (Z.min ex ex') with ex by lia. rewrite Z.sub_diag. lia.
  - replace (Z.min ex ex') with ex by lia. rewrite Z.sub_diag. lia.
  - replace (Z.min ex ex') with ex' by lia. split; [reflexivity|].
    change (Pos.iter xO mx d) with (shift_pos d mx).
    rewrite shift_pos_correct. replace (ex - ex') with (Zpos d) by lia.
    change (Z.pow_pos 2 d) with (2 ^ Zpos d). ring.
Qed.

Lemma shl_align_val mx ex ex' :
  -2200 <= Z.min ex ex' ->
  val (Zpos (fst (shl_align mx ex ex'))) (Z.min ex ex') = val (Zpos mx) ex.
Proof.
  intros H. destruct (shl_align_spec mx ex ex') as [_ ->].
  rewrite (val_split (Zpos mx) ex (Z.min ex ex')) by lia. reflexivity.
Qed.

(** The same for [binary_round], which aligns before it rounds. *)
Lemma binary_round_below s M E B Eb :
  -1074 <= E -> E <= Eb -> Eb <= 971 ->
  fexp prec emax (Zpos (digits2_pos B) + Eb) = Eb ->
  val (Zpos M) E <= val (Zpos B) Eb ->
  below (binary_round prec emax s M E) B Eb.
Proof.
  intros HE HEb Hmax Hcan Hle. unfold binary_round.
  set (t := fexp prec emax (Zpos (digits2_pos M) + E)).
  assert (Ht : -1074 <= t) by (subst t; rewrite fexp_eq; lia).
  destruct (shl_align_spec M E t) as [He _].
  pose proof (shl_align_val M E t ltac:(lia)) as Hv.
  destruct (shl_align M E t) as [mz ez]. cbn [fst snd] in He, Hv. subst ez.
  apply binary_round_aux_below;
    [lia | lia | lia | lia | exact Hcan | rewrite Hv; exact Hle].
Qed.

Lemma val_pos m e : 0 < m -> -2200 <= e -> 0 < val m e.
Proof.
  intros H He. unfold val.
  apply Z.mul_pos_pos; [exact H|]. apply Z.pow_pos_nonneg; lia.
Qed.

Lemma val_sub a b e : val (a - b) e = val a e - val b e.
Proof. unfold val. ring. Qed.

Lemma val_opp a e : val (- a) e = - val a e.
Proof. unfold val. ring. Qed.







(** Valid floats are ordered by exponent first. *)
Lemma below_lex s m e B Eb :
  valid_binary (S754_finite s m e) = true ->
  fexp prec emax (Zpos (digits2_pos B) + Eb) = Eb -> -2200 <= Eb ->
  val (Zpos m) e <= val (Zpos B) Eb ->
  e < Eb \/ (e = Eb /\ (m <= B)%positive).
Proof.
  intros Hv Hcan HEb Hle. destruct (valid_finite _ _ _ Hv) as (Hc & He & _).
  pose proof (val_magnitude (Zpos m) e B Eb ltac:(lia) ltac:(lia) HEb Hle) as Hmag.
  cbn [Zdigits2] in Hmag. apply fexp_mono in Hmag. rewrite Hc, Hcan in Hmag.
  destruct (Z.eq_dec e Eb) as [->|Hne]; [right; split; [reflexivity|]|left; lia].
  unfold val in Hle.
  assert (0 < 2 ^ (Eb + 2200)) by (apply Z.pow_pos_nonneg; lia).
  apply Pos2Z.pos_le_pos. nia.
Qed.

(** A bounded valid float lies between the bound and its opposite. *)
Lemma below_leb C B Eb :
  valid_binary C = true ->
  fexp prec emax (Zpos (digits2_pos B) + Eb) = Eb -> -2200 <= Eb ->
  below C B Eb ->
  SFleb (S754_finite true B Eb) C = true /\ SFleb C (S754_finite false B Eb) = true.
Proof.
  intros Hv Hcan HEb Hb. destruct C as [s|s| |s m e]; cbn [below] in Hb; try contradiction.
  - split; reflexivity.
  - pose proof (below_lex s m e B Eb Hv Hcan HEb Hb) as Hlex.
    unfold SFleb, SFcompare. rewrite !Pos.compare_cont_spec. cbn [Pos.switch_Eq].
    destruct s; split; try reflexivity.
    + destruct (Z.compare_spec Eb e) as [Heq|Hlt|Hgt]; [|lia|reflexivity].
      destruct Hlex as [?|[_ Hm]]; [lia|].
      destruct (Pos.compare_spec B m) as [?|Hlt|?]; try reflexivity.
      apply Pos2Z.pos_lt_pos in Hlt. apply Pos2Z.pos_le_pos in Hm. lia.
    + destruct (Z.compare_spec e Eb) as [Heq|Hlt|Hgt]; [|reflexivity|lia].
      destruct Hlex as [?|[_ Hm]]; [lia|].
      destruct (Pos.compare_spec m B) as [?|?|Hgt]; try reflexivity.
      apply Pos2Z.pos_lt_pos in Hgt. apply Pos2Z.pos_le_pos in Hm. lia.
Qed.

End Rounding.

(** ** The series a call returns *)

(** The records of the returned array; [None] when the call throws. *)
Definition enrich_output (w : world) (a : loc) : option (list obj) :=
  match enrichDataWithIndicators (JArr a) w with
  | (Normal r, w') => Some (records w' r)
  | (Throw _, _) => None
  end.

(** Every item has properties, that is, none is [undefined] or [null]. *)
Definition all_have_properties (items : list elem) : Prop :=
  Forall (fun e => nullish e = false) items.

(** The property [k] of the record at index [i] of the returned series. *)
Definition output_field (w : world) (a : loc) (i : nat) (k : string) : option prim :=
  match enrich_output w a with
  | Some out =>
      match out !! i with
      | Some o => o !! k
      | None => None
      end
  | None => None
  end.

Lemma enrich_empty w a :
  arrs w !!! a = [] ->
  enrichDataWithIndicators (JArr a) w = (Normal (length (arrs w)), extend w [] [[]]).
Proof.
  intros He. unfold enrichDataWithIndicators.
  rewrite (bind_normal _ _ _ _ _ (arr_length_run w a)), He. simpl.
  apply alloc_arr_run.
Qed.

Lemma enrich_not_array w e :
  enrichDataWithIndicators (JElem e) w = (Normal (length (arrs w)), extend w [] [[]]).
Proof. apply alloc_arr_run. Qed.

Lemma enrich_output_eq w a :
  all_have_properties (arrs w !!! a) ->
  refs_allocated w (arrs w !!! a) ->
  enrich_output w a
  = Some (imap (decorate (values w (arrs w !!! a))) (copies_of w (arrs w !!! a))).
Proof.
  intros Hn Hwf. unfold enrich_output.
  destruct (arrs w !!! a) as [|item items] eqn:Hitems.
  - rewrite (enrich_empty w a Hitems).
    change [[]] with [fresh_refs (length (objs w)) 0].
    rewrite records_fresh by (simpl; lia). reflexivity.
  - assert (Hne : arrs w !!! a <> []) by (rewrite Hitems; discriminate).
    rewrite <- Hitems in *. rewrite (enrich_run w a Hne Hn Hwf).
    rewrite records_fresh
      by (rewrite length_imap; unfold copies_of; rewrite length_map; lia).
    rewrite take_ge
      by (rewrite length_imap; unfold copies_of; rewrite length_map; lia).
    reflexivity.
Qed.

Lemma enrich_output_length w a out :
  all_have_properties (arrs w !!! a) ->
  refs_allocated w (arrs w !!! a) ->
  enrich_output w a = Some out ->
  length out = length (arrs w !!! a).
Proof.
  intros Hn Hwf Hout. rewrite (enrich_output_eq w a Hn Hwf) in Hout.
  injection Hout as <-. rewrite length_imap. unfold copies_of. apply length_map.
Qed.

Lemma enrich_output_throw w a :
  Exists (fun e => nullish e = true) (arrs w !!! a) ->
  exists extra,
    enrichDataWithIndicators (JArr a) w = (Throw TypeError, extend w extra []).
Proof.
  intros Hex.
  destruct (map_elems_throw _ w Hex) as (extra & Hrun).
  exists extra. unfold enrichDataWithIndicators.
  rewrite (bind_normal _ _ _ _ _ (arr_length_run w a)).
  destruct (arrs w !!! a) as [|item items] eqn:Hitems; [inversion Hex|].
  change (length (item :: items) =? 0)%nat with false. cbv iota.
  apply bind_throw. unfold Array_map.
  rewrite (bind_normal (read_arr a) _ w (item :: items) w)
    by (unfold read_arr; rewrite Hitems; reflexivity).
  apply bind_throw. exact Hrun.
Qed.

Lemma nullish_cases items :
  all_have_properties items \/ Exists (fun e => nullish e = true) items.
Proof.
  induction items as [|e items [IH|IH]].
  - left. constructor.
  - destruct (nullish e) eqn:He.
    + right. constructor. exact He.
    + left. constructor; assumption.
  - right. apply Exists_cons_tl. exact IH.
Qed.

Lemma decorate_sma vs i o : decorate vs i o !! "sma" = Some (sma_at vs i).
Proof.
  unfold decorate. rewrite lookup_insert_ne by discriminate. apply lookup_insert_eq.
Qed.

Lemma decorate_rsi vs i o : decorate vs i o !! "rsi" = Some (rsi_at vs i).
Proof. unfold decorate. apply lookup_insert_eq. Qed.

Lemma decorate_other vs i o k :
  k <> "sma" -> k <> "rsi" -> decorate vs i o !! k = o !! k.
Proof.
  intros H1 H2. unfold decorate. rewrite !lookup_insert_ne by congruence. reflexivity.
Qed.

Lemma output_lookup w items i o :
  imap (decorate (values w items)) (copies_of w items) !! i = Some o ->
  exists item, items !! i = Some item
               /\ o = decorate (values w items) i (copy_obj w item).
Proof.
  rewrite list_lookup_imap. unfold copies_of. rewrite list_lookup_fmap.
  destruct (items !! i) as [item|]; [|discriminate]. simpl.
  intros [= <-]. exists item. split; reflexivity.
Qed.

Lemma output_length w items :
  length (imap (decorate (values w items)) (copies_of w items)) = length items.
Proof. rewrite length_imap. unfold copies_of. apply length_map. Qed.

Lemma values_length w items : length (values w items) = length items.
Proof. unfold values. apply length_map. Qed.

Lemma output_entry w items i o :
  imap (decorate (values w items)) (copies_of w items) !! i = Some o ->
  i < length items /\ i < length (values w items) /\
  o !! "sma" = Some (sma_at (values w items) i) /\
  o !! "rsi" = Some (rsi_at (values w items) i).
Proof.
  intros Ho.
  assert (Hi : i < length items)
    by (apply lookup_lt_Some in Ho; rewrite output_length in Ho; exact Ho).
  split; [exact Hi|]. split; [rewrite values_length; exact Hi|].
  destruct (output_lookup w items i o Ho) as (item & _ & ->).
  split; [apply decorate_sma|apply decorate_rsi].
Qed.

(** ** The indicators as the design describes them *)

Module Design.

(** The arithmetic mean of a list of numbers in binary64 arithmetic, the
    numbers being added to [0] in the order of the list. *)
Definition mean (xs : list float) : float :=
  (fold_left PrimFloat.add xs 0 / num (length xs))%float.

(** The [k] values that end at index [i], oldest first. *)
Definition trailing (vs : list float) (i k : nat) : list float :=
  take k (drop (S i - k) vs).

(** [max(x, 0)] *)
Definition max0 (x : float) : float := if JsNumber.gt x 0 then x else 0%float.

Definition gain (vs : list float) (i : nat) : float :=
  max0 (vs !!! i - vs !!! (i - 1)%nat).

Definition loss (vs : list float) (i : nat) : float :=
  max0 (vs !!! (i - 1)%nat - vs !!! i).

(** [f 1 + ... + f k], accumulated from [0] in this order. *)
Definition running_sum (f : nat -> float) (k : nat) : float :=
  fold_left (fun s j => (s + f j)%float) (seq 1 k) 0%float.

(** [avgGain] and [avgLoss] at index [14 + d]: the simple averages of the
    first fourteen gains and losses, then Wilder's smoothing. *)
Fixpoint wilder (vs : list float) (d : nat) : float * float :=
  match d with
  | O => ((running_sum (gain vs) 14 / 14)%float,
          (running_sum (loss vs) 14 / 14)%float)
  | S d' =>
      let '(avgGain, avgLoss) := wilder vs d' in
      (((avgGain * 13 + gain vs (14 + d)) / 14)%float,
       ((avgLoss * 13 + loss vs (14 + d)) / 14)%float)
  end.

(** [rs = avgLoss == 0 ? 100 : avgGain / avgLoss] and
    [rsi = 100 - 100 / (1 + rs)]. *)
Definition rsi_formula (avg : float * float) : float :=
  let rs := if JsNumber.strict_eq (snd avg) 0
            then 100%float else (fst avg / snd avg)%float in
  (100 - 100 / (1 + rs))%float.

(** The value [rs = 100] gives. *)
Definition rsi_cap : float := (100 - 100 / 101)%float.

End Design.

Section IndicatorFacts.

Import Design.
Variable vs : list float.

Lemma window_sum_trailing i k :
  k <= S i -> i < length vs ->
  window_sum vs i k = fold_left PrimFloat.add (reverse (trailing vs i k)) 0%float.
Proof.
  intros Hk Hi. unfold window_sum, trailing.
  replace (reverse (take k (drop (S i - k) vs)))
    with (map (fun j => vs !!! (i - j)%nat) (seq 0 k)).
  { generalize (seq 0 k) 0%float. intros js.
    induction js as [|j js IH]; intros s; simpl; [reflexivity|apply IH]. }
  apply list_eq. intros j. rewrite list_lookup_fmap.
  destruct (decide (j < k)) as [Hj|Hj].
  - rewrite lookup_seq_lt by exact Hj. simpl.
    assert (Hlen : length (take k (drop (S i - k) vs)) = k)
      by (rewrite length_take, length_drop; lia).
    rewrite reverse_lookup by lia. rewrite Hlen.
    rewrite lookup_take_lt by lia. rewrite lookup_drop.
    replace (S i - k + (k - S j)) with (i - j) by lia.
    symmetry. apply list_lookup_lookup_total_lt. lia.
  - rewrite lookup_seq_ge by lia. simpl. symmetry.
    apply lookup_ge_None. rewrite length_reverse, length_take. lia.
Qed.

Lemma sma_at_early i : i < 19 -> sma_at vs i = PNull.
Proof.
  intros Hi. unfold sma_at. change (smaPeriod - 1) with 19.
  destruct (Nat.leb_spec 19 i); [lia|reflexivity].
Qed.

Lemma sma_at_mean i :
  19 <= i -> i < length vs ->
  sma_at vs i = PNum (mean (reverse (trailing vs i 20))).
Proof.
  intros Hi Hlen. unfold sma_at. change (smaPeriod - 1) with 19.
  destruct (Nat.leb_spec 19 i); [|lia].
  unfold mean. rewrite length_reverse. unfold trailing at 2.
  rewrite length_take, length_drop.
  replace (20 `min` (length vs - (S i - 20))) with smaPeriod
    by (unfold smaPeriod; lia).
  rewrite (window_sum_trailing i smaPeriod) by (unfold smaPeriod; lia).
  reflexivity.
Qed.

(** The two branches of the recurrence, in the terms of the design. *)

Lemma num_14 : num rsiPeriod = 14%float.
Proof. reflexivity. Qed.

Lemma num_13 : num (rsiPeriod - 1) = 13%float.
Proof. reflexivity. Qed.

Lemma rsi_update_early i x y ag al :
  i < 14 ->
  rsi_update i x y (ag, al)
  = (((ag + max0 (x - y))%float, (al + max0 (y - x))%float), PNull).
Proof.
  intros Hi. unfold rsi_update, rsiPeriod.
  rewrite FloatFacts.loss_as_positive_part.
  destruct (Nat.leb_spec i 14); [|lia].
  destruct (Nat.eqb_spec i 14); [lia|]. reflexivity.
Qed.

Lemma rsi_update_seed x y ag al :
  rsi_update 14 x y (ag, al)
  = let avg := (((ag + max0 (x - y)) / 14)%float,
                ((al + max0 (y - x)) / 14)%float) in
    (avg, PNum (rsi_formula avg)).
Proof.
  unfold rsi_update. rewrite FloatFacts.loss_as_positive_part.
  change (14 <=? rsiPeriod)%nat with true.
  change (14 =? rsiPeriod)%nat with true.
  cbv iota. rewrite num_14. reflexivity.
Qed.

Lemma rsi_update_late i x y ag al :
  14 < i ->
  rsi_update i x y (ag, al)
  = let avg := (((ag * 13 + max0 (x - y)) / 14)%float,
                ((al * 13 + max0 (y - x)) / 14)%float) in
    (avg, PNum (rsi_formula avg)).
Proof.
  intros Hi. unfold rsi_update. rewrite FloatFacts.loss_as_positive_part.
  unfold rsiPeriod at 1. destruct (Nat.leb_spec i 14); [lia|].
  rewrite num_14, num_13. reflexivity.
Qed.

Lemma running_sum_S f k :
  running_sum f (S k) = (running_sum f k + f (S k))%float.
Proof.
  unfold running_sum. rewrite seq_S, fold_left_app. reflexivity.
Qed.

(** While the first fourteen differences are accumulated the two local
    variables hold the running sums of the gains and of the losses. *)
Lemma avg_before_sums k :
  k < 14 ->
  avg_before vs (S k) = (running_sum (gain vs) k, running_sum (loss vs) k).
Proof.
  induction k as [|k IH]; intros Hk; [reflexivity|].
  change (avg_before vs (S (S k)))
    with (fst (rsi_update (S k) (vs !!! S k) (vs !!! (S k - 1)%nat)
                          (avg_before vs (S k)))).
  rewrite IH by lia. rewrite rsi_update_early by lia.
  rewrite !running_sum_S. reflexivity.
Qed.

Lemma avg_before_wilder d :
  avg_before vs (S (14 + d)) = wilder vs d.
Proof.
  induction d as [|d IH].
  - change (avg_before vs (S (14 + 0)))
      with (fst (rsi_update 14 (vs !!! 14%nat) (vs !!! 13%nat) (avg_before vs 14))).
    rewrite (avg_before_sums 13) by lia. rewrite rsi_update_seed.
    simpl wilder. rewrite !(running_sum_S _ 13). reflexivity.
  - replace (14 + S d) with (S (14 + d)) by lia.
    change (avg_before vs (S (S (14 + d))))
      with (fst (rsi_update (S (14 + d)) (vs !!! S (14 + d))
                   (vs !!! (S (14 + d) - 1)%nat) (avg_before vs (S (14 + d))))).
    rewrite IH. destruct (wilder vs d) as [ag al] eqn:Hw.
    rewrite rsi_update_late by lia.
    simpl wilder. rewrite Hw.
    replace (14 + S d) with (S (14 + d)) by lia. reflexivity.
Qed.

Lemma rsi_at_early i : i < 14 -> rsi_at vs i = PNull.
Proof.
  intros Hi. unfold rsi_at. destruct i as [|k]; [reflexivity|].
  simpl Nat.ltb. cbv iota.
  rewrite avg_before_sums by lia. rewrite rsi_update_early by lia. reflexivity.
Qed.

Lemma rsi_at_wilder d :
  rsi_at vs (14 + d) = PNum (rsi_formula (wilder vs d)).
Proof.
  unfold rsi_at. change (0 <? 14 + d)%nat with true. cbv iota.
  destruct d as [|d].
  - change (14 + 0) with 14.
    rewrite (avg_before_sums 13) by lia. rewrite rsi_update_seed.
    simpl wilder. rewrite !(running_sum_S _ 13). reflexivity.
  - replace (14 + S d) with (S (14 + d)) by lia.
    rewrite avg_before_wilder. destruct (wilder vs d) as [ag al] eqn:Hw.
    rewrite rsi_update_late by lia.
    replace (S (14 + d)) with (14 + S d) by lia.
    simpl wilder. rewrite Hw.
    replace (14 + S d) with (S (14 + d)) by lia. reflexivity.
Qed.

Lemma rsi_formula_no_loss avg :
  JsNumber.strict_eq (snd avg) 0 = true -> rsi_formula avg = rsi_cap.
Proof. unfold rsi_formula. intros ->. reflexivity. Qed.

End IndicatorFacts.

(** ** Concrete series *)

Module Examples.

Definition point (date : string) (value : prim) : obj :=
  <["date" := PStr date]> (<["value" := value]> ∅).

(** A store that holds the given points and one array that lists them. *)
Definition series_world (points : list obj) : world :=
  World points [fresh_refs 0 (length points)] (fun _ => 0.5%float) 0.

Lemma series_items points :
  arrs (series_world points) !!! 0 = fresh_refs 0 (length points).
Proof. reflexivity. Qed.

Lemma series_have_properties points :
  all_have_properties (arrs (series_world points) !!! 0).
Proof.
  rewrite series_items. unfold all_have_properties, fresh_refs.
  apply Forall_fmap, Forall_forall. intros l _. reflexivity.
Defined.

Lemma series_allocated points :
  refs_allocated (series_world points) (arrs (series_world points) !!! 0).
Proof.
  rewrite series_items. unfold refs_allocated, fresh_refs.
  apply Forall_fmap, Forall_forall. intros l Hl. simpl.
  apply elem_of_seq in Hl. lia.
Defined.

(** The three points of the design's first example. *)
Definition three : world :=
  series_world [point "d1" (PNum 100); point "d2" (PNum 102); point "d3" (PNum 101)].

(** Twenty points of constant value 50. *)
Definition flat20 : world :=
  series_world (replicate 20 (point "2024-01-01" (PNum 50))).

(** Twenty-two points whose values go up and down. *)
Definition wavy22 : world :=
  series_world
    (map (fun i => point "2024-01-01" (PNum (num (i * i mod 7)))) (seq 0 22)).

(** An array whose only element is [null]. *)
Definition null_item : world :=
  World [] [[EPrim PNull]] (fun _ => 0.5%float) 0.

(** Sixteen points without a [value] property. *)
Definition no_values : world :=
  series_world (replicate 16 (<["date" := PStr "2024-01-01"]> ∅)).

End Examples.

(** ** The moving average *)

(** C4. For every series, the record at index [i] of the output has [sma]
    equal to the mean of the input values at [i-19..i] when [i >= 19] (in
    binary64 arithmetic, the values added from the most recent to the
    oldest) and [sma] absent, that is [null], when [i < 19].  Hence a
    series shorter than 20 has no [sma] at all, and one of at least 20
    points has at index 19 the mean of the values 0 to 19. *)
Theorem sma_is_trailing_mean (w : world) (a : loc) :
  all_have_properties (arrs w !!! a) ->
  refs_allocated w (arrs w !!! a) ->
  exists out,
    enrich_output w a = Some out /\
    length out = length (arrs w !!! a) /\
    (forall i o, out !! i = Some o ->
       (i < 19 -> o !! "sma" = Some PNull) /\
       (19 <= i ->
        o !! "sma"
        = Some (PNum (Design.mean
                        (reverse (Design.trailing (values w (arrs w !!! a)) i 20)))))) /\
    (length (arrs w !!! a) < 20 ->
     forall i o, out !! i = Some o -> o !! "sma" = Some PNull) /\
    (20 <= length (arrs w !!! a) ->
     exists o, out !! 19 = Some o /\
       o !! "sma"
       = Some (PNum (Design.mean (reverse (take 20 (values w (arrs w !!! a))))))).
Proof.
  intros Hn Hwf. eexists. split; [apply enrich_output_eq; assumption|].
  split; [apply output_length|]. split; [|split].
  - intros i o Ho. destruct (output_entry _ _ _ _ Ho) as (_ & Hi & Hs & _).
    split; intros Hlt.
    + rewrite Hs, sma_at_early by exact Hlt. reflexivity.
    + rewrite Hs, sma_at_mean by assumption. reflexivity.
  - intros Hshort i o Ho. destruct (output_entry _ _ _ _ Ho) as (Hi & _ & Hs & _).
    rewrite Hs, sma_at_early by lia. reflexivity.
  - intros Hlong.
    destruct (lookup_lt_is_Some_2
                (imap (decorate (values w (arrs w !!! a))) (copies_of w (arrs w !!! a))) 19)
      as [o Ho]; [rewrite output_length; lia|].
    exists o. split; [exact Ho|].
    destruct (output_entry _ _ _ _ Ho) as (_ & Hi & Hs & _).
    rewrite Hs, sma_at_mean by (try exact Hi; lia). reflexivity.
Qed.

Lemma sma_is_trailing_mean_witness :
  all_have_properties (arrs Examples.flat20 !!! 0) /\
  refs_allocated Examples.flat20 (arrs Examples.flat20 !!! 0) /\
  exists out o,
    enrich_output Examples.flat20 0 = Some out /\
    out !! 19 = Some o /\
    o !! "sma" = Some (PNum 50).
Proof.
  split; [apply Examples.series_have_properties|].
  split; [apply Examples.series_allocated|].
  destruct (sma_is_trailing_mean Examples.flat20 0
              (Examples.series_have_properties _) (Examples.series_allocated _))
    as (out & Hout & _ & _ & _ & Hlong).
  destruct (Hlong ltac:(vm_compute; lia)) as (o & Ho & Hsma).
  exists out, o. split; [exact Hout|]. split; [exact Ho|].
  rewrite Hsma. vm_compute. reflexivity.
Defined.

(** ** The relative strength index *)

(** C5. For every series the engine computes [rsi] by Wilder's method:
    it is absent ([null]) at the indices 0 to 13; at index 14 it comes from
    the simple averages of the first fourteen gains and losses; and for
    every index above 14 the averages satisfy
    [avgGain' = (avgGain * 13 + gain_i) / 14],
    [avgLoss' = (avgLoss * 13 + loss_i) / 14], with
    [rs = avgLoss' == 0 ? 100 : avgGain' / avgLoss'] and
    [rsi = 100 - 100 / (1 + rs)], where [gain_i = max(v_i - v_(i-1), 0)]
    and [loss_i = max(v_(i-1) - v_i, 0)]. *)
Theorem rsi_is_wilder (w : world) (a : loc) :
  all_have_properties (arrs w !!! a) ->
  refs_allocated w (arrs w !!! a) ->
  exists out,
    enrich_output w a = Some out /\
    length out = length (arrs w !!! a) /\
    (forall i o, out !! i = Some o ->
       (i < 14 -> o !! "rsi" = Some PNull) /\
       (forall d, i = 14 + d ->
          o !! "rsi"
          = Some (PNum (Design.rsi_formula
                          (Design.wilder (values w (arrs w !!! a)) d))))) /\
    (let vs := values w (arrs w !!! a) in
     Design.wilder vs 0
     = ((Design.running_sum (Design.gain vs) 14 / 14)%float,
        (Design.running_sum (Design.loss vs) 14 / 14)%float) /\
     forall d,
       Design.wilder vs (S d)
       = (((fst (Design.wilder vs d) * 13 + Design.gain vs (14 + S d)) / 14)%float,
          ((snd (Design.wilder vs d) * 13 + Design.loss vs (14 + S d)) / 14)%float)).
Proof.
  intros Hn Hwf. eexists. split; [apply enrich_output_eq; assumption|].
  split; [apply output_length|]. split.
  - intros i o Ho. destruct (output_entry _ _ _ _ Ho) as (_ & _ & _ & Hr).
    split.
    + intros Hi. rewrite Hr, rsi_at_early by exact Hi. reflexivity.
    + intros d ->. rewrite Hr, rsi_at_wilder. reflexivity.
  - split; [reflexivity|]. intros d. simpl Design.wilder.
    destruct (Design.wilder _ d) as [ag al]. reflexivity.
Qed.

Lemma rsi_is_wilder_witness :
  all_have_properties (arrs Examples.wavy22 !!! 0) /\
  refs_allocated Examples.wavy22 (arrs Examples.wavy22 !!! 0) /\
  exists out o,
    enrich_output Examples.wavy22 0 = Some out /\
    out !! 15 = Some o /\
    o !! "rsi" = Some (PNum 52.147239263803677).
Proof.
  split; [apply Examples.series_have_properties|].
  split; [apply Examples.series_allocated|].
  destruct (rsi_is_wilder Examples.wavy22 0
              (Examples.series_have_properties _) (Examples.series_allocated _))
    as (out & Hout & Hlen & Hrsi & _).
  destruct (lookup_lt_is_Some_2 out 15) as [o Ho];
    [rewrite Hlen; vm_compute; lia|].
  exists out, o. split; [exact Hout|]. split; [exact Ho|].
  destruct (Hrsi 15 o Ho) as [_ Hlate]. rewrite (Hlate 1 eq_refl).
  vm_compute. reflexivity.
Defined.

Section FlatSeries.

Import Design.
Variable vs : list float.
Variable c : float.
Hypothesis Hflat : Forall (eq c) vs.

Lemma flat_lookup j : j < length vs -> vs !!! j = c.
Proof.
  intros Hj. destruct (lookup_lt_is_Some_2 vs j Hj) as [x Hx].
  rewrite (list_lookup_total_correct _ _ _ Hx).
  symmetry. exact (proj1 (Forall_lookup _ vs) Hflat j x Hx).
Qed.

Lemma flat_gain j : j < length vs -> gain vs j = 0%float.
Proof.
  intros Hj. unfold gain, max0.
  rewrite (flat_lookup j Hj), (flat_lookup (j - 1)) by lia.
  rewrite (proj1 (FloatFacts.sub_self_flat c)). reflexivity.
Qed.

Lemma flat_loss j : j < length vs -> loss vs j = 0%float.
Proof.
  intros Hj. unfold loss, max0.
  rewrite (flat_lookup j Hj), (flat_lookup (j - 1)) by lia.
  rewrite (proj1 (FloatFacts.sub_self_flat c)). reflexivity.
Qed.

Lemma running_sum_zero f k :
  (forall j, j <= k -> f j = 0%float) -> running_sum f k = 0%float.
Proof.
  induction k as [|k IH]; intros Hf; [reflexivity|].
  rewrite running_sum_S, IH, Hf by (try lia; intros; apply Hf; lia). reflexivity.
Qed.

(** Without any change of price both averages stay at zero. *)
Lemma flat_wilder d : 14 + d < length vs -> wilder vs d = (0%float, 0%float).
Proof.
  induction d as [|d IH]; intros Hd.
  - simpl. rewrite !running_sum_zero; [reflexivity| |].
    + intros j Hj. apply flat_loss. lia.
    + intros j Hj. apply flat_gain. lia.
  - simpl wilder. rewrite IH by lia.
    rewrite flat_gain, flat_loss by lia. reflexivity.
Qed.

End FlatSeries.

(** C3. Wherever [avgLoss] is [0] at an index that has an [rsi] (in
    particular everywhere from index 14 on in a series of constant value),
    the engine takes [rs = 100], so [rsi] is exactly [100 - 100/101],
    about 99.01: it is neither [NaN] nor [100]. *)
Theorem rsi_without_loss (w : world) (a : loc) :
  all_have_properties (arrs w !!! a) ->
  refs_allocated w (arrs w !!! a) ->
  exists out,
    enrich_output w a = Some out /\
    length out = length (arrs w !!! a) /\
    (forall d o,
       out !! (14 + d) = Some o ->
       JsNumber.strict_eq (snd (Design.wilder (values w (arrs w !!! a)) d)) 0 = true ->
       o !! "rsi" = Some (PNum Design.rsi_cap)) /\
    (forall c i o,
       Forall (eq c) (values w (arrs w !!! a)) ->
       14 <= i -> out !! i = Some o ->
       o !! "rsi" = Some (PNum Design.rsi_cap)) /\
    Design.rsi_cap = (100 - 100 / (1 + 100))%float /\
    JsNumber.isNaN Design.rsi_cap = false /\
    JsNumber.strict_eq Design.rsi_cap 100 = false /\
    JsNumber.lt 99.009 Design.rsi_cap = true /\
    JsNumber.lt Design.rsi_cap 99.011 = true.
Proof.
  intros Hn Hwf. eexists. split; [apply enrich_output_eq; assumption|].
  split; [apply output_length|]. split; [|split].
  - intros d o Ho Hzero. destruct (output_entry _ _ _ _ Ho) as (_ & _ & _ & Hr).
    rewrite Hr, rsi_at_wilder, rsi_formula_no_loss by exact Hzero. reflexivity.
  - intros c i o Hflat Hi Ho.
    destruct (output_entry _ _ _ _ Ho) as (_ & Hlen & _ & Hr).
    replace i with (14 + (i - 14)) in Hr, Hlen by lia.
    rewrite Hr, rsi_at_wilder, (flat_wilder _ c Hflat) by exact Hlen.
    reflexivity.
  - repeat split; reflexivity.
Qed.

Lemma rsi_without_loss_witness :
  all_have_properties (arrs Examples.flat20 !!! 0) /\
  refs_allocated Examples.flat20 (arrs Examples.flat20 !!! 0) /\
  exists out o,
    enrich_output Examples.flat20 0 = Some out /\
    out !! 14 = Some o /\
    o !! "rsi" = Some (PNum Design.rsi_cap).
Proof.
  split; [apply Examples.series_have_properties|].
  split; [apply Examples.series_allocated|].
  destruct (rsi_without_loss Examples.flat20 0
              (Examples.series_have_properties _) (Examples.series_allocated _))
    as (out & Hout & Hlen & _ & Hflat & _).
  destruct (lookup_lt_is_Some_2 out 14) as [o Ho];
    [rewrite Hlen; vm_compute; lia|].
  exists out, o. split; [exact Hout|]. split; [exact Ho|].
  apply (Hflat 50%float 14 o); [|lia|exact Ho].
  vm_compute. repeat constructor.
Defined.

(** ** What a call leaves unchanged *)

(** Whatever the argument, a call only allocates: the store it leaves is
    the store it found followed by new objects and new arrays. *)
Lemma enrich_extends (w : world) (v : jsval) :
  exists extra arr, snd (enrichDataWithIndicators v w) = extend w extra arr.
Proof.
  destruct v as [e|a].
  - rewrite enrich_not_array. eauto.
  - destruct (arrs w !!! a) as [|item items] eqn:Hitems.
    + rewrite (enrich_empty w a Hitems). eauto.
    + assert (Hne : arrs w !!! a <> []) by (rewrite Hitems; discriminate).
      destruct (nullish_cases (arrs w !!! a)) as [Hn|Hex].
      * destruct (enrich_run_copies w a Hne Hn) as (copies & _ & _ & _ & ->). eauto.
      * destruct (enrich_output_throw w a Hex) as (extra & ->). eauto.
Qed.

Lemma decorate_value vs i o : decorate vs i o !! "value" = o !! "value".
Proof. apply decorate_other; discriminate. Qed.

Lemma decorate_date vs i o : decorate vs i o !! "date" = o !! "date".
Proof. apply decorate_other; discriminate. Qed.

Lemma copy_obj_date w item : copy_obj w item !! "date" = own_fields w item !! "date".
Proof. unfold copy_obj. apply lookup_insert_ne. discriminate. Qed.

(** C6. For every series the engine returns a new sequence of the same
    length and order whose records have the dates of the input and its
    values coerced to numbers, and it never mutates the input sequence or
    its records: every object and every array of the store is, after the
    call, what it was before. *)
Theorem enrich_preserves_input (w : world) (v : jsval) :
  (forall l o, objs w !! l = Some o ->
     objs (snd (enrichDataWithIndicators v w)) !! l = Some o) /\
  (forall b es, arrs w !! b = Some es ->
     arrs (snd (enrichDataWithIndicators v w)) !! b = Some es) /\
  (forall a,
     v = JArr a ->
     all_have_properties (arrs w !!! a) ->
     refs_allocated w (arrs w !!! a) ->
     exists r out,
       fst (enrichDataWithIndicators v w) = Normal r /\
       arrs w !! r = None /\
       records (snd (enrichDataWithIndicators v w)) r = out /\
       length out = length (arrs w !!! a) /\
       forall i item,
         (arrs w !!! a) !! i = Some item ->
         (arrs (snd (enrichDataWithIndicators v w)) !!! r) !! i
           = Some (ERef (length (objs w) + i)) /\
         objs w !! (length (objs w) + i) = None /\
         exists o,
           out !! i = Some o /\
           o !! "date" = own_fields w item !! "date" /\
           o !! "value" = Some (PNum (ToNumber (item_value w item)))).
Proof.
  destruct (enrich_extends w v) as (extra & arr & Hext).
  split; [|split].
  - intros l o Hl. rewrite Hext. unfold extend. simpl.
    apply lookup_app_l_Some. exact Hl.
  - intros b es Hb. rewrite Hext. unfold extend. simpl.
    apply lookup_app_l_Some. exact Hb.
  - intros a -> Hn Hwf. clear Hext.
    pose proof (enrich_output_eq w a Hn Hwf) as Hout. unfold enrich_output in Hout.
    destruct (enrichDataWithIndicators (JArr a) w) as [[r|e] w'] eqn:Hrun;
      [|discriminate].
    injection Hout as Hout.
    assert (Hr : r = length (arrs w) /\
                 arrs w' !!! r = fresh_refs (length (objs w)) (length (arrs w !!! a))).
    { destruct (arrs w !!! a) as [|item items] eqn:Hitems.
      - rewrite (enrich_empty w a Hitems) in Hrun. injection Hrun as <- <-.
        split; [reflexivity|]. unfold extend. simpl.
        apply list_lookup_total_middle. reflexivity.
      - assert (Hne : arrs w !!! a <> []) by (rewrite Hitems; discriminate).
        rewrite <- Hitems in *. rewrite (enrich_run w a Hne Hn Hwf) in Hrun.
        injection Hrun as <- <-. split; [reflexivity|]. unfold extend. simpl.
        apply list_lookup_total_middle. reflexivity. }
    destruct Hr as [-> Harr].
    exists (length (arrs w)), (records w' (length (arrs w))). simpl.
    split; [reflexivity|]. split; [apply lookup_ge_None; lia|].
    split; [reflexivity|]. rewrite Hout. split; [apply output_length|].
    intros i item Hitem.
    assert (Hi : i < length (arrs w !!! a)) by (eapply lookup_lt_Some; exact Hitem).
    split; [|split].
    + rewrite Harr. unfold fresh_refs.
      rewrite list_lookup_fmap, lookup_seq_lt by exact Hi. reflexivity.
    + apply lookup_ge_None. lia.
    + destruct (lookup_lt_is_Some_2
                  (imap (decorate (values w (arrs w !!! a))) (copies_of w (arrs w !!! a))) i)
        as [o Ho]; [rewrite output_length; exact Hi|].
      exists o. split; [exact Ho|].
      destruct (output_lookup _ _ _ _ Ho) as (item' & Hitem' & ->).
      assert (item' = item) as -> by congruence.
      rewrite decorate_date, decorate_value, copy_obj_date, copy_obj_value.
      split; reflexivity.
Qed.

Lemma enrich_preserves_input_witness :
  all_have_properties (arrs Examples.three !!! 0) /\
  refs_allocated Examples.three (arrs Examples.three !!! 0) /\
  objs (snd (enrichDataWithIndicators (JArr 0) Examples.three)) !! 1
  = Some (Examples.point "d2" (PNum 102)) /\
  exists r out,
    fst (enrichDataWithIndicators (JArr 0) Examples.three) = Normal r /\
    records (snd (enrichDataWithIndicators (JArr 0) Examples.three)) r = out /\
    length out = 3.
Proof.
  split; [apply Examples.series_have_properties|].
  split; [apply Examples.series_allocated|].
  destruct (enrich_preserves_input Examples.three (JArr 0)) as (Hobjs & _ & Hnew).
  split; [apply Hobjs; reflexivity|].
  destruct (Hnew 0 eq_refl (Examples.series_have_properties _)
              (Examples.series_allocated _))
    as (r & out & Hr & _ & Hout & Hlen & _).
  exists r, out. split; [exact Hr|]. split; [exact Hout|]. exact Hlen.
Defined.

(** ** Malformed input *)

Module NaNFacts.

Lemma sub_nan_l x : (JsNumber.NaN - x)%float = JsNumber.NaN.
Proof. apply Prim2SF_inj. rewrite sub_spec. reflexivity. Qed.

Lemma sub_nan_r x : (x - JsNumber.NaN)%float = JsNumber.NaN.
Proof.
  apply Prim2SF_inj. rewrite sub_spec.
  destruct (Prim2SF x) as [[|]|[|]| |[|] m e]; reflexivity.
Qed.

Lemma sum_from_nan xs : fold_left PrimFloat.add xs JsNumber.NaN = JsNumber.NaN.
Proof.
  induction xs as [|x xs IH]; simpl; [reflexivity|].
  rewrite FloatFacts.add_nan_l. exact IH.
Qed.

Lemma sum_with_nan xs s :
  JsNumber.NaN ∈ xs -> fold_left PrimFloat.add xs s = JsNumber.NaN.
Proof.
  revert s. induction xs as [|x xs IH]; intros s Hin.
  - inversion Hin.
  - simpl. apply elem_of_cons in Hin. destruct Hin as [<-|Hin].
    + rewrite FloatFacts.add_nan_r. apply sum_from_nan.
    + apply IH. exact Hin.
Qed.

Lemma mean_with_nan xs : JsNumber.NaN ∈ xs -> Design.mean xs = JsNumber.NaN.
Proof.
  intros Hin. unfold Design.mean. rewrite (sum_with_nan xs _ Hin).
  apply FloatFacts.div_nan_l.
Qed.

(** A price that is [NaN] moves the averages as an unchanged price does:
    both comparisons with [0] fail, so the gain and the loss are [0]. *)
Lemma rsi_update_nan i x y avg :
  JsNumber.isNaN x = true \/ JsNumber.isNaN y = true ->
  rsi_update i x y avg = rsi_update i 0 0 avg.
Proof.
  intros Hnan.
  assert (Hchange : (x - y)%float = JsNumber.NaN).
  { destruct Hnan as [H|H]; apply FloatFacts.is_nan_eq in H; subst.
    - apply sub_nan_l.
    - apply sub_nan_r. }
  unfold rsi_update. rewrite Hchange. reflexivity.
Qed.

End NaNFacts.

(** The claim C7 as stated fails: an array with a [null] element makes
    the engine throw, and points without a numeric value do not turn
    [rsi] into [NaN]. *)
Lemma enrich_throws_and_masks_nan :
  fst (enrichDataWithIndicators (JArr 0) Examples.null_item) = Throw TypeError /\
  output_field Examples.no_values 0 15 "value" = Some (PNum JsNumber.NaN) /\
  output_field Examples.no_values 0 15 "rsi" = Some (PNum Design.rsi_cap).
Proof.
  split; [vm_compute; reflexivity|]. split; vm_compute; reflexivity.
Qed.

(** C7, amended. On an argument that is not an array and on an empty
    array the engine returns the empty sequence.  On an array whose
    elements are all other than [undefined] and [null] it never throws:
    every output value is [Number(item.value)], so a value that does not
    convert to a number appears as [NaN] in [value] and in every [sma]
    whose window contains it, while for [rsi] it counts as an unchanged
    price (zero gain, zero loss).  On an array with an [undefined] or
    [null] element the engine throws a [TypeError]. *)
Theorem enrich_failure_modes (w : world) (v : jsval) :
  (forall e, v = JElem e ->
     exists r, fst (enrichDataWithIndicators v w) = Normal r /\
               records (snd (enrichDataWithIndicators v w)) r = []) /\
  (forall a, v = JArr a -> arrs w !!! a = [] ->
     exists r, fst (enrichDataWithIndicators v w) = Normal r /\
               records (snd (enrichDataWithIndicators v w)) r = []) /\
  (forall a, v = JArr a -> all_have_properties (arrs w !!! a) ->
     exists r, fst (enrichDataWithIndicators v w) = Normal r) /\
  (forall a, v = JArr a -> Exists (fun e => nullish e = true) (arrs w !!! a) ->
     fst (enrichDataWithIndicators v w) = Throw TypeError) /\
  (forall a, v = JArr a ->
     all_have_properties (arrs w !!! a) -> refs_allocated w (arrs w !!! a) ->
     exists out,
       enrich_output w a = Some out /\
       forall i item o,
         (arrs w !!! a) !! i = Some item -> out !! i = Some o ->
         o !! "value" = Some (PNum (ToNumber (item_value w item))) /\
         (JsNumber.isNaN (ToNumber (item_value w item)) = true ->
          o !! "value" = Some (PNum JsNumber.NaN) /\
          forall j o', i <= j <= i + 19 -> 19 <= j -> out !! j = Some o' ->
                       o' !! "sma" = Some (PNum JsNumber.NaN))) /\
  (forall i x y avg,
     JsNumber.isNaN x = true \/ JsNumber.isNaN y = true ->
     rsi_update i x y avg = rsi_update i 0 0 avg).
Proof.
  split; [|split; [|split; [|split; [|split]]]].
  - intros e ->. rewrite enrich_not_array. simpl. eexists. split; [reflexivity|].
    change [[]] with [fresh_refs (length (objs w)) 0].
    apply (records_fresh w [] 0). simpl. lia.
  - intros a -> He. rewrite (enrich_empty w a He). simpl. eexists.
    split; [reflexivity|].
    change [[]] with [fresh_refs (length (objs w)) 0].
    apply (records_fresh w [] 0). simpl. lia.
  - intros a -> Hn. destruct (arrs w !!! a) as [|item items] eqn:Hitems.
    + rewrite (enrich_empty w a Hitems). eauto.
    + assert (Hne : arrs w !!! a <> []) by (rewrite Hitems; discriminate).
      rewrite <- Hitems in Hn.
      destruct (enrich_run_copies w a Hne Hn) as (copies & _ & _ & _ & ->). eauto.
  - intros a -> Hex. destruct (enrich_output_throw w a Hex) as (extra & ->).
    reflexivity.
  - intros a -> Hn Hwf. eexists. split; [apply enrich_output_eq; assumption|].
    intros i item o Hitem Ho.
    destruct (output_lookup _ _ _ _ Ho) as (item' & Hitem' & ->).
    assert (item' = item) as -> by congruence.
    rewrite decorate_value, copy_obj_value. split; [reflexivity|].
    intros Hnan. apply FloatFacts.is_nan_eq in Hnan. rewrite Hnan.
    split; [reflexivity|]. intros j o' Hj H19 Ho'.
    destruct (output_entry _ _ _ _ Ho') as (_ & Hlen & Hs & _).
    rewrite Hs, sma_at_mean by assumption. do 2 f_equal.
    apply NaNFacts.mean_with_nan. rewrite elem_of_reverse.
    unfold Design.trailing. apply list_elem_of_lookup.
    exists (i - (j - 19)).
    rewrite lookup_take_lt by lia. rewrite lookup_drop.
    replace (S j - 20 + (i - (j - 19))) with i by lia.
    unfold values. rewrite list_lookup_fmap, Hitem. simpl. rewrite Hnan. reflexivity.
  - apply NaNFacts.rsi_update_nan.
Qed.

Lemma enrich_failure_modes_witness :
  all_have_properties (arrs Examples.no_values !!! 0) /\
  refs_allocated Examples.no_values (arrs Examples.no_values !!! 0) /\
  output_field Examples.no_values 0 3 "value" = Some (PNum JsNumber.NaN).
Proof.
  split; [apply Examples.series_have_properties|].
  split; [apply Examples.series_allocated|].
  destruct (enrich_failure_modes Examples.no_values (JArr 0))
    as (_ & _ & _ & _ & Hvalues & _).
  destruct (Hvalues 0 eq_refl (Examples.series_have_properties _)
              (Examples.series_allocated _)) as (out & Hout & Hval).
  unfold output_field. rewrite Hout.
  destruct (out !! 3) as [o|] eqn:Ho.
  - destruct (Hval 3 (ERef 3) o eq_refl Ho) as [_ Hnan].
    apply Hnan. vm_compute. reflexivity.
  - exfalso.
    apply lookup_ge_None in Ho.
    rewrite (enrich_output_length _ _ _ (Examples.series_have_properties _)
               (Examples.series_allocated _) Hout) in Ho.
    vm_compute in Ho. lia.
Defined.

(** ** Determinism and re-enrichment *)

Lemma refs_allocated_extend w extra arr items :
  refs_allocated w items -> refs_allocated (extend w extra arr) items.
Proof.
  unfold refs_allocated. intros H. eapply Forall_impl; [exact H|].
  intros [p|l]; [trivial|]. unfold extend. simpl. rewrite length_app. lia.
Qed.

Lemma values_extend w extra arr items :
  refs_allocated w items -> values (extend w extra arr) items = values w items.
Proof.
  intros Hwf. unfold values. apply Forall_fmap_ext_1.
  eapply Forall_impl; [exact Hwf|]. intros e He. simpl.
  unfold item_value. rewrite own_fields_extend by exact He. reflexivity.
Qed.

Lemma copies_extend w extra arr items :
  refs_allocated w items -> copies_of (extend w extra arr) items = copies_of w items.
Proof.
  intros Hwf. unfold copies_of. apply Forall_fmap_ext_1.
  eapply Forall_impl; [exact Hwf|]. intros e He. simpl.
  unfold copy_obj, item_value. rewrite own_fields_extend by exact He. reflexivity.
Qed.

(** The array a call was given is still the same array after the call. *)
Lemma input_array_kept w a extra n :
  arrs (extend w extra [fresh_refs (length (objs w)) n]) !!! a = arrs w !!! a
  \/ (arrs w !!! a = [] /\ a = length (arrs w)).
Proof.
  unfold extend. simpl.
  destruct (decide (a < length (arrs w))) as [Hlt|Hge].
  - left. destruct (lookup_lt_is_Some_2 _ _ Hlt) as [es Hes].
    rewrite (list_lookup_total_correct _ _ _ Hes).
    apply list_lookup_total_correct. rewrite lookup_app_l by exact Hlt. exact Hes.
  - assert (Hdef : arrs w !!! a = []).
    { rewrite list_lookup_total_alt, (proj2 (lookup_ge_None _ _)) by lia. reflexivity. }
    destruct (decide (a = length (arrs w))) as [->|Hne]; [right; auto|].
    left. rewrite Hdef.
    rewrite list_lookup_total_alt, (proj2 (lookup_ge_None _ _)); [reflexivity|].
    rewrite length_app. simpl. lia.
Qed.

(** The records of an output carry their numbers, and copying such a
    record changes nothing. *)
Lemma output_values w items :
  map value_of (imap (decorate (values w items)) (copies_of w items)) = values w items.
Proof.
  apply list_eq. intros i. rewrite list_lookup_fmap, list_lookup_imap.
  unfold copies_of, values. rewrite !list_lookup_fmap.
  destruct (items !! i) as [item|]; [|reflexivity]. simpl. f_equal.
  unfold value_of. rewrite decorate_value, copy_obj_value. reflexivity.
Qed.

Lemma decorate_idem vs i o : decorate vs i (decorate vs i o) = decorate vs i o.
Proof.
  apply map_eq. intros k.
  destruct (decide (k = "rsi")) as [->|Hrsi]; [rewrite !decorate_rsi; reflexivity|].
  destruct (decide (k = "sma")) as [->|Hsma]; [rewrite !decorate_sma; reflexivity|].
  rewrite !decorate_other by assumption. reflexivity.
Qed.

(** Re-enriching the records of an output gives the same records. *)
Lemma enrich_output_again w extra n out :
  length out = n ->
  out = imap (decorate (map value_of out)) out ->
  has_values out (map value_of out) ->
  let w1 := extend w (extra ++ out) [fresh_refs (length (objs w) + length extra) n] in
  enrich_output w1 (length (arrs w)) = Some out.
Proof.
  intros Hlen Hfix Hval w1.
  assert (Hitems : arrs w1 !!! length (arrs w)
                   = fresh_refs (length (objs w) + length extra) n).
  { unfold w1, extend. simpl. apply list_lookup_total_middle. reflexivity. }
  assert (Hown : forall i o, out !! i = Some o ->
            own_fields w1 (ERef (length (objs w) + length extra + i)) = o).
  { intros i o Ho. unfold own_fields, w1, extend. simpl.
    apply list_lookup_total_correct.
    rewrite lookup_app_r by lia. rewrite lookup_app_r by lia.
    replace (length (objs w) + length extra + i - length (objs w) - length extra)
      with i by lia. exact Ho. }
  assert (Hcopies : copies_of w1 (fresh_refs (length (objs w) + length extra) n) = out).
  { apply list_eq. intros i. unfold copies_of, fresh_refs.
    rewrite !list_lookup_fmap.
    destruct (decide (i < n)) as [Hi|Hi].
    - rewrite lookup_seq_lt by exact Hi. simpl.
      destruct (lookup_lt_is_Some_2 out i ltac:(lia)) as [o Ho]. rewrite Ho. f_equal.
      unfold copy_obj, item_value. rewrite (Hown i o Ho).
      destruct (has_values_lookup out (map value_of out) i Hval
                  ltac:(rewrite length_map; lia)) as (o' & Ho' & Hv).
      assert (o' = o) as -> by congruence.
      rewrite Hv. simpl. apply insert_id. exact Hv.
    - rewrite lookup_seq_ge by lia. simpl. symmetry. apply lookup_ge_None. lia. }
  assert (Hvalues : values w1 (fresh_refs (length (objs w) + length extra) n)
                    = map value_of out).
  { rewrite <- Hcopies. unfold values, copies_of. rewrite map_map.
    apply map_ext. intros item. symmetry. apply value_of_copy. }
  pose proof (enrich_output_eq w1 (length (arrs w))) as Heq.
  rewrite Hitems, Hvalues, Hcopies, <- Hfix in Heq. apply Heq.
  - unfold all_have_properties, fresh_refs.
    apply Forall_fmap, Forall_forall. intros l _. reflexivity.
  - unfold refs_allocated, fresh_refs.
    apply Forall_fmap, Forall_forall. intros l Hl. simpl.
    apply elem_of_seq in Hl. unfold w1, extend. simpl.
    rewrite !length_app. lia.
Qed.

Lemma enrich_run_all w a :
  all_have_properties (arrs w !!! a) ->
  refs_allocated w (arrs w !!! a) ->
  enrichDataWithIndicators (JArr a) w
  = (Normal (length (arrs w)),
     extend w (imap (decorate (values w (arrs w !!! a))) (copies_of w (arrs w !!! a)))
              [fresh_refs (length (objs w)) (length (arrs w !!! a))]).
Proof.
  intros Hn Hwf. destruct (arrs w !!! a) as [|item items] eqn:Hitems.
  - apply enrich_empty. exact Hitems.
  - rewrite <- Hitems in *. apply enrich_run; try assumption.
    rewrite Hitems. discriminate.
Qed.

Lemma has_values_output w items :
  has_values (imap (decorate (values w items)) (copies_of w items)) (values w items).
Proof.
  rewrite <- (progress_all _ _ (length (copies_of w items))) by lia.
  apply has_values_progress, has_values_copies.
Qed.

Lemma output_fixed w items :
  let out := imap (decorate (values w items)) (copies_of w items) in
  out = imap (decorate (map value_of out)) out.
Proof.
  intros out. unfold out at 2 3. rewrite output_values.
  apply list_eq. intros i. unfold out. rewrite !list_lookup_imap.
  destruct (copies_of w items !! i) as [o|]; [|reflexivity]. simpl.
  rewrite decorate_idem. reflexivity.
Qed.

(** A call on an array that later allocations left alone gives what it
    gave before them. *)
Lemma enrich_output_extend w extra arr a :
  arrs (extend w extra arr) !!! a = arrs w !!! a ->
  all_have_properties (arrs w !!! a) ->
  refs_allocated w (arrs w !!! a) ->
  enrich_output (extend w extra arr) a = enrich_output w a.
Proof.
  intros Hkept Hn Hwf. rewrite (enrich_output_eq w a Hn Hwf).
  pose proof (enrich_output_eq (extend w extra arr) a) as Heq.
  rewrite Hkept in Heq. rewrite values_extend, copies_extend in Heq by exact Hwf.
  apply Heq; [exact Hn|]. apply refs_allocated_extend. exact Hwf.
Qed.

(** The two indicator properties of a record. *)
Definition indicators (o : obj) : option prim * option prim :=
  (o !! "sma", o !! "rsi").

(** C8. Enriching the same series twice yields identical outputs: the
    second call, made in the store the first one left, returns records
    equal to those of the first.  Enriching an output again reproduces it,
    and enriching any series that carries the numbers of an output (for
    instance its bare date and value fields) reproduces the same [sma] and
    [rsi] at every index. *)
Theorem enrich_deterministic (w : world) (a : loc) :
  all_have_properties (arrs w !!! a) ->
  refs_allocated w (arrs w !!! a) ->
  exists r out,
    fst (enrichDataWithIndicators (JArr a) w) = Normal r /\
    enrich_output w a = Some out /\
    enrich_output (snd (enrichDataWithIndicators (JArr a) w)) a = Some out /\
    enrich_output (snd (enrichDataWithIndicators (JArr a) w)) r = Some out /\
    (forall w' b,
       all_have_properties (arrs w' !!! b) ->
       refs_allocated w' (arrs w' !!! b) ->
       values w' (arrs w' !!! b) = map value_of out ->
       exists out',
         enrich_output w' b = Some out' /\
         map indicators out' = map indicators out).
Proof.
  intros Hn Hwf.
  exists (length (arrs w)),
         (imap (decorate (values w (arrs w !!! a))) (copies_of w (arrs w !!! a))).
  rewrite (enrich_run_all w a Hn Hwf). simpl fst. simpl snd.
  split; [reflexivity|]. split; [apply enrich_output_eq; assumption|].
  split; [|split].
  - rewrite enrich_output_extend; try assumption.
    + apply enrich_output_eq; assumption.
    + destruct (input_array_kept w a
                  (imap (decorate (values w (arrs w !!! a))) (copies_of w (arrs w !!! a)))
                  (length (arrs w !!! a))) as [H|[Hempty ->]]; [exact H|].
      rewrite Hempty. unfold extend. simpl.
      rewrite list_lookup_total_middle by reflexivity. reflexivity.
  - pose proof (enrich_output_again w []
                  (length (arrs w !!! a))
                  (imap (decorate (values w (arrs w !!! a))) (copies_of w (arrs w !!! a)))
                  (output_length _ _) (output_fixed _ _)) as Hagain.
    rewrite output_values in Hagain. specialize (Hagain (has_values_output _ _)).
    simpl in Hagain. rewrite Nat.add_0_r in Hagain. exact Hagain.
  - intros w' b Hn' Hwf' Hsame. eexists.
    split; [apply enrich_output_eq; assumption|].
    rewrite output_values in Hsame. rewrite Hsame.
    assert (Hlen : length (arrs w' !!! b) = length (arrs w !!! a)).
    { rewrite <- (values_length w'), Hsame, values_length. reflexivity. }
    apply list_eq. intros i. rewrite !list_lookup_fmap, !list_lookup_imap.
    unfold copies_of. rewrite !list_lookup_fmap.
    destruct (decide (i < length (arrs w !!! a))) as [Hi|Hi].
    + destruct (lookup_lt_is_Some_2 (arrs w !!! a) i Hi) as [x ->].
      destruct (lookup_lt_is_Some_2 (arrs w' !!! b) i ltac:(lia)) as [y ->].
      simpl. unfold indicators. rewrite !decorate_sma, !decorate_rsi. reflexivity.
    + rewrite (proj2 (lookup_ge_None (arrs w !!! a) i)) by lia.
      rewrite (proj2 (lookup_ge_None (arrs w' !!! b) i)) by lia. reflexivity.
Qed.

Lemma enrich_deterministic_witness :
  all_have_properties (arrs Examples.wavy22 !!! 0) /\
  refs_allocated Examples.wavy22 (arrs Examples.wavy22 !!! 0) /\
  exists out,
    enrich_output Examples.wavy22 0 = Some out /\
    enrich_output (snd (enrichDataWithIndicators (JArr 0) Examples.wavy22)) 0
    = Some out.
Proof.
  split; [apply Examples.series_have_properties|].
  split; [apply Examples.series_allocated|].
  destruct (enrich_deterministic Examples.wavy22 0
              (Examples.series_have_properties _) (Examples.series_allocated _))
    as (r & out & _ & Hfirst & Hsecond & _).
  exists out. split; assumption.
Defined.

(** ** The live feed: what the component does on a tick *)

(** [xs.forEach(f)] *)
Fixpoint forEach {A : Type} (xs : list A) (f : A -> js unit) : js unit :=
  match xs with
  | [] => ret tt
  | x :: rest => f x;; forEach rest f
  end.

(** [a.shift()], its result dropped. *)
Definition Array_shift (a : loc) : js unit :=
  fun w => (Normal tt, with_arrs (alter (drop 1) a) w).

(** The names [Object.prototype] defines.  The objects of the store are
    made by object literals (or by [JSON.parse]), so reading a name an
    object does not own finds the member of [Object.prototype] of that
    name, if there is one. *)
Definition Object_prototype : list string :=
  ["constructor"; "__defineGetter__"; "__defineSetter__"; "hasOwnProperty";
   "__lookupGetter__"; "__lookupSetter__"; "isPrototypeOf";
   "propertyIsEnumerable"; "toString"; "valueOf"; "__proto__"; "toLocaleString"].

(** What reading a property of an object gives: a primitive, or a
    built-in object (a function of [Object.prototype]; under [__proto__]
    that prototype itself). *)
Inductive member : Type :=
| Data (p : prim)
| BuiltIn.

(** [o[k]] *)
Definition Get (o : obj) (k : string) : member :=
  match o !! k with
  | Some p => Data p
  | None => if bool_decide (k ∈ Object_prototype) then BuiltIn else Data PUndefined
  end.

(** A built-in object is truthy, and [Number] of it is [NaN]: its
    [valueOf] returns the object itself and its [toString] a text that is
    no numeral. *)
Definition ToBoolean_member (m : member) : bool :=
  match m with
  | Data p => ToBoolean p
  | BuiltIn => true
  end.

Definition ToNumber_member (m : member) : float :=
  match m with
  | Data p => ToNumber p
  | BuiltIn => JsNumber.NaN
  end.

(** [v[k]] for any name [k].  The members of the prototypes of primitive
    values ([String.prototype] and the like) are not modelled: the series
    the component holds come from the engine, whose elements are
    objects. *)
Definition GetMember (v : elem) (k : string) : js member :=
  fun w =>
    match v with
    | ERef l => (Normal (Get (objs w !!! l) k), w)
    | EPrim _ => (let* p := GetV v k in ret (Data p)) w
    end.

(** [o[k] = x] for a number [x]: a new or updated own property, except
    that on an object that does not own [__proto__] the assignment runs
    the setter of [Object.prototype], which ignores a number. *)
Definition assign_number (o : obj) (k : string) (x : float) : obj :=
  if String.eqb k "__proto__" && negb (bool_decide (is_Some (o !! k))) then o
  else <[k := PNum x]> o.

Definition SetNumber (v : elem) (k : string) (x : float) : js unit :=
  fun w =>
    match v with
    | ERef l => (Normal tt, with_objs (alter (fun o => assign_number o k x) l) w)
    | EPrim PUndefined | EPrim PNull => (Throw TypeError, w)
    | EPrim _ => if String.eqb k "__proto__" then (Normal tt, w) else (Throw TypeError, w)
    end.

(** The body of [comparisons.forEach]: a comparison series moves only if
    what the last point gives under its name is truthy. *)
Definition simulate_comparison (lastItem newPoint : elem) (comp : string) : js unit :=
  let* c := GetMember lastItem comp in
  if ToBoolean_member c then
    let compLastPrice := ToNumber_member c in
    let* r := Math_random in
    let compChange := ((r - 0.5) * 0.004)%float in
    SetNumber newPoint comp
      (JsNumber.toFixed2 (compLastPrice * (1 + compChange))%float)
  else ret tt.

(** The function given to [setData] when a message arrives: [change] is
    the number carried by the message, [now] what
    [new Date().toISOString()] returns, [prevData] the current series. *)
Definition tick_update (comparisons : list string) (change : float) (now : string)
    (prevData : loc) : js loc :=
  let* len := arr_length prevData in
  if (len =? 0)%nat then ret prevData
  else
    let* lastItem := arr_get prevData (len - 1) in
    let* lastValue := GetV lastItem "value" in
    let lastPrice := ToNumber lastValue in
    let newPrice := (lastPrice * (1 + change))%float in
    let* p := alloc_obj (<["value" := PNum (JsNumber.toFixed2 newPrice)]>
                           (<["date" := PStr now]> ∅)) in
    let newPoint := ERef p in
    forEach comparisons (simulate_comparison lastItem newPoint);;
    let* prev := read_arr prevData in
    let* newData := alloc_arr (prev ++ [newPoint]) in
    let* n := arr_length newData in
    (if (100 <? n)%nat then Array_shift newData else ret tt);;
    enrichDataWithIndicators (JArr newData).

(** A run of ticks, each with its change and its time stamp; the series
    the component holds is replaced after each one. *)
Fixpoint run_ticks (comparisons : list string) (ticks : list (float * string))
    (data : loc) : js loc :=
  match ticks with
  | [] => ret data
  | (change, now) :: rest =>
      let* data' := tick_update comparisons change now data in
      run_ticks comparisons rest data'
  end.

(** The series after a run of ticks; [None] if a tick throws. *)
Definition series_after (comparisons : list string) (ticks : list (float * string))
    (data : loc) (w : world) : option (list obj) :=
  match run_ticks comparisons ticks data w with
  | (Normal d, w') => Some (records w' d)
  | (Throw _, _) => None
  end.

(** *** The new point, as a function of the last one *)


(** The same number for what the last point gives under a name. *)
Definition member_price (m : member) (r : float) : float :=
  JsNumber.toFixed2 (ToNumber_member m * (1 + (r - 0.5) * 0.004))%float.

(** One round of the [forEach] on the new point [fst st], [snd st]
    counting the draws taken from the random source. *)
Definition comp_step (last : obj) (source : nat -> float) (st : obj * nat)
    (comp : string) : obj * nat :=
  let c := Get last comp in
  if ToBoolean_member c
  then (assign_number (fst st) comp (member_price c (source (snd st))), S (snd st))
  else st.

Definition base_point (last : obj) (change : float) (now : string) : obj :=
  <["value" := PNum (JsNumber.toFixed2
                       (ToNumber (default PUndefined (last !! "value")) * (1 + change))%float)]>
    (<["date" := PStr now]> ∅).

(** The new point and the number of draws consumed once it is complete. *)
Definition new_point (last : obj) (source : nat -> float) (d : nat)
    (comparisons : list string) (change : float) (now : string) : obj * nat :=
  fold_left (comp_step last source) comparisons (base_point last change now, d).

(** The window rule: drop the oldest element when there are more than 100. *)
Definition slide {A : Type} (l : list A) : list A :=
  if (100 <? length l)%nat then drop 1 l else l.

(** Every element of the series is a reference to an allocated object, as
    in every series the component stores with [setData]. *)
Definition series_ok (w : world) (items : list elem) : Prop :=
  Forall (fun e => match e with ERef l => l < length (objs w) | EPrim _ => False end)
         items.

Lemma series_ok_properties w items : series_ok w items -> all_have_properties items.
Proof.
  intros H. eapply Forall_impl; [exact H|]. intros [p|l]; [contradiction|reflexivity].
Qed.

Lemma series_ok_allocated w items : series_ok w items -> refs_allocated w items.
Proof.
  intros H. eapply Forall_impl; [exact H|]. intros [p|l]; [contradiction|trivial].
Qed.

Lemma series_ok_fresh w base n :
  base + n <= length (objs w) -> series_ok w (fresh_refs base n).
Proof.
  intros Hle. unfold series_ok, fresh_refs. apply Forall_fmap, Forall_forall.
  intros l Hl. simpl. apply elem_of_seq in Hl. lia.
Qed.

Section TickRun.

Variable w : world.
Variable l : loc.
Hypothesis Hl : l < length (objs w).

(** The store while the new point [o] is being completed. *)
Definition building (o : obj) (d : nat) : world :=
  World (objs w ++ [o]) (arrs w) (entropy w) d.

Lemma simulate_comparison_run o d comp :
  simulate_comparison (ERef l) (ERef (length (objs w))) comp (building o d)
  = (Normal tt,
     building (fst (comp_step (objs w !!! l) (entropy w) (o, d) comp))
              (snd (comp_step (objs w !!! l) (entropy w) (o, d) comp))).
Proof.
  unfold simulate_comparison, comp_step.
  assert (Hget : GetMember (ERef l) comp (building o d)
                 = (Normal (Get (objs w !!! l) comp), building o d)).
  { unfold GetMember, building. simpl.
    destruct (lookup_lt_is_Some_2 (objs w) l Hl) as [x Hx].
    rewrite (list_lookup_total_correct _ _ _ Hx).
    rewrite (list_lookup_total_correct (objs w ++ [o]) l x); [reflexivity|].
    rewrite lookup_app_l by exact Hl. exact Hx. }
  rewrite (bind_normal _ _ _ _ _ Hget).
  destruct (ToBoolean_member (Get (objs w !!! l) comp)); [|reflexivity].
  unfold Math_random, bind, SetNumber, with_objs, building. simpl.
  replace (length (objs w)) with (length (objs w) + 0) at 1 by lia.
  rewrite alter_app_r. reflexivity.
Qed.

Lemma forEach_run comparisons : forall o d,
  forEach comparisons (simulate_comparison (ERef l) (ERef (length (objs w))))
    (building o d)
  = (Normal tt,
     building (fst (fold_left (comp_step (objs w !!! l) (entropy w)) comparisons (o, d)))
              (snd (fold_left (comp_step (objs w !!! l) (entropy w)) comparisons (o, d)))).
Proof.
  induction comparisons as [|comp rest IH]; intros o d; [reflexivity|].
  simpl forEach. rewrite (bind_normal _ _ _ _ _ (simulate_comparison_run o d comp)).
  rewrite IH. simpl fold_left.
  destruct (comp_step (objs w !!! l) (entropy w) (o, d) comp) as [o' d']. reflexivity.
Qed.

End TickRun.

(** The store a tick hands to the engine: the new point is allocated
    after the old objects and the window after the old arrays. *)
Definition tick_store (w : world) (pt : obj) (d : nat) (window_items : list elem) : world :=
  World (objs w ++ [pt]) (arrs w ++ [window_items]) (entropy w) d.

Lemma last_item_lookup (items : list elem) e :
  last items = Some e -> default (EPrim PUndefined) (items !! (length items - 1)) = e.
Proof.
  intros Hlast. rewrite last_lookup in Hlast.
  replace (length items - 1) with (pred (length items)) by lia.
  rewrite Hlast. reflexivity.
Qed.

(** One tick on a non-empty series. *)
Lemma tick_run w data comparisons change now l :
  series_ok w (arrs w !!! data) ->
  last (arrs w !!! data) = Some (ERef l) ->
  let items := arrs w !!! data in
  let pt := fst (new_point (objs w !!! l) (entropy w) (draws w) comparisons change now) in
  let d := snd (new_point (objs w !!! l) (entropy w) (draws w) comparisons change now) in
  let window_items := slide (items ++ [ERef (length (objs w))]) in
  let w2 := tick_store w pt d window_items in
  tick_update comparisons change now data w
  = (Normal (length (arrs w2)),
     extend w2 (imap (decorate (values w2 window_items)) (copies_of w2 window_items))
               [fresh_refs (length (objs w2)) (length window_items)]).
Proof.
  intros Hok Hlast items pt d window_items w2.
  assert (Hl : l < length (objs w)).
  { apply last_Some_elem_of in Hlast.
    exact (proj1 (Forall_forall _ _) Hok _ Hlast). }
  assert (Hlen : length items <> 0).
  { unfold items. destruct (arrs w !!! data); [discriminate|simpl; lia]. }
  unfold tick_update.
  rewrite (bind_normal _ _ _ _ _ (arr_length_run w data)). fold items.
  destruct (Nat.eqb_spec (length items) 0) as [|_]; [contradiction|].
  assert (Hget : arr_get data (length items - 1) w = (Normal (ERef l), w)).
  { unfold arr_get, read_arr, bind, ret. fold items.
    rewrite (last_item_lookup items (ERef l) Hlast). reflexivity. }
  rewrite (bind_normal _ _ _ _ _ Hget).
  assert (Hval : GetV (ERef l) "value" w
                 = (Normal (default PUndefined ((objs w !!! l) !! "value")), w))
    by reflexivity.
  rewrite (bind_normal _ _ _ _ _ Hval).
  assert (Halloc : alloc_obj (base_point (objs w !!! l) change now) w
                   = (Normal (length (objs w)),
                      building w (base_point (objs w !!! l) change now) (draws w)))
    by reflexivity.
  unfold base_point in Halloc. rewrite (bind_normal _ _ _ _ _ Halloc).
  fold (base_point (objs w !!! l) change now).
  rewrite (bind_normal _ _ _ _ _ (forEach_run w l Hl comparisons _ _)).
  fold (new_point (objs w !!! l) (entropy w) (draws w) comparisons change now).
  fold pt d.
  assert (Hread : read_arr data (building w pt d) = (Normal items, building w pt d))
    by reflexivity.
  rewrite (bind_normal _ _ _ _ _ Hread).
  assert (Hnew : alloc_arr (items ++ [ERef (length (objs w))]) (building w pt d)
                 = (Normal (length (arrs w)),
                    tick_store w pt d (items ++ [ERef (length (objs w))])))
    by reflexivity.
  rewrite (bind_normal _ _ _ _ _ Hnew).
  assert (Hn : arr_length (length (arrs w))
                 (tick_store w pt d (items ++ [ERef (length (objs w))]))
               = (Normal (length (items ++ [ERef (length (objs w))])),
                  tick_store w pt d (items ++ [ERef (length (objs w))]))).
  { unfold arr_length, read_arr, bind, ret, tick_store. simpl.
    rewrite list_lookup_total_middle by reflexivity. reflexivity. }
  rewrite (bind_normal _ _ _ _ _ Hn).
  assert (Hshift :
    (if (100 <? length (items ++ [ERef (length (objs w))]))%nat
     then Array_shift (length (arrs w)) else ret tt)
      (tick_store w pt d (items ++ [ERef (length (objs w))]))
    = (Normal tt, w2)).
  { unfold w2, window_items, slide.
    destruct (100 <? length (items ++ [ERef (length (objs w))]))%nat; [|reflexivity].
    unfold Array_shift, with_arrs, tick_store. simpl.
    replace (length (arrs w)) with (length (arrs w) + 0) at 1 by lia.
    rewrite alter_app_r. reflexivity. }
  rewrite (bind_normal _ _ _ _ _ Hshift).
  assert (Hitems2 : arrs w2 !!! length (arrs w) = window_items).
  { unfold w2, tick_store. simpl. apply list_lookup_total_middle. reflexivity. }
  assert (Hok2 : series_ok w2 window_items).
  { unfold window_items, slide.
    assert (Hall : series_ok w2 (items ++ [ERef (length (objs w))])).
    { apply Forall_app. split.
      - eapply Forall_impl; [exact Hok|]. intros [q|k]; [trivial|].
        unfold w2, tick_store. simpl. rewrite length_app. lia.
      - constructor; [|constructor]. unfold w2, tick_store. simpl.
        rewrite length_app. simpl. lia. }
    destruct (100 <? _)%nat; [|exact Hall]. apply Forall_drop. exact Hall. }
  pose proof (enrich_run_all w2 (length (arrs w))) as Hrun.
  rewrite Hitems2 in Hrun.
  rewrite Hrun;
    [|exact (series_ok_properties _ _ Hok2)|exact (series_ok_allocated _ _ Hok2)].
  replace (length (arrs w2)) with (S (length (arrs w)))
    by (unfold w2, tick_store; simpl; rewrite length_app; simpl; lia).
  reflexivity.
Qed.


Lemma series_ok_last w items :
  series_ok w items -> items <> [] ->
  exists l, last items = Some (ERef l) /\ l < length (objs w).
Proof.
  intros Hok Hne. destruct (last items) as [e|] eqn:Hlast.
  - pose proof (proj1 (Forall_forall _ _) Hok e (last_Some_elem_of _ _ Hlast)) as He.
    destruct e as [q|l]; [contradiction|]. eauto.
  - apply last_None in Hlast. contradiction.
Qed.

Lemma slide_length {A} (l : list A) :
  length (slide l) = if (100 <? length l)%nat then length l - 1 else length l.
Proof. unfold slide. destruct (100 <? length l)%nat; [apply length_drop|reflexivity]. Qed.

Lemma slide_map {A B} (f : A -> B) (l : list A) : map f (slide l) = slide (map f l).
Proof.
  unfold slide. rewrite length_map.
  destruct (100 <? length l)%nat; [|reflexivity]. apply (fmap_drop f 1 l).
Qed.

(** Closes [k ∉ Object_prototype] for a literal name [k]. *)
Ltac not_inherited :=
  let H := fresh in
  intros H; unfold Object_prototype in H;
  repeat (apply elem_of_cons in H as [H|H]; [discriminate H|]);
  inversion H.

Lemma mul_nan_l x : (JsNumber.NaN * x)%float = JsNumber.NaN.
Proof. apply Prim2SF_inj. rewrite mul_spec. reflexivity. Qed.

(** The price computed from a built-in object is [NaN]. *)
Lemma member_price_builtin r : member_price BuiltIn r = JsNumber.NaN.
Proof. unfold member_price. cbn [ToNumber_member]. rewrite mul_nan_l. reflexivity. Qed.

Lemma Get_own (o : obj) k :
  k ∉ Object_prototype -> Get o k = Data (default PUndefined (o !! k)).
Proof.
  intros Hk. unfold Get. destruct (o !! k); [reflexivity|].
  rewrite bool_decide_eq_false_2 by exact Hk. reflexivity.
Qed.

Lemma Get_inherited (o : obj) k :
  k ∈ Object_prototype -> o !! k = None -> Get o k = BuiltIn.
Proof.
  intros Hk Ho. unfold Get. rewrite Ho, bool_decide_eq_true_2 by exact Hk. reflexivity.
Qed.

Lemma assign_number_ne (o : obj) k x k' :
  k' <> k -> assign_number o k x !! k' = o !! k'.
Proof.
  intros H. unfold assign_number. destruct (_ && _); [reflexivity|].
  apply lookup_insert_ne. congruence.
Qed.

Lemma assign_number_eq (o : obj) k x :
  k <> "__proto__" -> assign_number o k x = <[k := PNum x]> o.
Proof.
  intros H. unfold assign_number.
  destruct (String.eqb_spec k "__proto__"); [contradiction|reflexivity].
Qed.

(** A number assigned under [__proto__] is lost. *)
Lemma assign_number_proto (o : obj) x :
  o !! "__proto__" = None -> assign_number o "__proto__" x = o.
Proof.
  intros H. unfold assign_number. rewrite H.
  rewrite (bool_decide_eq_false_2 (is_Some None)) by (intros [? ?]; discriminate).
  reflexivity.
Qed.

(** A key no comparison uses keeps the value the base point gives it. *)
Lemma comp_fold_other last source comparisons k : forall o d,
  k ∉ comparisons ->
  fst (fold_left (comp_step last source) comparisons (o, d)) !! k = o !! k.
Proof.
  induction comparisons as [|comp rest IH]; intros o d Hk; [reflexivity|].
  apply not_elem_of_cons in Hk. destruct Hk as [Hne Hrest].
  simpl. unfold comp_step at 2. simpl.
  destruct (ToBoolean_member (Get last comp)).
  - rewrite IH by exact Hrest. apply assign_number_ne. exact Hne.
  - apply IH. exact Hrest.
Qed.

(** A comparison that reads falsy on the last point leaves its key alone. *)
Lemma comp_fold_falsy last source comparisons k : forall o d,
  ToBoolean_member (Get last k) = false ->
  fst (fold_left (comp_step last source) comparisons (o, d)) !! k = o !! k.
Proof.
  induction comparisons as [|comp rest IH]; intros o d Hk; [reflexivity|].
  simpl. unfold comp_step at 2. simpl.
  destruct (ToBoolean_member (Get last comp)) eqn:Hcomp.
  - rewrite IH by exact Hk. apply assign_number_ne. congruence.
  - apply IH. exact Hk.
Qed.

(** Nothing is ever stored under [__proto__]. *)
Lemma comp_fold_proto last source comparisons : forall o d,
  o !! "__proto__" = None ->
  fst (fold_left (comp_step last source) comparisons (o, d)) !! "__proto__" = None.
Proof.
  induction comparisons as [|comp rest IH]; intros o d Ho; [exact Ho|].
  simpl. unfold comp_step at 2. simpl.
  destruct (ToBoolean_member (Get last comp)); [|apply IH; exact Ho].
  apply IH. destruct (decide (comp = "__proto__")) as [->|Hne].
  - rewrite assign_number_proto by exact Ho. exact Ho.
  - rewrite assign_number_ne by congruence. exact Ho.
Qed.

(** The draws consumed: one for each comparison that reads truthy. *)
Lemma comp_fold_draws last source comparisons : forall o d,
  snd (fold_left (comp_step last source) comparisons (o, d))
  = d + length (filter (fun c => ToBoolean_member (Get last c) = true) comparisons).
Proof.
  induction comparisons as [|comp rest IH]; intros o d; simpl; [lia|].
  unfold comp_step at 2. simpl. rewrite filter_cons.
  destruct (ToBoolean_member (Get last comp)) eqn:Hcomp.
  - rewrite IH. rewrite decide_True by reflexivity. simpl. lia.
  - rewrite IH. rewrite decide_False by discriminate. reflexivity.
Qed.

(** A comparison that reads truthy gets its own draw: the one that
    follows the draws of the truthy comparisons listed before it. *)
Lemma comp_fold_truthy last source pre comp post o d :
  comp ∉ post -> comp <> "__proto__" ->
  ToBoolean_member (Get last comp) = true ->
  fst (fold_left (comp_step last source) (pre ++ comp :: post) (o, d)) !! comp
  = Some (PNum (member_price
                  (Get last comp)
                  (source (d + length (filter
                                         (fun c => ToBoolean_member (Get last c) = true)
                                         pre))))).
Proof.
  intros Hpost Hproto Htrue. rewrite fold_left_app. simpl.
  destruct (fold_left (comp_step last source) pre (o, d)) as [o1 d1] eqn:Hpre.
  assert (Hd1 : d1 = d + length (filter
                    (fun c => ToBoolean_member (Get last c) = true) pre)).
  { rewrite <- (comp_fold_draws last source pre o d), Hpre. reflexivity. }
  unfold comp_step at 2. simpl. rewrite Htrue.
  rewrite comp_fold_other by exact Hpost.
  rewrite assign_number_eq by exact Hproto.
  rewrite lookup_insert_eq, Hd1. reflexivity.
Qed.

(** A property the new point has is never removed. *)
Lemma comp_fold_keeps last source comparisons k : forall o d,
  is_Some (o !! k) ->
  is_Some (fst (fold_left (comp_step last source) comparisons (o, d)) !! k).
Proof.
  induction comparisons as [|comp rest IH]; intros o d Ho; [exact Ho|].
  simpl. unfold comp_step at 2. simpl.
  destruct (ToBoolean_member (Get last comp)); [|apply IH; exact Ho].
  apply IH. unfold assign_number. destruct (_ && _); [exact Ho|].
  destruct (decide (k = comp)) as [->|Hne].
  - rewrite lookup_insert_eq. eauto.
  - rewrite lookup_insert_ne by congruence. exact Ho.
Qed.

Lemma comp_fold_value_num last source comparisons : forall o d,
  (exists x, o !! "value" = Some (PNum x)) ->
  exists x, fst (fold_left (comp_step last source) comparisons (o, d)) !! "value"
            = Some (PNum x).
Proof.
  induction comparisons as [|comp rest IH]; intros o d Ho; [exact Ho|].
  simpl. unfold comp_step at 2. simpl.
  destruct (ToBoolean_member (Get last comp)); [|apply IH; exact Ho].
  apply IH. destruct (decide (comp = "value")) as [->|Hne].
  - rewrite assign_number_eq by discriminate. rewrite lookup_insert_eq. eauto.
  - rewrite assign_number_ne by congruence. exact Ho.
Qed.

Lemma new_point_value_num last source d comparisons change now :
  exists x, fst (new_point last source d comparisons change now) !! "value" = Some (PNum x).
Proof.
  unfold new_point. apply comp_fold_value_num.
  unfold base_point. rewrite lookup_insert_eq. eauto.
Qed.

(** The column of a property over the records of a series. *)
Definition column (k : string) (out : list obj) : list (option prim) :=
  map (fun o => o !! k) out.

(** What one tick does to a non-empty series. *)
Lemma tick_step w data comparisons change now :
  series_ok w (arrs w !!! data) ->
  arrs w !!! data <> [] ->
  exists l data' w' pt,
    last (arrs w !!! data) = Some (ERef l) /\
    l < length (objs w) /\
    pt = fst (new_point (objs w !!! l) (entropy w) (draws w) comparisons change now) /\
    tick_update comparisons change now data w = (Normal data', w') /\
    series_ok w' (arrs w' !!! data') /\
    arrs w' !!! data' <> [] /\
    length (records w' data') = length (slide (records w data ++ [pt])) /\
    objs w' !! length (objs w) = Some pt /\
    (forall k, k <> "sma" -> k <> "rsi" -> k <> "value" ->
       column k (records w' data') = slide (column k (records w data) ++ [pt !! k])) /\
    (exists r, last (records w' data') = Some r /\
               forall k, k <> "sma" -> k <> "rsi" -> r !! k = pt !! k).
Proof.
  intros Hok Hne.
  destruct (series_ok_last w _ Hok Hne) as (l & Hlast & Hl).
  pose proof (tick_run w data comparisons change now l Hok Hlast) as Hrun.
  cbv zeta in Hrun.
  set (pt := fst (new_point (objs w !!! l) (entropy w) (draws w) comparisons change now)) in *.
  set (d := snd (new_point (objs w !!! l) (entropy w) (draws w) comparisons change now)) in *.
  set (items := arrs w !!! data) in *.
  set (witems := slide (items ++ [ERef (length (objs w))])) in *.
  set (w2 := tick_store w pt d witems) in *.
  set (out := imap (decorate (values w2 witems)) (copies_of w2 witems)) in *.
  exists l, (length (arrs w2)), (extend w2 out [fresh_refs (length (objs w2)) (length witems)]), pt.
  assert (Hlen_out : length out = length witems) by apply output_length.
  assert (Hrec : records (extend w2 out [fresh_refs (length (objs w2)) (length witems)])
                         (length (arrs w2)) = out).
  { rewrite records_fresh by (rewrite Hlen_out; apply le_n).
    apply take_ge. rewrite Hlen_out. apply le_n. }
  assert (Hown : map (own_fields w2) (items ++ [ERef (length (objs w))])
                 = records w data ++ [pt]).
  { rewrite map_app. f_equal.
    - unfold records. fold items. apply Forall_fmap_ext_1.
      eapply Forall_impl; [exact Hok|]. intros [q|k] Hk; [contradiction|].
      unfold own_fields, w2, tick_store. simpl.
      destruct (lookup_lt_is_Some_2 (objs w) k Hk) as [x Hx].
      rewrite (list_lookup_total_correct _ _ _ Hx).
      apply list_lookup_total_correct. rewrite lookup_app_l by exact Hk. exact Hx.
    - simpl. f_equal. unfold own_fields, w2, tick_store. simpl.
      apply list_lookup_total_middle. reflexivity. }
  assert (Hwitems_len : length witems = length (slide (records w data ++ [pt]))).
  { unfold witems. rewrite <- Hown, <- slide_map, length_map. reflexivity. }
  assert (Hwne : witems <> []).
  { intros Hnil. apply (f_equal length) in Hnil. unfold witems in Hnil.
    rewrite slide_length, length_app in Hnil. simpl in Hnil.
    destruct (100 <? length items + 1)%nat eqn:Hc; [|lia].
    apply Nat.ltb_lt in Hc. lia. }
  split; [exact Hlast|]. split; [exact Hl|]. split; [reflexivity|].
  split; [exact Hrun|]. split; [|split; [|split; [|split; [|split]]]].
  - unfold extend. cbn [objs arrs]. rewrite list_lookup_total_middle by reflexivity.
    apply series_ok_fresh. cbn [objs]. rewrite length_app, Hlen_out. apply le_n.
  - unfold extend. cbn [objs arrs]. rewrite list_lookup_total_middle by reflexivity.
    unfold fresh_refs. intros Hnil. apply (f_equal length) in Hnil.
    rewrite length_map, length_seq in Hnil.
    apply Hwne. apply nil_length_inv. exact Hnil.
  - rewrite Hrec, Hlen_out. exact Hwitems_len.
  - unfold extend, w2, tick_store. simpl. rewrite <- app_assoc. simpl.
    apply list_lookup_middle. reflexivity.
  - intros k Hsma Hrsi Hvalue. rewrite Hrec. unfold column.
    transitivity (map (fun item => own_fields w2 item !! k) witems).
    + unfold out. apply list_eq. intros i.
      rewrite !list_lookup_fmap, list_lookup_imap. unfold copies_of.
      rewrite list_lookup_fmap. destruct (witems !! i) as [item|]; [|reflexivity].
      simpl. rewrite decorate_other by assumption. unfold copy_obj.
      rewrite lookup_insert_ne by congruence. reflexivity.
    + unfold witems. rewrite slide_map. f_equal.
      rewrite <- (map_map (own_fields w2) (fun o => o !! k)), Hown, map_app.
      reflexivity.
  - rewrite Hrec.
    assert (Hlast_item : last witems = Some (ERef (length (objs w)))).
    { unfold witems, slide. destruct (100 <? _)%nat eqn:Hc; [|apply last_snoc].
      apply Nat.ltb_lt in Hc. rewrite length_app in Hc. simpl in Hc.
      rewrite drop_app_le by lia. apply last_snoc. }
    rewrite last_lookup in Hlast_item. rewrite last_lookup, Hlen_out.
    unfold out. rewrite list_lookup_imap. unfold copies_of.
    rewrite list_lookup_fmap, Hlast_item. simpl. eexists. split; [reflexivity|].
    intros k Hsma Hrsi. rewrite decorate_other by assumption.
    assert (Hpt : own_fields w2 (ERef (length (objs w))) = pt).
    { unfold own_fields, w2, tick_store. simpl.
      apply list_lookup_total_middle. reflexivity. }
    unfold copy_obj, item_value. rewrite Hpt.
    destruct (new_point_value_num (objs w !!! l) (entropy w) (draws w)
                comparisons change now) as (x & Hx).
    fold pt in Hx. rewrite Hx. simpl.
    destruct (decide (k = "value")) as [->|Hk].
    + rewrite lookup_insert_eq. symmetry. exact Hx.
    + apply lookup_insert_ne. congruence.
Qed.

(** *** The records of the window *)








(** *** Runs of ticks *)


(** The window rule applied to a column for each new entry in turn. *)
Definition slide_all {A : Type} (init : list A) (xs : list A) : list A :=
  fold_left (fun col x => slide (col ++ [x])) xs init.








(** ** The sliding window *)





(** ** The simulated socket, its timers and the component's effect *)

(** What a timer runs when it fires: the constructor's connection
    callback or the stream's interval callback of a socket. *)
Inductive callback : Type :=
| Connect (ws : nat)
| Stream (ws : nat).

(** A timer of the host: [every] is the period of an interval and is
    absent for a timeout; [alive] is cleared when the timer is cancelled
    or, for a timeout, when it has fired. *)
Record timer : Type := Timer {
  due : nat;
  every : option nat;
  action : callback;
  alive : bool
}.

(** A [MockWebSocket]: [onopen] tells whether the component's handler is
    installed, [onmessage] holds the comparison list that handler closed
    over, [intervalId] is the private field.  [onclose] is never assigned
    by the component, so it stays [null]. *)
Record socket : Type := Socket {
  onopen : bool;
  onmessage : option (list string);
  intervalId : option nat
}.

Inductive connection : Type := DISCONNECTED | CONNECTING | CONNECTED.

(** The live session: the store and the series the component holds, the
    wall clock in milliseconds with its rendering as a time stamp, the
    host's timers, the sockets created so far, [socketRef.current], the
    displayed status, and the log of the messages delivered to a handler
    (time and change). *)
Record session : Type := Session {
  store : world;
  data : loc;
  wall : nat -> string;
  clock : nat;
  timers : list timer;
  sockets : list socket;
  socketRef : option nat;
  connectionStatus : connection;
  delivered : list (nat * float)
}.

Definition with_timers (f : list timer -> list timer) (s : session) : session :=
  Session (store s) (data s) (wall s) (clock s) (f (timers s)) (sockets s)
          (socketRef s) (connectionStatus s) (delivered s).

Definition with_sockets (f : list socket -> list socket) (s : session) : session :=
  Session (store s) (data s) (wall s) (clock s) (timers s) (f (sockets s))
          (socketRef s) (connectionStatus s) (delivered s).

Definition with_status (c : connection) (s : session) : session :=
  Session (store s) (data s) (wall s) (clock s) (timers s) (sockets s)
          (socketRef s) c (delivered s).

Definition with_ref (r : option nat) (s : session) : session :=
  Session (store s) (data s) (wall s) (clock s) (timers s) (sockets s)
          r (connectionStatus s) (delivered s).

(** [setTimeout(cb, delay)] and [setInterval(cb, period)]: the new timer's
    identifier and the session that holds it. *)
Definition setTimeout (cb : callback) (delay : nat) (s : session) : nat * session :=
  (length (timers s),
   with_timers (fun ts => ts ++ [Timer (clock s + delay) None cb true]) s).

Definition setInterval (cb : callback) (period : nat) (s : session) : nat * session :=
  (length (timers s),
   with_timers (fun ts => ts ++ [Timer (clock s + period) (Some period) cb true]) s).

Definition clearInterval (id : nat) (s : session) : session :=
  with_timers (alter (fun t => Timer (due t) (every t) (action t) false) id) s.

(** [new MockWebSocket(url)]: the connection timer is started and its
    identifier is not kept. *)
Definition new_MockWebSocket (s : session) : nat * session :=
  let ws := length (sockets s) in
  let s1 := with_sockets (fun ss => ss ++ [Socket false None None]) s in
  (ws, snd (setTimeout (Connect ws) 300 s1)).

(** [startStream()] *)
Definition startStream (ws : nat) (s : session) : session :=
  let '(id, s1) := setInterval (Stream ws) 1000 s in
  with_sockets
    (alter (fun k => Socket (onopen k) (onmessage k) (Some id)) ws) s1.

(** [close()]: cancels the interval if there is one; [onclose] is [null]. *)
Definition close (ws : nat) (s : session) : session :=
  match sockets s !! ws with
  | Some k =>
      match intervalId k with
      | Some id => clearInterval id s
      | None => s
      end
  | None => s
  end.

(** The change a tick carries. *)
Definition tick_change (r : float) : float := ((r - 0.5) * 0.004)%float.

(** The number the handler reads back from
    [JSON.parse(JSON.stringify({ type: 'TICK', change }))]: a finite number
    is printed in the round-tripping shortest form ([-0] as [0]); [NaN] and
    the infinities are printed as [null], which the handler's only use,
    [1 + change], counts as [0]. *)
Definition JSON_roundtrip (x : float) : float :=
  if PrimFloat.is_finite x && negb (PrimFloat.is_zero x) then x else 0%float.

(** The interval callback with a handler installed: a change is drawn
    and sent as a message, and the handler replaces the series by what
    [tick_update] returns.  ([Math.random()] does not throw.) *)
Definition deliver (comparisons : list string) (s : session) : session :=
  match Math_random (store s) with
  | (Normal r, w1) =>
      let change := JSON_roundtrip (tick_change r) in
      let '(res, w2) := tick_update comparisons change (wall s (clock s)) (data s) w1 in
      Session w2 (match res with Normal d => d | Throw _ => data s end)
              (wall s) (clock s) (timers s) (sockets s) (socketRef s)
              (connectionStatus s) (delivered s ++ [(clock s, change)])
  | (Throw _, _) => s
  end.

(** What a timer's callback does. *)
Definition run_callback (cb : callback) (s : session) : session :=
  match cb with
  | Connect ws =>
      let s1 :=
        match sockets s !! ws with
        | Some k => if onopen k then with_status CONNECTED s else s
        | None => s
        end in
      startStream ws s1
  | Stream ws =>
      match sockets s !! ws with
      | Some k =>
          match onmessage k with
          | Some comparisons => deliver comparisons s
          | None => s
          end
      | None => s
      end
  end.

(** The host fires the timer [id] if it is alive and due now: a timeout
    is spent, an interval is set to its next date, and the callback runs. *)
Definition fire (id : nat) (s : session) : session :=
  match timers s !! id with
  | Some t =>
      if alive t && (due t =? clock s)%nat then
        let t' :=
          match every t with
          | Some period => Timer (due t + period) (every t) (action t) true
          | None => Timer (due t) None (action t) false
          end in
        run_callback (action t) (with_timers (fun ts => <[id := t']> ts) s)
      else s
  | None => s
  end.

(** One millisecond passes. *)
Definition pass_ms (s : session) : session :=
  let s1 := Session (store s) (data s) (wall s) (S (clock s)) (timers s) (sockets s)
                    (socketRef s) (connectionStatus s) (delivered s) in
  fold_left (fun acc id => fire id acc) (seq 0 (length (timers s1))) s1.

(** [n] milliseconds pass. *)
Definition elapse (n : nat) (s : session) : session := Nat.iter n pass_ms s.

(** The component's effect for [isLive], and its cleanup. *)
Definition effect (isLive : bool) (comparisons : list string) (s : session) : session :=
  if isLive then
    let s1 := with_status CONNECTING s in
    let '(ws, s2) := new_MockWebSocket s1 in
    let s3 := with_sockets (alter (fun k => Socket true (onmessage k) (intervalId k)) ws) s2 in
    let s4 := with_sockets
                (alter (fun k => Socket (onopen k) (Some comparisons) (intervalId k)) ws) s3 in
    with_ref (Some ws) s4
  else
    let s1 :=
      match socketRef s with
      | Some ws => with_ref None (close ws s)
      | None => s
      end in
    with_status DISCONNECTED s1.

Definition cleanup (s : session) : session :=
  match socketRef s with
  | Some ws => close ws s
  | None => s
  end.

(** Starting the live feed: [isLive] becomes true and the effect runs.
    Stopping it: the previous effect is cleaned up and the effect runs
    with [isLive] false. *)
Definition start (comparisons : list string) (s : session) : session :=
  effect true comparisons (cleanup s).

Definition stop (comparisons : list string) (s : session) : session :=
  effect false comparisons (cleanup s).

(** A fresh view on a series: nothing started yet. *)
Definition mount (w : world) (series : loc) (wall : nat -> string) : session :=
  Session w series wall 0 [] [] None DISCONNECTED [].

(** ** The comparison series on a tick *)

(** A series of one point whose value is 0. *)
Definition worthless : world := Examples.series_world [Examples.point "d1" (PNum 0)].

(** The claim C10 as stated fails for two kinds of names.  The last point
    of the first series has no property [toString], yet a comparison of
    that name puts one on the new point: what the handler reads is the
    function every object inherits, which is truthy and no number.  And
    the last value of the second series is 0, yet with a comparison named
    [value] the new point has its [value] all the same. *)
Lemma comparison_set_without_truthy_last :
  (objs Examples.three !!! 2) !! "toString" = None /\
  (objs (snd (tick_update ["toString"] 0.001 "now" 0 Examples.three)) !!! 3) !! "toString"
  = Some (PNum JsNumber.NaN) /\
  (objs worthless !!! 0) !! "value" = Some (PNum 0) /\
  (objs (snd (tick_update ["value"] 0.001 "now" 0 worthless)) !!! 1) !! "value"
  = Some (PNum 0).
Proof. repeat split; vm_compute; reflexivity. Qed.

(** C10, amended. On a tick, for a comparison name other than "date" and
    "value" (which every new point has), the property is put on the new
    point exactly when what the last point gives under that name is
    truthy, and its value is then a number.  For a name that
    [Object.prototype] does not define, a last value of [0] or [NaN],
    like a missing one, leaves the property out of the new point (and of
    the record stored for it).  For a name that [Object.prototype]
    defines ([toString], [constructor], ...), an own value of [0] or
    [NaN] leaves it out as well, but a missing one reads as the inherited
    member, which is truthy: the new point gets the property with the
    value [NaN]; only under [__proto__] nothing is stored. *)
Theorem comparison_needs_truthy_last
    (w : world) (data : loc) (comparisons : list string)
    (change : float) (now : string) :
  series_ok w (arrs w !!! data) ->
  arrs w !!! data <> [] ->
  exists l pt rec data' w',
    tick_update comparisons change now data w = (Normal data', w') /\
    last (arrs w !!! data) = Some (ERef l) /\
    objs w' !! length (objs w) = Some pt /\
    last (records w' data') = Some rec /\
    is_Some (pt !! "date") /\ is_Some (pt !! "value") /\
    pt !! "__proto__" = None /\
    (forall comp,
       comp ∈ comparisons -> comp <> "date" -> comp <> "value" ->
       (ToBoolean_member (Get (objs w !!! l) comp) = false ->
        pt !! comp = None /\ (comp <> "sma" -> comp <> "rsi" -> rec !! comp = None)) /\
       (ToBoolean_member (Get (objs w !!! l) comp) = true -> comp <> "__proto__" ->
        exists x, pt !! comp = Some (PNum x)) /\
       ((objs w !!! l) !! comp = Some (PNum 0) \/
        (objs w !!! l) !! comp = Some (PNum JsNumber.NaN) ->
        pt !! comp = None) /\
       (comp ∉ Object_prototype -> (objs w !!! l) !! comp = None ->
        pt !! comp = None) /\
       (comp ∈ Object_prototype -> (objs w !!! l) !! comp = None ->
        comp <> "__proto__" ->
        pt !! comp = Some (PNum JsNumber.NaN))).
Proof.
  intros Hok Hne.
  destruct (tick_step w data comparisons change now Hok Hne)
    as (l & data' & w' & pt & Hlast & _ & Hpt & Hrun & _ & _ & _ & Hobj & _ & rec & Hrec & Hsame).
  exists l, pt, rec, data', w'.
  split; [exact Hrun|]. split; [exact Hlast|]. split; [exact Hobj|].
  split; [exact Hrec|].
  split; [rewrite Hpt; apply comp_fold_keeps; unfold base_point;
          rewrite lookup_insert_ne by discriminate; rewrite lookup_insert_eq; eauto|].
  split; [rewrite Hpt; apply comp_fold_keeps; unfold base_point;
          rewrite lookup_insert_eq; eauto|].
  split; [rewrite Hpt; apply comp_fold_proto; unfold base_point;
          rewrite !lookup_insert_ne by discriminate; apply lookup_empty|].
  intros comp Hin Hdate Hvalue.
  assert (Hfalsy : ToBoolean_member (Get (objs w !!! l) comp) = false ->
                   pt !! comp = None).
  { intros Hf. rewrite Hpt. unfold new_point.
    rewrite comp_fold_falsy by exact Hf. unfold base_point.
    rewrite !lookup_insert_ne by congruence. apply lookup_empty. }
  assert (Htruthy : ToBoolean_member (Get (objs w !!! l) comp) = true ->
                    comp <> "__proto__" ->
                    exists r, pt !! comp
                              = Some (PNum (member_price (Get (objs w !!! l) comp) r))).
  { intros Ht Hproto.
    destruct (list_elem_of_split_r _ _ Hin) as (pre & post & -> & Hpost).
    rewrite Hpt. unfold new_point.
    rewrite (comp_fold_truthy _ _ pre comp post _ _ Hpost Hproto Ht). eauto. }
  split; [|split; [|split; [|split]]].
  - intros Hf. split; [exact (Hfalsy Hf)|].
    intros Hsma Hrsi. rewrite (Hsame comp Hsma Hrsi). exact (Hfalsy Hf).
  - intros Ht Hproto. destruct (Htruthy Ht Hproto) as (r & Hr). eauto.
  - intros [H|H]; apply Hfalsy; unfold Get; rewrite H; reflexivity.
  - intros Hno H. apply Hfalsy. rewrite Get_own by exact Hno. rewrite H. reflexivity.
  - intros Hyes H Hproto. rewrite (Get_inherited _ _ Hyes H) in Htruthy.
    destruct (Htruthy eq_refl Hproto) as (r & Hr).
    rewrite Hr, member_price_builtin. reflexivity.
Qed.

Lemma comparison_needs_truthy_last_witness :
  series_ok Examples.three (arrs Examples.three !!! 0) /\
  arrs Examples.three !!! 0 <> [] /\
  exists pt w',
    snd (tick_update ["AAPL"] 0.001 "now" 0 Examples.three) = w' /\
    objs w' !! 3 = Some pt /\
    pt !! "AAPL" = None.
Proof.
  assert (Hok : series_ok Examples.three (arrs Examples.three !!! 0)).
  { change (arrs Examples.three !!! 0) with (fresh_refs 0 3).
    apply series_ok_fresh. simpl. lia. }
  assert (Hne : arrs Examples.three !!! 0 <> []) by discriminate.
  split; [exact Hok|]. split; [exact Hne|].
  destruct (comparison_needs_truthy_last Examples.three 0 ["AAPL"] 0.001 "now" Hok Hne)
    as (l & pt & rec & data' & w' & Hrun & Hlast & Hobj & _ & _ & _ & _ & Hcomp).
  exists pt, w'. rewrite Hrun. split; [reflexivity|]. split; [exact Hobj|].
  destruct (Hcomp "AAPL") as (_ & _ & _ & Habsent & _);
    [apply list_elem_of_singleton; reflexivity|discriminate|discriminate|].
  apply Habsent; [not_inherited|].
  assert (l = 2) as -> by (vm_compute in Hlast; congruence).
  vm_compute. reflexivity.
Defined.

(** ** The price on a tick *)









(** ** Stopping the feed *)







Lemma deliver_frame comparisons s :
  timers (deliver comparisons s) = timers s /\
  sockets (deliver comparisons s) = sockets s /\
  socketRef (deliver comparisons s) = socketRef s /\
  clock (deliver comparisons s) = clock s /\
  connectionStatus (deliver comparisons s) = connectionStatus s.
Proof.
  unfold deliver. destruct (Math_random (store s)) as [[r|e] w1]; [|repeat split].
  destruct (tick_update _ _ _ _ w1) as [res w2]. repeat split.
Qed.








(** C2 fails on the code: a session stopped while it is still connecting
    (here 100 ms after the start) has no timer it could cancel, the
    connection timer fires at 300 ms all the same, and ticks are delivered
    at 1300 ms and 2300 ms, with the status back to [CONNECTED]. *)
Theorem stop_while_connecting_leaks_ticks :
  let stopped :=
    stop [] (elapse 100 (start [] (mount Examples.three 0 (fun t => pretty t)))) in
  connectionStatus stopped = DISCONNECTED /\
  socketRef stopped = None /\
  delivered stopped = [] /\
  map fst (delivered (elapse 2300 stopped)) = [1300; 2300] /\
  connectionStatus (elapse 2300 stopped) = CONNECTED /\
  column "date" (records (store (elapse 2300 stopped)) (data (elapse 2300 stopped)))
  = [Some (PStr "d1"); Some (PStr "d2"); Some (PStr "d3");
     Some (PStr "1300"); Some (PStr "2300")].
Proof. cbv zeta. repeat split; vm_compute; reflexivity. Qed.

(** * Further properties of the component

    The rest of this file covers what the code around the indicator
    engine and the feed does: the other properties of a point, series the
    feed cannot move, the schedule of the simulated socket, and the lists
    the component keeps (comparisons, hidden series, watchlist, alerts,
    history). *)

(** ** What the engine does to the other properties of a point *)

(** X1. Every record the engine returns has a [value], an [sma] and an
    [rsi] property, and every other property of the input point (its
    date, the values of its comparison series) is copied unchanged. *)
Theorem enrich_keeps_other_properties (w : world) (a : loc) :
  all_have_properties (arrs w !!! a) ->
  refs_allocated w (arrs w !!! a) ->
  exists out,
    enrich_output w a = Some out /\
    length out = length (arrs w !!! a) /\
    forall i item o,
      (arrs w !!! a) !! i = Some item ->
      out !! i = Some o ->
      is_Some (o !! "value") /\ is_Some (o !! "sma") /\ is_Some (o !! "rsi") /\
      forall k, k <> "value" -> k <> "sma" -> k <> "rsi" ->
                o !! k = own_fields w item !! k.
Proof.
  intros Hn Hwf. rewrite (enrich_output_eq w a Hn Hwf).
  eexists. split; [reflexivity|]. split; [apply output_length|].
  intros i item o Hitem Ho.
  destruct (output_lookup _ _ _ _ Ho) as (item' & Hitem' & ->).
  assert (item' = item) as -> by congruence.
  rewrite decorate_value, decorate_sma, decorate_rsi, copy_obj_value.
  split; [eauto|]. split; [eauto|]. split; [eauto|].
  intros k Hv Hs Hr. rewrite decorate_other by assumption.
  unfold copy_obj. apply lookup_insert_ne. congruence.
Qed.

Lemma enrich_keeps_other_properties_witness :
  all_have_properties (arrs Examples.three !!! 0) /\
  refs_allocated Examples.three (arrs Examples.three !!! 0) /\
  exists out o,
    enrich_output Examples.three 0 = Some out /\
    out !! 1 = Some o /\
    o !! "date" = Some (PStr "d2").
Proof.
  split; [apply Examples.series_have_properties|].
  split; [apply Examples.series_allocated|].
  destruct (enrich_keeps_other_properties Examples.three 0
              (Examples.series_have_properties _) (Examples.series_allocated _))
    as (out & Hout & Hlen & Hfields).
  destruct (lookup_lt_is_Some_2 out 1) as [o Ho]; [rewrite Hlen; simpl; lia|].
  exists out, o. split; [exact Hout|]. split; [exact Ho|].
  destruct (Hfields 1 (ERef 1) o eq_refl Ho) as (_ & _ & _ & Hk).
  rewrite Hk by discriminate. reflexivity.
Defined.

(** ** Series that the feed cannot move *)

Lemma records_last w data l :
  last (arrs w !!! data) = Some (ERef l) ->
  last (records w data) = Some (objs w !!! l).
Proof. intros H. unfold records. rewrite fmap_last, H. reflexivity. Qed.

Lemma slide_all_cons {A} (init : list A) x xs :
  slide_all init (x :: xs) = slide_all (slide (init ++ [x])) xs.
Proof. reflexivity. Qed.

(** The property [k] of the last record is falsy. *)
Definition last_falsy (w : world) (data : loc) (k : string) : Prop :=
  forall r, last (records w data) = Some r ->
            ToBoolean (default PUndefined (r !! k)) = false.

Lemma run_ticks_falsy comparisons comp ticks : forall w data,
  series_ok w (arrs w !!! data) ->
  arrs w !!! data <> [] ->
  comp <> "date" -> comp <> "value" -> comp <> "sma" -> comp <> "rsi" ->
  comp ∉ Object_prototype ->
  last_falsy w data comp ->
  exists data' w',
    run_ticks comparisons ticks data w = (Normal data', w') /\
    column comp (records w' data')
    = slide_all (column comp (records w data)) (replicate (length ticks) None).
Proof.
  induction ticks as [|[change now] rest IH]; intros w data Hok Hne Hd Hv Hs Hr Hno Hfalsy.
  - exists data, w. split; reflexivity.
  - destruct (tick_step w data comparisons change now Hok Hne)
      as (l & data1 & w1 & pt & Hlast & _ & Hpt & Hrun & Hok1 & Hne1 & _ & _ & Hcol1 & Hlast1).
    assert (Hnone : pt !! comp = None).
    { rewrite Hpt. unfold new_point. rewrite comp_fold_falsy.
      - unfold base_point. rewrite !lookup_insert_ne by congruence. apply lookup_empty.
      - rewrite Get_own by exact Hno. cbn [ToBoolean_member].
        apply Hfalsy. apply records_last. exact Hlast. }
    destruct (IH w1 data1 Hok1 Hne1 Hd Hv Hs Hr Hno) as (data' & w' & Hrun' & Hcol').
    { intros r Hr1. destruct Hlast1 as (r1 & Hr1' & Hsame).
      assert (r = r1) as -> by congruence.
      rewrite (Hsame comp) by assumption. rewrite Hnone. reflexivity. }
    exists data', w'. simpl run_ticks. rewrite (bind_normal _ _ _ _ _ Hrun).
    split; [exact Hrun'|]. rewrite Hcol'. rewrite (Hcol1 comp) by assumption.
    rewrite Hnone. reflexivity.
Qed.

(** X2. A comparison series that has no value, or a falsy one (0, NaN,
    an empty string), on the last point of the series when the feed starts
    never moves: however many messages arrive, every point they append
    lacks that property.  This holds for every name other than those of
    a point's own properties and of the members of [Object.prototype]
    ([toString], [constructor], ...), which every point inherits. *)
Theorem comparison_off_stays_off (w : world) (data : loc)
    (comparisons : list string) (comp : string) (ticks : list (float * string)) :
  series_ok w (arrs w !!! data) ->
  arrs w !!! data <> [] ->
  comp <> "date" -> comp <> "value" -> comp <> "sma" -> comp <> "rsi" ->
  comp ∉ Object_prototype ->
  last_falsy w data comp ->
  exists out,
    series_after comparisons ticks data w = Some out /\
    column comp out
    = slide_all (column comp (records w data)) (replicate (length ticks) None).
Proof.
  intros Hok Hne Hd Hv Hs Hr Hno Hfalsy.
  destruct (run_ticks_falsy comparisons comp ticks w data Hok Hne Hd Hv Hs Hr Hno Hfalsy)
    as (data' & w' & Hrun & Hcol).
  exists (records w' data'). unfold series_after. rewrite Hrun.
  split; [reflexivity|exact Hcol].
Qed.

Lemma comparison_off_stays_off_witness :
  series_ok Examples.three (arrs Examples.three !!! 0) /\
  arrs Examples.three !!! 0 <> [] /\
  last_falsy Examples.three 0 "AAPL" /\
  exists out,
    series_after ["AAPL"] [(0.001%float, "t1"); (0.001%float, "t2")] 0 Examples.three
    = Some out /\
    column "AAPL" out = [None; None; None; None; None].
Proof.
  assert (Hok : series_ok Examples.three (arrs Examples.three !!! 0)).
  { change (arrs Examples.three !!! 0) with (fresh_refs 0 3).
    apply series_ok_fresh. simpl. lia. }
  assert (Hne : arrs Examples.three !!! 0 <> []) by discriminate.
  assert (Hf : last_falsy Examples.three 0 "AAPL").
  { intros r Hr.
    assert (Hl : last (records Examples.three 0) = Some (Examples.point "d3" (PNum 101)))
      by (vm_compute; reflexivity).
    rewrite Hl in Hr. injection Hr as <-. vm_compute. reflexivity. }
  split; [exact Hok|]. split; [exact Hne|]. split; [exact Hf|].
  destruct (comparison_off_stays_off Examples.three 0 ["AAPL"] "AAPL"
              [(0.001%float, "t1"); (0.001%float, "t2")] Hok Hne
              ltac:(discriminate) ltac:(discriminate) ltac:(discriminate)
              ltac:(discriminate) ltac:(not_inherited) Hf) as (out & Hout & Hcol).
  exists out. split; [exact Hout|]. rewrite Hcol. vm_compute. reflexivity.
Defined.

(** A price computed from a last value that is not a number. *)
Lemma price_of_nan c y :
  JsNumber.isNaN (ToNumber c) = true ->
  JsNumber.toFixed2 (ToNumber c * y)%float = JsNumber.NaN.
Proof.
  intros H. rewrite (FloatFacts.is_nan_eq _ H), mul_nan_l. reflexivity.
Qed.

(** The number under [value] is [NaN]. *)
Definition value_is_nan (o : obj) : Prop :=
  exists y, o !! "value" = Some (PNum y) /\ JsNumber.isNaN y = true.

Lemma comp_fold_nan last source comparisons : forall o d,
  JsNumber.isNaN (value_of last) = true ->
  value_is_nan o ->
  value_is_nan (fst (fold_left (comp_step last source) comparisons (o, d))).
Proof.
  induction comparisons as [|comp rest IH]; intros o d Hlast Ho; [exact Ho|].
  simpl. unfold comp_step at 2. simpl.
  destruct (ToBoolean_member (Get last comp)); [|apply IH; assumption].
  apply IH; [exact Hlast|]. destruct (decide (comp = "value")) as [->|Hne].
  - exists JsNumber.NaN. rewrite assign_number_eq by discriminate.
    rewrite lookup_insert_eq. unfold member_price.
    rewrite Get_own by not_inherited.
    cbn [ToNumber_member]. unfold value_of in Hlast.
    rewrite (price_of_nan _ _ Hlast). split; reflexivity.
  - destruct Ho as (y & Hy & Hnan). exists y.
    rewrite assign_number_ne by congruence. split; assumption.
Qed.

Lemma new_point_nan last source d comparisons change now :
  JsNumber.isNaN (value_of last) = true ->
  value_is_nan (fst (new_point last source d comparisons change now)).
Proof.
  intros Hlast. unfold new_point. apply comp_fold_nan; [exact Hlast|].
  exists JsNumber.NaN. unfold base_point. rewrite lookup_insert_eq.
  unfold value_of in Hlast. rewrite (price_of_nan _ _ Hlast). split; reflexivity.
Qed.

Lemma run_ticks_nan comparisons ticks : forall w data,
  series_ok w (arrs w !!! data) ->
  arrs w !!! data <> [] ->
  (exists r, last (records w data) = Some r /\ JsNumber.isNaN (value_of r) = true) ->
  exists data' w' r,
    run_ticks comparisons ticks data w = (Normal data', w') /\
    last (records w' data') = Some r /\
    JsNumber.isNaN (value_of r) = true.
Proof.
  induction ticks as [|[change now] rest IH]; intros w data Hok Hne (r & Hr & Hnan).
  - exists data, w, r. split; [reflexivity|]. split; assumption.
  - destruct (tick_step w data comparisons change now Hok Hne)
      as (l & data1 & w1 & pt & Hlast & _ & Hpt & Hrun & Hok1 & Hne1 & _ & _ & _ & Hlast1).
    rewrite (records_last _ _ _ Hlast) in Hr. injection Hr as <-.
    destruct (new_point_nan (objs w !!! l) (entropy w) (draws w) comparisons change now Hnan)
      as (y & Hy & Hynan).
    rewrite <- Hpt in Hy.
    destruct Hlast1 as (r1 & Hr1 & Hsame).
    destruct (IH w1 data1 Hok1 Hne1) as (data' & w' & r' & Hrun' & Hr' & Hnan').
    { exists r1. split; [exact Hr1|]. unfold value_of.
      rewrite (Hsame "value") by discriminate. rewrite Hy. exact Hynan. }
    exists data', w', r'. simpl run_ticks. rewrite (bind_normal _ _ _ _ _ Hrun).
    split; [exact Hrun'|]. split; assumption.
Qed.

(** X3. A series whose last value is not a number cannot be revived by
    the feed: after any number of messages the last point's value is still
    [NaN], whatever the changes and the comparison list. *)
Theorem nan_price_stays_nan (w : world) (data : loc)
    (comparisons : list string) (ticks : list (float * string)) :
  series_ok w (arrs w !!! data) ->
  arrs w !!! data <> [] ->
  (exists r, last (records w data) = Some r /\ JsNumber.isNaN (value_of r) = true) ->
  exists out r,
    series_after comparisons ticks data w = Some out /\
    last out = Some r /\
    JsNumber.isNaN (value_of r) = true.
Proof.
  intros Hok Hne Hnan.
  destruct (run_ticks_nan comparisons ticks w data Hok Hne Hnan)
    as (data' & w' & r & Hrun & Hr & Hrn).
  exists (records w' data'), r. unfold series_after. rewrite Hrun.
  split; [reflexivity|]. split; assumption.
Qed.

(** One point whose value is not a number. *)
Definition not_a_number : world :=
  Examples.series_world [Examples.point "d1" (PStr "N/A")].

Lemma nan_price_stays_nan_witness :
  series_ok not_a_number (arrs not_a_number !!! 0) /\
  arrs not_a_number !!! 0 <> [] /\
  exists out r,
    series_after [] [(0.001%float, "t1"); (0.001%float, "t2")] 0 not_a_number = Some out /\
    last out = Some r /\
    JsNumber.isNaN (value_of r) = true.
Proof.
  assert (Hok : series_ok not_a_number (arrs not_a_number !!! 0)).
  { change (arrs not_a_number !!! 0) with (fresh_refs 0 1).
    apply series_ok_fresh. simpl. lia. }
  assert (Hne : arrs not_a_number !!! 0 <> []) by discriminate.
  split; [exact Hok|]. split; [exact Hne|].
  apply (nan_price_stays_nan not_a_number 0 [] _ Hok Hne).
  eexists. split; reflexivity.
Defined.

(** ** The schedule of the feed *)

(** For a socket created at time [b]: the first moment after [c] at which
    its stream is due, and the moments up to [c] at which it has fired. *)
Definition next_tick (b c : nat) : nat :=
  b + 300 + 1000 + 1000 * ((c - (b + 300)) / 1000).

Definition tick_times (b c : nat) : list nat :=
  map (fun k => b + 300 + 1000 + 1000 * k) (seq 0 ((c - (b + 300)) / 1000)).

(** A timer that will not fire any more. *)
Definition spent (t : timer) : Prop := alive t = false.

(** A session whose newest socket, created at [b] after the sockets [old]
    and the timers [dead], waits for its connection timer, and one whose
    newest socket is streaming; the older timers are all spent.  The
    status and [socketRef] are left out: they differ between a session
    that is live and one that was stopped in the meantime. *)
Definition pending (b : nat) (comparisons : list string)
    (old : list socket) (dead : list timer) (s : session) : Prop :=
  sockets s = old ++ [Socket true (Some comparisons) None] /\
  timers s = dead ++ [Timer (b + 300) None (Connect (length old)) true] /\
  Forall spent dead /\
  clock s < b + 300.

Definition streaming (b : nat) (comparisons : list string)
    (old : list socket) (dead : list timer) (s : session) : Prop :=
  sockets s = old ++ [Socket true (Some comparisons) (Some (S (length dead)))] /\
  timers s = dead ++ [Timer (b + 300) None (Connect (length old)) false;
                      Timer (next_tick b (clock s)) (Some 1000) (Stream (length old)) true] /\
  Forall spent dead /\
  b + 300 <= clock s.

(** An interval of period [p] started at [b]: its next date after [c] and
    the dates up to [c], one millisecond later. *)
Lemma interval_step (b p c : nat) :
  0 < p -> b <= c ->
  let next x := b + p + p * ((x - b) / p) in
  let times x := map (fun k => b + p + p * k) (seq 0 ((x - b) / p)) in
  c < next c /\
  next (S c) = (if (next c =? S c)%nat then next c + p else next c) /\
  times (S c) = times c ++ (if (next c =? S c)%nat then [S c] else []).
Proof.
  intros Hp Hc next times. unfold next, times.
  pose proof (Nat.div_mod_eq (c - b) p) as Hd.
  pose proof (Nat.mod_upper_bound (c - b) p ltac:(lia)) as Hm.
  set (q := (c - b) / p) in *. set (r := (c - b) mod p) in *.
  split; [nia|].
  destruct (Nat.eqb_spec (b + p + p * q) (S c)) as [Heq|Hne].
  - assert (Hq : (S c - b) / p = S q).
    { symmetry. apply (Nat.div_unique _ _ _ 0); nia. }
    rewrite Hq. split; [nia|].
    rewrite seq_S, map_app. cbn [map]. rewrite Nat.add_0_l, Heq. reflexivity.
  - assert (Hq : (S c - b) / p = q).
    { symmetry. apply (Nat.div_unique _ _ _ (S r)); nia. }
    rewrite Hq. split; [reflexivity|]. rewrite app_nil_r. reflexivity.
Qed.

Lemma next_tick_step b c :
  b + 300 <= c ->
  c < next_tick b c /\
  next_tick b (S c)
  = (if (next_tick b c =? S c)%nat then next_tick b c + 1000 else next_tick b c) /\
  tick_times b (S c)
  = tick_times b c ++ (if (next_tick b c =? S c)%nat then [S c] else []).
Proof. intros Hc. exact (interval_step (b + 300) 1000 c ltac:(lia) Hc). Qed.

Lemma tick_times_early b c : c < b + 300 + 1000 -> tick_times b c = [].
Proof.
  intros Hc. unfold tick_times. rewrite Nat.div_small by lia. reflexivity.
Qed.

Lemma next_tick_first b : next_tick b (b + 300) = b + 300 + 1000.
Proof.
  unfold next_tick. rewrite Nat.sub_diag, Nat.Div0.div_0_l. lia.
Qed.

Lemma deliver_log comparisons s :
  map fst (delivered (deliver comparisons s)) = map fst (delivered s) ++ [clock s].
Proof.
  unfold deliver. destruct (Math_random (store s)) as [[r|e] w1] eqn:Hr.
  - destruct (tick_update _ _ _ _ w1) as [res w2]. simpl.
    rewrite map_app. reflexivity.
  - discriminate.
Qed.

(** Spent timers do nothing. *)
Lemma fire_spent id s :
  (forall t, timers s !! id = Some t -> spent t) -> fire id s = s.
Proof.
  intros H. unfold fire. destruct (timers s !! id) as [t|] eqn:Ht; [|reflexivity].
  rewrite (H t eq_refl). reflexivity.
Qed.

Lemma fire_all_spent ids : forall s,
  (forall id t, id ∈ ids -> timers s !! id = Some t -> spent t) ->
  fold_left (fun acc id => fire id acc) ids s = s.
Proof.
  induction ids as [|id ids IH]; intros s H; [reflexivity|].
  simpl. rewrite fire_spent.
  - apply IH. intros id' t Hin. apply H. right. exact Hin.
  - intros t. apply H. left.
Qed.

(** One millisecond of a session whose only live timer is the last one:
    the spent ones are skipped and the last one is tried. *)
Lemma pass_last s dead t :
  timers s = dead ++ [t] ->
  Forall spent dead ->
  pass_ms s
  = fire (length dead)
      (Session (store s) (data s) (wall s) (S (clock s)) (timers s) (sockets s)
               (socketRef s) (connectionStatus s) (delivered s)).
Proof.
  intros Ht Hdead. unfold pass_ms. cbn [timers].
  rewrite Ht, length_app. cbn [length]. rewrite seq_app, fold_left_app. cbn [seq fold_left].
  rewrite fire_all_spent; [rewrite Nat.add_0_l, <- Ht; reflexivity|].
  intros id t' Hin Hl. cbn [timers] in Hl. apply elem_of_seq in Hin.
  rewrite lookup_app_l in Hl by lia.
  exact (proj1 (Forall_lookup _ _) Hdead id t' Hl).
Qed.

Lemma fire_due id s t :
  timers s !! id = Some t -> alive t = true -> due t = clock s ->
  fire id s
  = run_callback (action t)
      (with_timers
         (fun ts => <[id := match every t with
                            | Some period => Timer (due t + period) (every t) (action t) true
                            | None => Timer (due t) None (action t) false
                            end]> ts) s).
Proof.
  intros Ht Ha Hd. unfold fire. rewrite Ht, Ha, Hd, Nat.eqb_refl. reflexivity.
Qed.

Lemma fire_not_due id s t :
  timers s !! id = Some t -> due t <> clock s -> fire id s = s.
Proof.
  intros Ht Hd. unfold fire. rewrite Ht.
  destruct (Nat.eqb_spec (due t) (clock s)) as [|_]; [contradiction|].
  rewrite andb_false_r. reflexivity.
Qed.

Lemma run_connect ws s k :
  sockets s !! ws = Some k -> onopen k = true ->
  run_callback (Connect ws) s = startStream ws (with_status CONNECTED s).
Proof. intros Hk Ho. unfold run_callback. rewrite Hk, Ho. reflexivity. Qed.

Lemma run_stream ws s k comparisons :
  sockets s !! ws = Some k -> onmessage k = Some comparisons ->
  run_callback (Stream ws) s = deliver comparisons s.
Proof. intros Hk Ho. unfold run_callback. rewrite Hk, Ho. reflexivity. Qed.

Lemma startStream_eq ws s :
  startStream ws s
  = Session (store s) (data s) (wall s) (clock s)
            (timers s ++ [Timer (clock s + 1000) (Some 1000) (Stream ws) true])
            (alter (fun k => Socket (onopen k) (onmessage k) (Some (length (timers s)))) ws
                   (sockets s))
            (socketRef s) (connectionStatus s) (delivered s).
Proof. reflexivity. Qed.

Lemma pass_pending b comparisons s old dead :
  sockets s = old ++ [Socket true (Some comparisons) None] ->
  timers s = dead ++ [Timer (b + 300) None (Connect (length old)) true] ->
  Forall spent dead ->
  clock s < b + 300 ->
  clock (pass_ms s) = S (clock s) /\
  socketRef (pass_ms s) = socketRef s /\
  delivered (pass_ms s) = delivered s /\
  (S (clock s) < b + 300 ->
     sockets (pass_ms s) = sockets s /\ timers (pass_ms s) = timers s /\
     connectionStatus (pass_ms s) = connectionStatus s) /\
  (S (clock s) = b + 300 ->
     sockets (pass_ms s)
     = old ++ [Socket true (Some comparisons)
                      (Some (length (dead ++ [Timer (b + 300) None (Connect (length old)) false])))] /\
     timers (pass_ms s)
     = (dead ++ [Timer (b + 300) None (Connect (length old)) false])
         ++ [Timer (S (clock s) + 1000) (Some 1000) (Stream (length old)) true] /\
     connectionStatus (pass_ms s) = CONNECTED).
Proof.
  intros Hs Ht Hdead Hc. rewrite (pass_last s dead _ Ht Hdead).
  set (s1 := Session _ _ _ _ _ _ _ _ _).
  assert (Hlook : timers s1 !! length dead
                  = Some (Timer (b + 300) None (Connect (length old)) true)).
  { unfold s1. cbn [timers]. rewrite Ht. apply list_lookup_middle. reflexivity. }
  destruct (decide (b + 300 = S (clock s))) as [Heq|Hneq].
  - rewrite (fire_due _ _ _ Hlook eq_refl Heq). cbn [action every due].
    set (s2 := with_timers _ s1).
    assert (Hsock : sockets s2 !! length old = Some (Socket true (Some comparisons) None)).
    { unfold s2, s1. cbn [with_timers sockets]. rewrite Hs.
      apply list_lookup_middle. reflexivity. }
    rewrite (run_connect _ _ _ Hsock eq_refl), startStream_eq.
    cbn [clock socketRef delivered connectionStatus sockets timers with_status].
    unfold s2, s1.
    cbn [clock socketRef delivered connectionStatus sockets timers with_timers].
    rewrite Hs, Ht.
    rewrite insert_app_r_alt, Nat.sub_diag by lia.
    rewrite alter_app_r_alt, Nat.sub_diag by lia.
    cbn [alter list_alter insert list_insert onopen onmessage].
    split; [reflexivity|]. split; [reflexivity|]. split; [reflexivity|].
    split; [intros; lia|]. intros _. split; [reflexivity|]. split; reflexivity.
  - rewrite (fire_not_due _ _ _ Hlook) by (cbn [due]; exact Hneq).
    split; [reflexivity|]. split; [reflexivity|]. split; [reflexivity|].
    split; [|intros; lia]. intros _. split; [reflexivity|]. split; reflexivity.
Qed.

Lemma pass_due comparisons s old dead d iv :
  sockets s = old ++ [Socket true (Some comparisons) iv] ->
  timers s = dead ++ [Timer d (Some 1000) (Stream (length old)) true] ->
  Forall spent dead ->
  clock s < d ->
  sockets (pass_ms s) = sockets s /\
  timers (pass_ms s)
  = dead ++ [Timer (if (d =? S (clock s))%nat then d + 1000 else d)
                   (Some 1000) (Stream (length old)) true] /\
  clock (pass_ms s) = S (clock s) /\
  socketRef (pass_ms s) = socketRef s /\
  connectionStatus (pass_ms s) = connectionStatus s /\
  map fst (delivered (pass_ms s))
  = map fst (delivered s) ++ (if (d =? S (clock s))%nat then [S (clock s)] else []).
Proof.
  intros Hs Ht Hdead Hc. rewrite (pass_last s dead _ Ht Hdead).
  set (s1 := Session _ _ _ _ _ _ _ _ _).
  assert (Hlook : timers s1 !! length dead
                  = Some (Timer d (Some 1000) (Stream (length old)) true)).
  { unfold s1. cbn [timers]. rewrite Ht. apply list_lookup_middle. reflexivity. }
  destruct (Nat.eqb_spec d (S (clock s))) as [Heq|Hneq].
  - rewrite (fire_due _ _ _ Hlook eq_refl Heq). cbn [action every due].
    set (s2 := with_timers _ s1).
    assert (Hsock : sockets s2 !! length old = Some (Socket true (Some comparisons) iv)).
    { unfold s2, s1. cbn [with_timers sockets]. rewrite Hs.
      apply list_lookup_middle. reflexivity. }
    rewrite (run_stream _ _ _ _ Hsock eq_refl).
    destruct (deliver_frame comparisons s2) as (Ht2 & Hs2 & Hr2 & Hk2 & Hst2).
    rewrite Ht2, Hs2, Hr2, Hk2, Hst2, deliver_log.
    unfold s2, s1.
    cbn [clock socketRef delivered connectionStatus sockets timers with_timers].
    rewrite Ht. rewrite insert_app_r_alt, Nat.sub_diag by lia.
    cbn [insert list_insert].
    split; [reflexivity|]. split; [reflexivity|]. split; [reflexivity|].
    split; [reflexivity|]. split; reflexivity.
  - rewrite (fire_not_due _ _ _ Hlook) by (cbn [due]; exact Hneq).
    rewrite app_nil_r. unfold s1.
    cbn [clock socketRef delivered connectionStatus sockets timers].
    split; [reflexivity|]. split; [exact Ht|]. split; [reflexivity|].
    split; [reflexivity|]. split; reflexivity.
Qed.

Lemma spent_connect dead b ws :
  Forall spent dead -> Forall spent (dead ++ [Timer (b + 300) None (Connect ws) false]).
Proof. intros H. apply Forall_app. split; [exact H|]. repeat constructor. Qed.

Lemma pass_streaming b comparisons old dead s log :
  streaming b comparisons old dead s ->
  map fst (delivered s) = log ++ tick_times b (clock s) ->
  streaming b comparisons old dead (pass_ms s) /\
  clock (pass_ms s) = S (clock s) /\
  socketRef (pass_ms s) = socketRef s /\
  connectionStatus (pass_ms s) = connectionStatus s /\
  map fst (delivered (pass_ms s)) = log ++ tick_times b (S (clock s)).
Proof.
  intros (Hs & Ht & Hdead & Hc) Hlog0.
  destruct (next_tick_step b (clock s) Hc) as (Hlt & Hnext & Htimes).
  rewrite (cons_middle _ dead) in Ht. rewrite app_assoc in Ht.
  destruct (pass_due comparisons s old _ _ _ Hs Ht (spent_connect _ _ _ Hdead) Hlt)
    as (Hs' & Ht' & Hc' & Href & Hst & Hlog).
  split; [|split; [exact Hc'|split; [exact Href|split; [exact Hst|]]]].
  - unfold streaming. rewrite Hc', Hnext, Hs', Ht', <- app_assoc.
    split; [exact Hs|]. split; [reflexivity|]. split; [exact Hdead|lia].
  - rewrite Hlog, Htimes, Hlog0, app_assoc. reflexivity.
Qed.

Lemma elapse_streaming b comparisons old dead log m : forall s,
  streaming b comparisons old dead s ->
  map fst (delivered s) = log ++ tick_times b (clock s) ->
  streaming b comparisons old dead (elapse m s) /\
  clock (elapse m s) = clock s + m /\
  socketRef (elapse m s) = socketRef s /\
  connectionStatus (elapse m s) = connectionStatus s /\
  map fst (delivered (elapse m s)) = log ++ tick_times b (clock s + m).
Proof.
  induction m as [|m IH]; intros s Hs Hlog.
  - rewrite Nat.add_0_r.
    split; [exact Hs|]. split; [reflexivity|]. split; [reflexivity|].
    split; [reflexivity|exact Hlog].
  - destruct (IH s Hs Hlog) as (Hs1 & Hc1 & Hr1 & Hst1 & Hlog1).
    change (elapse (S m) s) with (pass_ms (elapse m s)).
    rewrite <- Hc1 in Hlog1.
    destruct (pass_streaming b comparisons old dead _ log Hs1 Hlog1)
      as (Hs2 & Hc2 & Hr2 & Hst2 & Hlog2).
    split; [exact Hs2|]. split; [lia|]. split; [congruence|]. split; [congruence|].
    rewrite Hlog2, Hc1. f_equal. f_equal. lia.
Qed.

(** From a pending session: the connection 300 ms after the socket was
    created, then the stream. *)
Lemma elapse_pending b comparisons old dead m : forall s,
  pending b comparisons old dead s ->
  clock (elapse m s) = clock s + m /\
  socketRef (elapse m s) = socketRef s /\
  map fst (delivered (elapse m s)) = map fst (delivered s) ++ tick_times b (clock s + m) /\
  (clock s + m < b + 300 ->
     pending b comparisons old dead (elapse m s) /\
     connectionStatus (elapse m s) = connectionStatus s) /\
  (b + 300 <= clock s + m ->
     streaming b comparisons old dead (elapse m s) /\
     connectionStatus (elapse m s) = CONNECTED).
Proof.
  induction m as [|m IH]; intros s Hp.
  - rewrite Nat.add_0_r. pose proof Hp as (Hs & Ht & Hdead & Hc).
    rewrite tick_times_early, app_nil_r by lia.
    split; [reflexivity|]. split; [reflexivity|]. split; [reflexivity|].
    split; [|intros; lia]. intros _. split; [exact Hp|reflexivity].
  - destruct (IH s Hp) as (Hc1 & Hr1 & Hlog1 & Hbefore & Hafter).
    change (elapse (S m) s) with (pass_ms (elapse m s)).
    destruct (decide (clock s + m < b + 300)) as [Hlt|Hge].
    + destruct (Hbefore Hlt) as [(Hs1 & Ht1 & Hdead & Hcl1) Hst1].
      destruct (pass_pending b comparisons _ old dead Hs1 Ht1 Hdead Hcl1)
        as (Hc2 & Hr2 & Hd2 & Hstay & Hturn).
      rewrite Hc1 in Hc2, Hstay, Hturn.
      split; [lia|]. split; [congruence|]. split.
      * rewrite Hd2, Hlog1. rewrite !tick_times_early by lia. reflexivity.
      * split.
        -- intros H. destruct Hstay as (H1 & H2 & H3); [lia|]. split; [|congruence].
           unfold pending. rewrite H1, H2, Hc2.
           split; [exact Hs1|]. split; [exact Ht1|]. split; [exact Hdead|lia].
        -- intros H. destruct Hturn as (H1 & H2 & H3); [lia|]. split; [|exact H3].
           unfold streaming. rewrite H1, H2, Hc2, length_app, Nat.add_1_r, <- app_assoc.
           replace (S (clock s + m)) with (b + 300) by lia. rewrite next_tick_first.
           split; [reflexivity|]. split; [reflexivity|]. split; [exact Hdead|lia].
    + destruct (Hafter ltac:(lia)) as [Hs1 Hst1].
      rewrite <- Hc1 in Hlog1.
      destruct (pass_streaming b comparisons old dead _ _ Hs1 Hlog1)
        as (Hs2 & Hc2 & Hr2 & Hst2 & Hlog2).
      split; [lia|]. split; [congruence|]. split.
      * rewrite Hlog2, Hc1. f_equal. f_equal. lia.
      * split; [lia|]. intros _. split; [exact Hs2|congruence].
Qed.

(** *** Starting, stopping and restarting *)

Lemma cleanup_frame s :
  clock (cleanup s) = clock s /\ delivered (cleanup s) = delivered s /\
  sockets (cleanup s) = sockets s /\ socketRef (cleanup s) = socketRef s /\
  connectionStatus (cleanup s) = connectionStatus s /\
  store (cleanup s) = store s /\ data (cleanup s) = data s.
Proof.
  destruct s as [w dat wl c ts ss [ws|] st dl]; [|repeat split].
  unfold cleanup, close. cbn [socketRef sockets].
  destruct (ss !! ws) as [k|]; [|repeat split].
  destruct (intervalId k); repeat split.
Qed.

Lemma effect_live comparisons s :
  effect true comparisons s
  = Session (store s) (data s) (wall s) (clock s)
            (timers s ++ [Timer (clock s + 300) None (Connect (length (sockets s))) true])
            (alter (fun k => Socket (onopen k) (Some comparisons) (intervalId k))
                   (length (sockets s))
                   (alter (fun k => Socket true (onmessage k) (intervalId k))
                          (length (sockets s))
                          (sockets s ++ [Socket false None None])))
            (Some (length (sockets s))) CONNECTING (delivered s).
Proof. destruct s. reflexivity. Qed.

(** The effect for [isLive] on a session whose timers are all spent or
    cancelled: a new socket, pending from now on. *)
Lemma start_pending comparisons s :
  Forall spent (timers (cleanup s)) ->
  pending (clock s) comparisons (sockets s) (timers (cleanup s)) (start comparisons s) /\
  clock (start comparisons s) = clock s /\
  delivered (start comparisons s) = delivered s /\
  connectionStatus (start comparisons s) = CONNECTING /\
  socketRef (start comparisons s) = Some (length (sockets s)).
Proof.
  intros Hspent. destruct (cleanup_frame s) as (Hc & Hd & Hs & _).
  unfold start. rewrite effect_live, Hc, Hd, Hs.
  rewrite !alter_app_r_alt, !Nat.sub_diag by lia.
  unfold pending. cbn [clock delivered sockets timers socketRef connectionStatus
                       alter list_alter onopen onmessage intervalId].
  split; [|repeat split]. split; [reflexivity|]. split; [reflexivity|].
  split; [exact Hspent|lia].
Qed.

(** Closing a socket that has no interval yet changes nothing. *)
Lemma stop_pending b comparisons old dead s comparisons' :
  pending b comparisons old dead s ->
  socketRef s = Some (length old) \/ socketRef s = None ->
  pending b comparisons old dead (stop comparisons' s) /\
  clock (stop comparisons' s) = clock s /\
  delivered (stop comparisons' s) = delivered s /\
  connectionStatus (stop comparisons' s) = DISCONNECTED /\
  socketRef (stop comparisons' s) = None.
Proof.
  intros (Hs & Ht & Hdead & Hc) Href.
  assert (Hclose : close (length old) s = s).
  { unfold close. rewrite Hs, list_lookup_middle by reflexivity. reflexivity. }
  assert (Hstop : stop comparisons' s = with_status DISCONNECTED (with_ref None s)).
  { unfold stop, cleanup, effect. destruct Href as [Href|Href]; rewrite Href.
    - rewrite Hclose, Href, Hclose. reflexivity.
    - rewrite Href. destruct s; cbn in *. subst. reflexivity. }
  rewrite Hstop. unfold pending. cbn.
  split; [|repeat split]. split; [exact Hs|]. split; [exact Ht|]. split; [exact Hdead|exact Hc].
Qed.

(** A stream nobody refers to cannot be stopped. *)
Lemma stop_unreachable b comparisons old dead s comparisons' :
  streaming b comparisons old dead s ->
  socketRef s = None ->
  streaming b comparisons old dead (stop comparisons' s) /\
  clock (stop comparisons' s) = clock s /\
  delivered (stop comparisons' s) = delivered s /\
  socketRef (stop comparisons' s) = None.
Proof.
  intros (Hs & Ht & Hdead & Hc) Href.
  assert (Hstop : stop comparisons' s = with_status DISCONNECTED s).
  { unfold stop, cleanup, effect. rewrite Href, Href. reflexivity. }
  rewrite Hstop. unfold streaming. cbn.
  split; [|repeat split; exact Href]. split; [exact Hs|]. split; [exact Ht|].
  split; [exact Hdead|exact Hc].
Qed.

(** The cleanup of a streaming session cancels its interval. *)
Lemma cleanup_streaming b comparisons old dead s :
  streaming b comparisons old dead s ->
  socketRef s = Some (length old) ->
  Forall spent (timers (cleanup s)).
Proof.
  intros (Hs & Ht & Hdead & Hc) Href.
  unfold cleanup, close, clearInterval, with_timers. rewrite Href, Hs.
  rewrite list_lookup_middle by reflexivity. cbn [intervalId timers].
  rewrite Ht. rewrite alter_app_r_alt by lia.
  replace (S (length dead) - length dead) with 1 by lia. cbn [alter list_alter].
  apply Forall_app. split; [exact Hdead|]. repeat constructor.
Qed.

Lemma mount_start comparisons w series wl :
  let s := start comparisons (mount w series wl) in
  pending 0 comparisons [] [] s /\
  clock s = 0 /\ delivered s = [] /\
  connectionStatus s = CONNECTING /\ socketRef s = Some 0.
Proof.
  cbv zeta.
  destruct (start_pending comparisons (mount w series wl)) as (Hp & Hc & Hd & Hst & Href);
    [constructor|].
  split; [exact Hp|]. split; [exact Hc|]. split; [exact Hd|]. split; [exact Hst|exact Href].
Qed.

(** X4. A live session that is left alone connects 300 ms after it was
    started and then receives one message every second: the messages
    arrive at 1300 ms, 2300 ms, 3300 ms, ... after the start, and the
    status is [CONNECTING] before 300 ms and [CONNECTED] from then on. *)
Theorem ticks_every_second (w : world) (series : loc) (wl : nat -> string)
    (comparisons : list string) (n : nat) :
  let s := elapse n (start comparisons (mount w series wl)) in
  map fst (delivered s) = map (fun k => 1300 + 1000 * k) (seq 0 ((n - 300) / 1000)) /\
  connectionStatus s = (if (n <? 300)%nat then CONNECTING else CONNECTED).
Proof.
  cbv zeta.
  destruct (mount_start comparisons w series wl) as (Hp & Hc & Hd & Hst & _).
  destruct (elapse_pending 0 comparisons [] [] n _ Hp) as (_ & _ & Hlog & Hbefore & Hafter).
  rewrite Hc, Hd in *. split; [exact Hlog|].
  destruct (Nat.ltb_spec n 300) as [Hlt|Hge].
  - destruct Hbefore as [_ H]; [exact Hlt|]. rewrite H. exact Hst.
  - destruct Hafter as [_ H]; [exact Hge|]. exact H.
Qed.

(** X5. Stopping the feed before the connection is made cancels nothing:
    whenever the feed is stopped less than 300 ms after its start, the
    socket still connects at 300 ms (the status shows [CONNECTED] again)
    and its messages arrive at 1300 ms, 2300 ms, ... as if the feed had
    never been stopped, and stopping once more does not end them either. *)
Theorem stop_while_connecting_is_ignored (w : world) (series : loc) (wl : nat -> string)
    (comparisons : list string) (n m k : nat) :
  n < 300 ->
  let s1 := elapse m (stop comparisons (elapse n (start comparisons (mount w series wl)))) in
  let s2 := elapse k (stop comparisons s1) in
  map fst (delivered s1) = tick_times 0 (n + m) /\
  (300 <= n + m -> connectionStatus s1 = CONNECTED) /\
  map fst (delivered s2) = tick_times 0 (n + m + k).
Proof.
  intros Hn. cbv zeta.
  destruct (mount_start comparisons w series wl) as (Hp & Hc & Hd & _ & Href).
  destruct (elapse_pending 0 comparisons [] [] n _ Hp) as (Hc1 & Hr1 & Hlog1 & Hbefore & _).
  rewrite Hc, Hd in *. rewrite Nat.add_0_l in *.
  destruct Hbefore as [Hp1 _]; [exact Hn|].
  rewrite tick_times_early in Hlog1 by lia. cbn [map app] in Hlog1.
  set (s0 := elapse n (start comparisons (mount w series wl))) in *.
  destruct (stop_pending 0 comparisons [] [] s0 comparisons Hp1)
    as (Hp2 & Hc2 & Hd2 & _ & Href2); [left; rewrite Hr1; exact Href|].
  set (t := stop comparisons s0) in *.
  destruct (elapse_pending 0 comparisons [] [] m t Hp2)
    as (Hc3 & Hr3 & Hlog3 & Hbefore3 & Hafter3).
  rewrite Hd2, Hlog1, Hc2, Hc1 in *. cbn [app] in Hlog3.
  set (s1 := elapse m t) in *.
  split; [exact Hlog3|]. split; [intros H; apply Hafter3; exact H|].
  destruct (decide (n + m < 300)) as [Hlt|Hge].
  - destruct Hbefore3 as [Hp3 _]; [exact Hlt|].
    destruct (stop_pending 0 comparisons [] [] s1 comparisons Hp3)
      as (Hp4 & Hc4 & Hd4 & _); [right; rewrite Hr3; exact Href2|].
    destruct (elapse_pending 0 comparisons [] [] k _ Hp4) as (_ & _ & Hlog5 & _).
    rewrite Hlog5, Hd4, Hc4, Hlog3, Hc3. rewrite (tick_times_early 0 (n + m)) by lia.
    reflexivity.
  - destruct Hafter3 as [Hs3 _]; [lia|].
    destruct (stop_unreachable 0 comparisons [] [] s1 comparisons Hs3)
      as (Hs4 & Hc4 & Hd4 & _); [rewrite Hr3; exact Href2|].
    destruct (elapse_streaming 0 comparisons [] [] [] k _ Hs4) as (_ & _ & _ & _ & Hlog5).
    + rewrite Hd4, Hc4, Hlog3, Hc3. reflexivity.
    + rewrite Hlog5, Hc4, Hc3. reflexivity.
Qed.

Lemma stop_while_connecting_is_ignored_witness :
  100 < 300 /\
  map fst (delivered
             (elapse 2200 (stop [] (elapse 100 (start [] (mount Examples.three 0
                                                            (fun t => pretty t)))))))
  = [1300; 2300].
Proof.
  split; [lia|].
  destruct (stop_while_connecting_is_ignored Examples.three 0 (fun t => pretty t) []
              100 2200 0 ltac:(lia)) as (H & _).
  rewrite H. reflexivity.
Defined.

(** *** Stopping a connected feed *)


(** ** Strings *)

(** The case mappings and [trim] on byte strings.  On characters below
    U+0080 [String.prototype.toUpperCase] and [toLowerCase] map the
    letters [a]-[z] and [A]-[Z] onto each other and leave everything else
    alone; the theorems that depend on what a case mapping returns assume
    [ascii_only] of its argument. *)
Module JsString.

Definition upper_char (c : ascii) : ascii :=
  let n := nat_of_ascii c in
  if (97 <=? n)%nat && (n <=? 122)%nat then ascii_of_nat (n - 32) else c.

Definition lower_char (c : ascii) : ascii :=
  let n := nat_of_ascii c in
  if (65 <=? n)%nat && (n <=? 90)%nat then ascii_of_nat (n + 32) else c.

Fixpoint map_chars (f : ascii -> ascii) (s : string) : string :=
  match s with
  | EmptyString => EmptyString
  | String c rest => String (f c) (map_chars f rest)
  end.

Definition toUpperCase (s : string) : string := map_chars upper_char s.
Definition toLowerCase (s : string) : string := map_chars lower_char s.

(** [s.trim()] *)
Definition trim (s : string) : string :=
  string_of_list_ascii (StringToNumber.trim (list_ascii_of_string s)).

Fixpoint ascii_only (s : string) : Prop :=
  match s with
  | EmptyString => True
  | String c rest => nat_of_ascii c < 128 /\ ascii_only rest
  end.

Lemma upper_char_idem c : upper_char (upper_char c) = upper_char c.
Proof.
  destruct c as [[|] [|] [|] [|] [|] [|] [|] [|]]; reflexivity.
Qed.

Lemma toUpperCase_idem s : toUpperCase (toUpperCase s) = toUpperCase s.
Proof.
  induction s as [|c s IH]; [reflexivity|].
  unfold toUpperCase in *. simpl. rewrite upper_char_idem, IH. reflexivity.
Qed.

Lemma toUpperCase_empty s : toUpperCase s = "" -> s = "".
Proof. destruct s; [reflexivity|discriminate]. Qed.

(** No upper-cased string is one of the property names of a point. *)
Lemma toUpperCase_not_reserved s :
  toUpperCase s <> "date" /\ toUpperCase s <> "value" /\
  toUpperCase s <> "sma" /\ toUpperCase s <> "rsi".
Proof.
  repeat split; intros H; pose proof (toUpperCase_idem s) as Hi;
    rewrite H in Hi; discriminate Hi.
Qed.

Lemma trim_empty : trim "" = "".
Proof. reflexivity. Qed.

End JsString.

(** ** The comparison list and the hidden series *)

(** [handleAddComparison] on the [comparisons] state: the input is
    refused when it is blank, already listed in upper case, or when two
    comparisons are listed. *)
Definition handleAddComparison (compareInput : string) (comparisons : list string)
  : list string :=
  if String.eqb (JsString.trim compareInput) ""
     || bool_decide (JsString.toUpperCase compareInput ∈ comparisons)
     || (2 <=? length comparisons)%nat
  then comparisons
  else comparisons ++ [JsString.toUpperCase compareInput].

(** [handleRemoveComparison] on the [comparisons] state and on the
    [hiddenSeries] state. *)
Definition handleRemoveComparison (compToRemove : string) (comparisons : list string)
  : list string :=
  filter (fun c => c <> compToRemove) comparisons.

Definition unhide (compToRemove : string) (hiddenSeries : list string) : list string :=
  filter (fun s => s <> compToRemove) hiddenSeries.

(** [handleLegendClick] on the [hiddenSeries] state, for the series name
    the legend entry carries. *)
Definition handleLegendClick (value : string) (prev : list string) : list string :=
  if bool_decide (value ∈ prev)
  then filter (fun s => s <> value) prev
  else prev ++ [value].

(** What the user does to the comparison list. *)
Inductive comparison_action : Type :=
| AddComparison (compareInput : string)
| RemoveComparison (compToRemove : string).

Definition apply_action (comparisons : list string) (a : comparison_action)
  : list string :=
  match a with
  | AddComparison input => handleAddComparison input comparisons
  | RemoveComparison comp => handleRemoveComparison comp comparisons
  end.

Definition ascii_action (a : comparison_action) : Prop :=
  match a with
  | AddComparison input => JsString.ascii_only input
  | RemoveComparison _ => True
  end.

(** What the handlers keep true of the list. *)
Definition comparisons_ok (comparisons : list string) : Prop :=
  NoDup comparisons /\
  length comparisons <= 2 /\
  Forall (fun c => c <> "" /\ JsString.toUpperCase c = c /\
                   c <> "date" /\ c <> "value" /\ c <> "sma" /\ c <> "rsi")
         comparisons.

Lemma trim_nonempty s : JsString.trim s <> "" -> s <> "".
Proof. intros H ->. apply H. reflexivity. Qed.

Lemma handleAddComparison_ok input comparisons :
  comparisons_ok comparisons -> comparisons_ok (handleAddComparison input comparisons).
Proof.
  intros (Hnd & Hlen & Hall). unfold handleAddComparison.
  destruct (String.eqb_spec (JsString.trim input) "") as [Ht|Ht];
    [repeat split; assumption|].
  destruct (bool_decide_reflect (JsString.toUpperCase input ∈ comparisons)) as [Hin|Hin];
    [repeat split; assumption|].
  destruct (Nat.leb_spec 2 (length comparisons)) as [Hfull|Hroom];
    [repeat split; assumption|].
  cbn [orb]. split; [|split].
  - apply NoDup_app. split; [exact Hnd|]. split; [|apply NoDup_singleton].
    intros c Hc Hc'. apply list_elem_of_singleton in Hc'. subst c. contradiction.
  - rewrite length_app. simpl. lia.
  - apply Forall_app. split; [exact Hall|]. constructor; [|constructor].
    destruct (JsString.toUpperCase_not_reserved input) as (H1 & H2 & H3 & H4).
    split.
    + intros He. apply JsString.toUpperCase_empty in He.
      exact (trim_nonempty _ Ht He).
    + split; [apply JsString.toUpperCase_idem|]. repeat split; assumption.
Qed.

Lemma handleRemoveComparison_ok comp comparisons :
  comparisons_ok comparisons -> comparisons_ok (handleRemoveComparison comp comparisons).
Proof.
  intros (Hnd & Hlen & Hall). unfold handleRemoveComparison. split; [|split].
  - apply NoDup_filter. exact Hnd.
  - pose proof (length_filter (fun c => c <> comp) comparisons). lia.
  - apply Forall_forall. intros c Hc. apply list_elem_of_filter in Hc as [_ Hc].
    exact (proj1 (Forall_forall _ _) Hall c Hc).
Qed.

(** X8. Starting from no comparison, whatever the user adds and removes,
    the comparison list never holds more than two names or the same name
    twice, and every name in it is a non-empty upper-case string: none is
    "date", "value", "sma" or "rsi", the property names of a point. *)
Theorem comparison_list_invariant (actions : list comparison_action) :
  Forall ascii_action actions ->
  comparisons_ok (fold_left apply_action actions []).
Proof.
  intros _.
  assert (H : forall cs, comparisons_ok cs -> comparisons_ok (fold_left apply_action actions cs)).
  { induction actions as [|a actions IH]; intros cs Hcs; [exact Hcs|].
    simpl. apply IH. destruct a as [input|comp].
    - apply handleAddComparison_ok. exact Hcs.
    - apply handleRemoveComparison_ok. exact Hcs. }
  apply H. split; [constructor|]. split; [simpl; lia|constructor].
Qed.

Lemma comparison_list_invariant_witness :
  Forall ascii_action [AddComparison "aapl"; AddComparison "Aapl"; AddComparison " ";
                       AddComparison "msft"; AddComparison "goog";
                       RemoveComparison "AAPL"] /\
  fold_left apply_action
    [AddComparison "aapl"; AddComparison "Aapl"; AddComparison " ";
     AddComparison "msft"; AddComparison "goog"; RemoveComparison "AAPL"] []
  = ["MSFT"] /\
  comparisons_ok ["MSFT"].
Proof.
  assert (Ha : Forall ascii_action
                 [AddComparison "aapl"; AddComparison "Aapl"; AddComparison " ";
                  AddComparison "msft"; AddComparison "goog"; RemoveComparison "AAPL"]).
  { repeat constructor; apply Nat.ltb_lt; reflexivity. }
  split; [exact Ha|]. split; [reflexivity|].
  exact (comparison_list_invariant _ Ha).
Defined.

(** Adding a name that is missing and removing one that is there. *)
Lemma legend_flip (value : string) (l : list string) :
  let l' := if bool_decide (value ∈ l) then filter (fun s => s <> value) l
            else l ++ [value] in
  (value ∈ l' <-> value ∉ l) /\
  (forall s, s <> value -> (s ∈ l' <-> s ∈ l)) /\
  (NoDup l -> NoDup l').
Proof.
  cbv zeta. destruct (bool_decide_reflect (value ∈ l)) as [Hin|Hin].
  - split; [rewrite list_elem_of_filter; tauto|].
    split; [intros s Hs; rewrite list_elem_of_filter; tauto|].
    apply NoDup_filter.
  - split; [rewrite elem_of_app, list_elem_of_singleton; tauto|].
    split; [intros s Hs; rewrite elem_of_app, list_elem_of_singleton; tauto|].
    intros Hnd. apply NoDup_app. split; [exact Hnd|]. split; [|apply NoDup_singleton].
    intros c Hc Hc'. apply list_elem_of_singleton in Hc'. subst c. contradiction.
Qed.

(** X9. A click on a legend entry flips that series between shown and
    hidden and touches no other series; the hidden list never gets a name
    twice, and two clicks on a series that was shown give the list back. *)
Theorem legend_click_toggles (value : string) (prev : list string) :
  (value ∈ handleLegendClick value prev <-> value ∉ prev) /\
  (forall s, s <> value -> (s ∈ handleLegendClick value prev <-> s ∈ prev)) /\
  (NoDup prev -> NoDup (handleLegendClick value prev)) /\
  (value ∉ prev -> handleLegendClick value (handleLegendClick value prev) = prev) /\
  (forall s, s ∈ handleLegendClick value (handleLegendClick value prev) <-> s ∈ prev).
Proof.
  assert (Hflip : forall l, value ∈ handleLegendClick value l <-> value ∉ l)
    by (intros l; apply (legend_flip value l)).
  assert (Hkeep : forall l s, s <> value -> (s ∈ handleLegendClick value l <-> s ∈ l))
    by (intros l; apply (legend_flip value l)).
  split; [apply Hflip|]. split; [apply Hkeep|]. split; [|split].
  - apply (legend_flip value prev).
  - intros Hout. unfold handleLegendClick at 2.
    rewrite bool_decide_eq_false_2 by exact Hout.
    unfold handleLegendClick.
    rewrite bool_decide_eq_true_2 by (apply elem_of_app; right; left).
    rewrite filter_app, filter_singleton_False by (try exact []; tauto).
    rewrite app_nil_r. induction prev as [|x l IH]; [reflexivity|].
    apply not_elem_of_cons in Hout. destruct Hout as [Hx Hl].
    rewrite filter_cons_True by congruence. rewrite IH by exact Hl. reflexivity.
  - intros s. destruct (decide (s = value)) as [->|Hs].
    + rewrite Hflip, Hflip. destruct (decide (value ∈ prev)); tauto.
    + rewrite !Hkeep by exact Hs. reflexivity.
Qed.

(** ** The colours of the comparison series *)

Definition CHART_COLORS : list (string * string) :=
  [("Emerald", "#10B981"); ("Blue", "#3B82F6"); ("Purple", "#8B5CF6");
   ("Amber", "#F59E0B"); ("Rose", "#F43F5E")].

(** [getComparisonColor(index)] for the chart colour in use; [None] is the
    [TypeError] of reading [value] of [undefined]. *)
Definition getComparisonColor (chartColor : string) (index : nat) : option string :=
  let available :=
    filter (fun c => JsString.toLowerCase (snd c) <> JsString.toLowerCase chartColor)
           CHART_COLORS in
  snd <$> available !! (index mod length available).

(** The palette without the colour whose lower-case form is [lc]: one of
    six lists. *)
Lemma available_cases (lc : string) :
  let available := filter (fun c => JsString.toLowerCase (snd c) <> lc) CHART_COLORS in
  NoDup (map snd available) /\ 4 <= length available /\
  Forall (fun c => c ∈ CHART_COLORS /\ JsString.toLowerCase (snd c) <> lc) available.
Proof.
  cbv zeta. split; [|split].
  - unfold CHART_COLORS. rewrite !filter_cons, filter_nil.
    change (JsString.toLowerCase (snd ("Emerald", "#10B981"))) with "#10b981".
    change (JsString.toLowerCase (snd ("Blue", "#3B82F6"))) with "#3b82f6".
    change (JsString.toLowerCase (snd ("Purple", "#8B5CF6"))) with "#8b5cf6".
    change (JsString.toLowerCase (snd ("Amber", "#F59E0B"))) with "#f59e0b".
    change (JsString.toLowerCase (snd ("Rose", "#F43F5E"))) with "#f43f5e".
    repeat (match goal with
            | |- context [decide (?a <> lc)] => destruct (decide (a <> lc))
            end); cbn [map snd];
      repeat (apply NoDup_cons; split;
              [rewrite ?elem_of_cons, elem_of_nil; intros H;
               repeat destruct H as [H|H]; discriminate || exact H|]);
      apply NoDup_nil; exact I.
  - unfold CHART_COLORS. rewrite !filter_cons, filter_nil.
    change (JsString.toLowerCase (snd ("Emerald", "#10B981"))) with "#10b981".
    change (JsString.toLowerCase (snd ("Blue", "#3B82F6"))) with "#3b82f6".
    change (JsString.toLowerCase (snd ("Purple", "#8B5CF6"))) with "#8b5cf6".
    change (JsString.toLowerCase (snd ("Amber", "#F59E0B"))) with "#f59e0b".
    change (JsString.toLowerCase (snd ("Rose", "#F43F5E"))) with "#f43f5e".
    repeat (match goal with
            | |- context [decide (?a <> lc)] => destruct (decide (a <> lc)) as [?|?%dec_stable]
            end); cbn [length]; try lia; congruence.
  - apply Forall_forall. intros c Hc. apply list_elem_of_filter in Hc. tauto.
Qed.

(** X10. Every comparison series gets a colour of the palette that differs
    from the chart colour, whatever the case of its letters, and the first
    four comparison series get four different colours. *)
Theorem comparison_colours_differ (chartColor : string) :
  JsString.ascii_only chartColor ->
  forall i,
    exists c,
      getComparisonColor chartColor i = Some c /\
      c ∈ map snd CHART_COLORS /\
      JsString.toLowerCase c <> JsString.toLowerCase chartColor /\
      forall j, i < 4 -> j < 4 -> i <> j -> getComparisonColor chartColor j <> Some c.
Proof.
  intros _ i. unfold getComparisonColor.
  destruct (available_cases (JsString.toLowerCase chartColor)) as (Hnd & Hlen & Hall).
  cbv zeta in Hnd, Hlen, Hall.
  set (available := filter _ CHART_COLORS) in *.
  assert (Hi : i mod length available < length available)
    by (apply Nat.mod_upper_bound; lia).
  destruct (lookup_lt_is_Some_2 available _ Hi) as [[name c] Hc].
  exists c. rewrite Hc. split; [reflexivity|].
  pose proof (proj1 (Forall_lookup _ _) Hall _ _ Hc) as [Hin Hne].
  split; [|split; [exact Hne|]].
  - apply list_elem_of_fmap. exists (name, c). split; [reflexivity|exact Hin].
  - intros j Hi4 Hj4 Hij Hj.
    rewrite Nat.mod_small in Hc by lia. rewrite Nat.mod_small in Hj by lia.
    assert (H1 : map snd available !! i = Some c)
      by (rewrite list_lookup_fmap, Hc; reflexivity).
    assert (H2 : map snd available !! j = Some c)
      by (rewrite list_lookup_fmap; exact Hj).
    exact (Hij (NoDup_lookup _ _ _ _ Hnd H1 H2)).
Qed.

Lemma comparison_colours_differ_witness :
  JsString.ascii_only "#10b981" /\
  getComparisonColor "#10b981" 0 = Some "#3B82F6" /\
  getComparisonColor "#10b981" 1 <> Some "#3B82F6".
Proof.
  assert (Ha : JsString.ascii_only "#10b981")
    by (repeat split; apply Nat.ltb_lt; reflexivity).
  split; [exact Ha|]. split; [reflexivity|].
  destruct (comparison_colours_differ "#10b981" Ha 0) as (c & Hc & _ & _ & Hdiff).
  assert (c = "#3B82F6") as -> by (vm_compute in Hc; congruence).
  apply (Hdiff 1); lia.
Defined.

(** ** The watchlist *)

(** The [watchlist] item of the local storage, which only this component
    writes, and the [isWatchlisted] state.  The item is absent or holds the
    JSON text of an array of strings, which [JSON.parse] reads back as
    written. *)
Record watch_state : Type := WatchState {
  watchlist : option (list string);
  isWatchlisted : bool
}.

(** What [checkWatchlist(sym)] gives to [setIsWatchlisted]. *)
Definition checkWatchlist (saved : option (list string)) (sym : string) : bool :=
  match saved with
  | Some list =>
      if String.eqb sym "" then false
      else bool_decide (JsString.toUpperCase sym ∈ list)
  | None => false
  end.

Definition toggleWatchlist (searchedSymbol : string) (st : watch_state) : watch_state :=
  if String.eqb searchedSymbol "" then st
  else
    let term := JsString.toUpperCase searchedSymbol in
    let list := default [] (watchlist st) in
    let list' :=
      if bool_decide (term ∈ list)
      then filter (fun s => s <> term) list
      else list ++ [term] in
    WatchState (Some list') (checkWatchlist (Some list') term).

(** X11. Toggling the watchlist for a symbol adds its upper-case form to
    the stored list when it is missing and removes it when it is there,
    leaves every other symbol alone, never stores a symbol twice, and
    leaves the button in the state the stored list shows. *)
Theorem watchlist_toggle (searchedSymbol : string) (st : watch_state) :
  JsString.ascii_only searchedSymbol ->
  searchedSymbol <> "" ->
  let term := JsString.toUpperCase searchedSymbol in
  let before := default [] (watchlist st) in
  exists after,
    watchlist (toggleWatchlist searchedSymbol st) = Some after /\
    (term ∈ after <-> term ∉ before) /\
    (forall s, s <> term -> (s ∈ after <-> s ∈ before)) /\
    (NoDup before -> NoDup after) /\
    isWatchlisted (toggleWatchlist searchedSymbol st) = bool_decide (term ∈ after) /\
    checkWatchlist (Some after) searchedSymbol = bool_decide (term ∈ after).
Proof.
  intros _ Hne term before. unfold toggleWatchlist.
  destruct (String.eqb_spec searchedSymbol "") as [|_]; [contradiction|].
  fold term. fold before.
  assert (Hterm : term <> "").
  { intros H. apply JsString.toUpperCase_empty in H. contradiction. }
  eexists. split; [reflexivity|].
  destruct (legend_flip term before) as (Hflip & Hkeep & Hnd).
  split; [exact Hflip|]. split; [exact Hkeep|]. split; [exact Hnd|].
  assert (Hidem : JsString.toUpperCase term = term)
    by apply JsString.toUpperCase_idem.
  unfold checkWatchlist. cbn [isWatchlisted].
  destruct (String.eqb_spec term "") as [|_]; [contradiction|].
  destruct (String.eqb_spec searchedSymbol "") as [|_]; [contradiction|].
  rewrite Hidem. split; reflexivity.
Qed.

Lemma watchlist_toggle_witness :
  JsString.ascii_only "tcs" /\ "tcs" <> "" /\
  watchlist (toggleWatchlist "tcs" (WatchState (Some ["INFY"]) false))
  = Some ["INFY"; "TCS"] /\
  isWatchlisted (toggleWatchlist "tcs" (WatchState (Some ["INFY"]) false)) = true.
Proof.
  assert (Ha : JsString.ascii_only "tcs")
    by (repeat split; apply Nat.ltb_lt; reflexivity).
  assert (Hne : "tcs" <> "") by discriminate.
  split; [exact Ha|]. split; [exact Hne|].
  destruct (watchlist_toggle "tcs" (WatchState (Some ["INFY"]) false) Ha Hne)
    as (after & Hw & _ & _ & _ & Hflag & _).
  rewrite Hflag, Hw. vm_compute in Hw. injection Hw as <-. split; reflexivity.
Defined.

(** ** Price alerts *)

(** [parseFloat] on byte strings: leading white space is skipped, then the
    longest prefix that is a decimal literal is read (an optional sign,
    then [Infinity] or digits with an optional fraction and an optional
    exponent); [NaN] when there is none. *)
Module ParseFloat.

Import StringToNumber.
Local Open Scope Z_scope.

(** The exponent part at the head of [cs], if there is a complete one. *)
Definition exponent_prefix (cs : list ascii) : Z :=
  match cs with
  | c :: cs' =>
      if is_char c 101 || is_char c 69 then
        let '(neg, ds) :=
          match cs' with
          | s :: r =>
              if is_char s 45 then (true, r)
              else if is_char s 43 then (false, r) else (false, cs')
          | [] => (false, cs')
          end in
        match digits 10 ds 0 0 with
        | (n, k, _) => if 0 <? k then (if neg then - n else n) else 0
        end
      else 0
  | [] => 0
  end.

Fixpoint starts_with (p cs : list ascii) : bool :=
  match p, cs with
  | [], _ => true
  | a :: p', c :: cs' => Ascii.eqb a c && starts_with p' cs'
  | _ :: _, [] => false
  end.

Definition unsigned_prefix (neg : bool) (cs : list ascii) : float :=
  if starts_with (list_ascii_of_string "Infinity") cs
  then (if neg then PrimFloat.neg_infinity else PrimFloat.infinity)
  else
    let '(ip, ik, r1) := digits 10 cs 0 0 in
    let '(m, fk, r2) :=
      match r1 with
      | c :: r => if is_char c 46 then digits 10 r ip 0 else (ip, 0, r1)
      | [] => (ip, 0, r1)
      end in
    if (ik =? 0) && (fk =? 0) then JsNumber.NaN
    else JsNumber.of_decimal neg m (exponent_prefix r2 - fk).

Definition parseFloat (s : string) : float :=
  match skip_space (list_ascii_of_string s) with
  | [] => JsNumber.NaN
  | c :: cs =>
      if is_char c 45 then unsigned_prefix true cs
      else if is_char c 43 then unsigned_prefix false cs
      else unsigned_prefix false (c :: cs)
  end.

End ParseFloat.

Record PriceAlert : Type := Alert {
  alert_id : string;
  alert_symbol : string;
  targetPrice : float;
  createdAt : float
}.

(** [handleAddAlert] on the [alerts] state, which is also what it stores;
    [now] is what [Date.now()] returns, an integer number of
    milliseconds. *)
Definition handleAddAlert (now : Z) (newAlertPrice searchedSymbol : string)
    (alerts : list PriceAlert) : list PriceAlert :=
  let price := ParseFloat.parseFloat newAlertPrice in
  if String.eqb searchedSymbol "" || JsNumber.isNaN price then alerts
  else
    Alert (pretty now) (JsString.toUpperCase searchedSymbol) price (JsNumber.of_Z now)
      :: alerts.

Definition removeAlert (id : string) (alerts : list PriceAlert) : list PriceAlert :=
  filter (fun a => alert_id a <> id) alerts.

Definition target_is_number (a : PriceAlert) : Prop :=
  JsNumber.isNaN (targetPrice a) = false.

(** X12. An alert is stored only for a searched symbol and a price text
    that starts with a number, so no stored target is [NaN]; the new alert
    goes to the head of the list, and removing it by its identifier gives
    the previous list back when no older alert carries the same
    identifier (identifiers are the creation time in milliseconds). *)
Theorem alert_add_then_remove (now : Z) (newAlertPrice searchedSymbol : string)
    (alerts : list PriceAlert) :
  JsString.ascii_only searchedSymbol ->
  Forall (fun a => alert_id a <> pretty now) alerts ->
  let updated := handleAddAlert now newAlertPrice searchedSymbol alerts in
  removeAlert (pretty now) updated = alerts /\
  (Forall target_is_number alerts -> Forall target_is_number updated) /\
  (searchedSymbol = "" \/ JsNumber.isNaN (ParseFloat.parseFloat newAlertPrice) = true ->
   updated = alerts) /\
  (searchedSymbol <> "" -> JsNumber.isNaN (ParseFloat.parseFloat newAlertPrice) = false ->
   updated = Alert (pretty now) (JsString.toUpperCase searchedSymbol)
                   (ParseFloat.parseFloat newAlertPrice) (JsNumber.of_Z now) :: alerts).
Proof.
  intros _ Hids updated.
  assert (Hsame : removeAlert (pretty now) alerts = alerts).
  { unfold removeAlert. clear updated. induction alerts as [|a l IH]; [reflexivity|].
    inversion Hids as [|? ? Ha Hl]; subst.
    rewrite filter_cons_True by exact Ha. rewrite IH by exact Hl. reflexivity. }
  unfold updated, handleAddAlert.
  destruct (String.eqb_spec searchedSymbol "") as [He|He]; cbn [orb].
  - split; [exact Hsame|]. split; [tauto|]. split; [reflexivity|contradiction].
  - destruct (JsNumber.isNaN (ParseFloat.parseFloat newAlertPrice)) eqn:Hnan.
    + split; [exact Hsame|]. split; [tauto|]. split; [reflexivity|discriminate].
    + split; [|split; [|split]].
      * unfold removeAlert. rewrite filter_cons_False by (cbn; tauto). exact Hsame.
      * intros Hall. constructor; [exact Hnan|exact Hall].
      * intros [H|H]; [contradiction|discriminate].
      * reflexivity.
Qed.

Lemma alert_add_then_remove_witness :
  JsString.ascii_only "tcs" /\
  Forall (fun a => alert_id a <> pretty 1700000000000%Z)
         [Alert "1699999999999" "INFY" 1500 1699999999999] /\
  handleAddAlert 1700000000000 "3500.50" "tcs"
    [Alert "1699999999999" "INFY" 1500 1699999999999]
  = [Alert "1700000000000" "TCS" 3500.5 1700000000000;
     Alert "1699999999999" "INFY" 1500 1699999999999] /\
  removeAlert "1700000000000"
    (handleAddAlert 1700000000000 "3500.50" "tcs"
       [Alert "1699999999999" "INFY" 1500 1699999999999])
  = [Alert "1699999999999" "INFY" 1500 1699999999999].
Proof.
  assert (Ha : JsString.ascii_only "tcs")
    by (repeat split; apply Nat.ltb_lt; reflexivity).
  assert (Hids : Forall (fun a => alert_id a <> pretty 1700000000000%Z)
                        [Alert "1699999999999" "INFY" 1500 1699999999999])
    by (repeat constructor; discriminate).
  split; [exact Ha|]. split; [exact Hids|].
  destruct (alert_add_then_remove 1700000000000 "3500.50" "tcs" _ Ha Hids)
    as (Hremove & _ & _ & Hadd).
  split; [|exact Hremove].
  rewrite Hadd; [vm_compute; reflexivity|discriminate|vm_compute; reflexivity].
Defined.

(** [x >= y] on numbers. *)
Definition greater_or_equal (x y : float) : bool := PrimFloat.leb y x.

(** The effect that checks the alerts when the series, the searched symbol
    or the alerts change; it returns the [triggeredAlert] state. *)
Definition check_alerts (data : loc) (searchedSymbol : string)
    (alerts : list PriceAlert) (triggeredAlert : option PriceAlert)
  : js (option PriceAlert) :=
  let* len := arr_length data in
  if (0 <? len)%nat && negb (String.eqb searchedSymbol "") then
    let* lastItem := arr_get data (len - 1) in
    let* v := GetV lastItem "value" in
    let currentPrice := ToNumber v in
    if JsNumber.isNaN currentPrice then ret triggeredAlert
    else
      let relevantAlerts :=
        filter (fun a => alert_symbol a = JsString.toUpperCase searchedSymbol) alerts in
      ret (fold_left
             (fun shown alert =>
                if greater_or_equal currentPrice (targetPrice alert) then Some alert else shown)
             relevantAlerts triggeredAlert)
  else ret triggeredAlert.

Lemma fold_last_match {A} (f : A -> bool) (l : list A) : forall init,
  fold_left (fun shown x => if f x then Some x else shown) l init
  = match last (filter (fun x => f x = true) l) with
    | Some a => Some a
    | None => init
    end.
Proof.
  induction l as [|x l IH] using rev_ind; intros init; [reflexivity|].
  rewrite fold_left_app, filter_app. cbn [fold_left].
  destruct (f x) eqn:Hx.
  - rewrite filter_singleton_True by (try exact []; exact Hx).
    rewrite last_snoc. reflexivity.
  - rewrite filter_singleton_False by (try exact []; congruence).
    rewrite app_nil_r. apply IH.
Qed.

(** X13. When the series, the symbol or the alerts change, the alert put
    on display is the last one in the list, that is the oldest one, among
    the alerts of the searched symbol whose target is at or below the last
    value; when there is none, or when the last value is not a number,
    the display is left as it is. *)
Theorem oldest_matching_alert_shown (w : world) (data : loc) (searchedSymbol : string)
    (alerts : list PriceAlert) (triggeredAlert : option PriceAlert) :
  series_ok w (arrs w !!! data) ->
  arrs w !!! data <> [] ->
  JsString.ascii_only searchedSymbol ->
  searchedSymbol <> "" ->
  exists r,
    last (records w data) = Some r /\
    check_alerts data searchedSymbol alerts triggeredAlert w
    = (Normal
         (if JsNumber.isNaN (value_of r) then triggeredAlert
          else
            match last (filter (fun a => greater_or_equal (value_of r) (targetPrice a) = true)
                          (filter (fun a => alert_symbol a
                                            = JsString.toUpperCase searchedSymbol) alerts))
            with
            | Some a => Some a
            | None => triggeredAlert
            end), w).
Proof.
  intros Hok Hne _ Hsym.
  destruct (series_ok_last w _ Hok Hne) as (l & Hlast & Hl).
  exists (objs w !!! l). split; [apply records_last; exact Hlast|].
  unfold check_alerts.
  rewrite (bind_normal _ _ _ _ _ (arr_length_run w data)).
  assert (Hlen : (0 <? length (arrs w !!! data))%nat = true).
  { apply Nat.ltb_lt. destruct (arrs w !!! data); [congruence|simpl; lia]. }
  rewrite Hlen. destruct (String.eqb_spec searchedSymbol "") as [|_]; [contradiction|].
  cbn [andb negb].
  assert (Hget : arr_get data (length (arrs w !!! data) - 1) w = (Normal (ERef l), w)).
  { unfold arr_get, read_arr, bind, ret.
    rewrite (last_item_lookup _ (ERef l) Hlast). reflexivity. }
  rewrite (bind_normal _ _ _ _ _ Hget).
  assert (Hval : GetV (ERef l) "value" w
                 = (Normal (default PUndefined ((objs w !!! l) !! "value")), w))
    by reflexivity.
  rewrite (bind_normal _ _ _ _ _ Hval). fold (value_of (objs w !!! l)).
  destruct (JsNumber.isNaN (value_of (objs w !!! l))); [reflexivity|].
  unfold ret. rewrite fold_last_match. reflexivity.
Qed.

Lemma oldest_matching_alert_shown_witness :
  series_ok Examples.three (arrs Examples.three !!! 0) /\
  arrs Examples.three !!! 0 <> [] /\
  JsString.ascii_only "tcs" /\ "tcs" <> "" /\
  (exists r,
     last (records Examples.three 0) = Some r /\
     check_alerts 0 "tcs"
       [Alert "3" "TCS" 100 3; Alert "2" "INFY" 1 2; Alert "1" "TCS" 90 1;
        Alert "0" "TCS" 120 0] None Examples.three
     = (Normal
          (if JsNumber.isNaN (value_of r) then None
           else
             match last (filter (fun a => greater_or_equal (value_of r) (targetPrice a) = true)
                           (filter (fun a => alert_symbol a = JsString.toUpperCase "tcs")
                              [Alert "3" "TCS" 100 3; Alert "2" "INFY" 1 2;
                               Alert "1" "TCS" 90 1; Alert "0" "TCS" 120 0]))
             with
             | Some a => Some a
             | None => None
             end), Examples.three)) /\
  fst (check_alerts 0 "tcs"
         [Alert "3" "TCS" 100 3; Alert "2" "INFY" 1 2; Alert "1" "TCS" 90 1;
          Alert "0" "TCS" 120 0]
         None Examples.three)
  = Normal (Some (Alert "1" "TCS" 90 1)).
Proof.
  assert (Hok : series_ok Examples.three (arrs Examples.three !!! 0)).
  { change (arrs Examples.three !!! 0) with (fresh_refs 0 3).
    apply series_ok_fresh. simpl. lia. }
  assert (Hne : arrs Examples.three !!! 0 <> []) by discriminate.
  assert (Ha : JsString.ascii_only "tcs")
    by (repeat split; apply Nat.ltb_lt; reflexivity).
  assert (Hs : "tcs" <> "") by discriminate.
  split; [exact Hok|]. split; [exact Hne|]. split; [exact Ha|]. split; [exact Hs|].
  split; [|vm_compute; reflexivity].
  exact (oldest_matching_alert_shown Examples.three 0 "tcs" _ None Hok Hne Ha Hs).
Defined.

(** ** The history of analysed charts *)

Record HistoryItem : Type := History {
  hist_symbol : string;
  hist_period : string;
  hist_data : loc;
  timestamp : float
}.

(** The entries of the history that are not for [sym] and [per]. *)
Definition other_entries (sym per : string) (history : list HistoryItem)
  : list HistoryItem :=
  filter (fun item => ~ (hist_symbol item = sym /\ hist_period item = per)) history.

(** The updater [addToHistory] gives to [setHistory]: its result is the
    new state and what is stored under [visual_analysis_history];
    [slice(10)] keeps the elements from index 10 on. *)
Definition addToHistory (now : Z) (sym per : string) (chartData : loc)
    (prev : list HistoryItem) : list HistoryItem :=
  let newItem := History sym per chartData (JsNumber.of_Z now) in
  let filtered := other_entries sym per prev in
  drop 10 (newItem :: filtered).

(** [history.filter((_, i) => i !== index)] *)
Definition deleteHistoryItem (index : nat) (history : list HistoryItem)
  : list HistoryItem :=
  snd <$> filter (fun p => fst p <> index) (imap (fun i item => (i, item)) history).

(** The entry [fetchAllData] takes from the stored history instead of
    fetching: the first one for the symbol in upper case and the period,
    if it is less than five minutes old. *)
Definition cached_history (now : Z) (hist : list HistoryItem) (term currPeriod : string)
  : option HistoryItem :=
  match List.find (fun h => bool_decide (hist_symbol h = JsString.toUpperCase term
                                         /\ hist_period h = currPeriod)) hist with
  | Some cached =>
      if JsNumber.lt (JsNumber.of_Z now - timestamp cached) 300000
      then Some cached else None
  | None => None
  end.

(** X14. [addToHistory] never records the chart it is given: the updated
    history is the previous one without its entries for the same symbol
    and period and without its first nine other entries, so a history of
    at most nine entries becomes empty and the stored cache never holds
    the chart that was just fetched. *)
Theorem addToHistory_drops_new_entry (now : Z) (sym per : string) (chartData : loc)
    (prev : list HistoryItem) :
  let updated := addToHistory now sym per chartData prev in
  updated = drop 9 (other_entries sym per prev) /\
  Forall (fun item => ~ (hist_symbol item = sym /\ hist_period item = per)) updated /\
  length updated <= length prev - 9 /\
  (length prev <= 9 -> updated = []) /\
  (forall now' term,
     JsString.toUpperCase term = sym -> cached_history now' updated term per = None).
Proof.
  cbv zeta. unfold addToHistory. cbn [drop].
  assert (Hall : Forall (fun item => ~ (hist_symbol item = sym /\ hist_period item = per))
                        (drop 9 (other_entries sym per prev))).
  { apply Forall_drop. apply Forall_forall. intros item Hin.
    apply list_elem_of_filter in Hin. tauto. }
  pose proof (length_filter (fun item => ~ (hist_symbol item = sym /\ hist_period item = per))
                            prev) as Hlen.
  fold (other_entries sym per prev) in Hlen.
  split; [reflexivity|]. split; [exact Hall|]. split; [rewrite length_drop; lia|].
  split.
  - intros Hshort. apply drop_ge. lia.
  - intros now' term Hterm. unfold cached_history.
    assert (Hfind : List.find (fun h => bool_decide (hist_symbol h = JsString.toUpperCase term
                                                     /\ hist_period h = per))
                              (drop 9 (other_entries sym per prev)) = None).
    { induction Hall as [|item l Hitem _ IH]; [reflexivity|].
      simpl. rewrite bool_decide_eq_false_2 by (rewrite Hterm; exact Hitem). exact IH. }
    rewrite Hfind. reflexivity.
Qed.

Lemma imap_shift {A} (k : nat) (l : list A) :
  imap ((fun i item => (k + i, item)) ∘ S) l = imap (fun i item => (S k + i, item)) l.
Proof. apply imap_ext. intros i y _. simpl. f_equal. lia. Qed.

Lemma imap_snd {A} (l : list A) : forall k,
  snd <$> imap (fun i item => (k + i, item)) l = l.
Proof.
  induction l as [|x l IH]; intros k; [reflexivity|].
  cbn [imap]. rewrite imap_shift, fmap_cons. cbn [snd]. f_equal. apply IH.
Qed.

Lemma filter_index_above {A} (l : list A) : forall k j,
  k < j ->
  filter (fun p : nat * A => fst p <> k) (imap (fun i item => (j + i, item)) l)
  = imap (fun i item => (j + i, item)) l.
Proof.
  induction l as [|x l IH]; intros k j Hj; [reflexivity|].
  cbn [imap]. rewrite imap_shift, filter_cons_True by (cbn; lia).
  f_equal. apply IH. lia.
Qed.

Lemma imap_delete {A} (l : list A) : forall (k index : nat),
  snd <$> filter (fun p => fst p <> k + index) (imap (fun i item => (k + i, item)) l)
  = delete index l.
Proof.
  induction l as [|x l IH]; intros k index; [reflexivity|].
  cbn [imap]. rewrite imap_shift, Nat.add_0_r. destruct index as [|index].
  - rewrite Nat.add_0_r, filter_cons_False by (cbn; lia).
    rewrite filter_index_above by lia. cbn [delete list_delete]. apply imap_snd.
  - rewrite filter_cons_True by (cbn; lia). rewrite fmap_cons.
    cbn [snd delete list_delete]. f_equal.
    replace (k + S index) with (S k + index) by lia. apply IH.
Qed.

(** X15. Deleting the history entry at an index removes that entry and no
    other: the entries before it and after it stay in their order, and an
    index beyond the end leaves the history as it is. *)
Theorem deleteHistoryItem_removes_one (index : nat) (history : list HistoryItem) :
  deleteHistoryItem index history = take index history ++ drop (S index) history /\
  (index < length history -> length (deleteHistoryItem index history) = length history - 1) /\
  (length history <= index -> deleteHistoryItem index history = history).
Proof.
  assert (Hdel : deleteHistoryItem index history = delete index history).
  { unfold deleteHistoryItem. rewrite <- (imap_delete history 0 index). reflexivity. }
  rewrite Hdel. split; [apply delete_take_drop|]. split.
  - intros Hi. rewrite length_delete by (apply lookup_lt_is_Some_2; exact Hi). lia.
  - intros Hi. rewrite delete_take_drop, take_ge, drop_ge by lia. apply app_nil_r.
Qed.

(** ** Bounds on rounded sums, quotients and differences *)

Module RsiRange.

Import Rounding.
Local Open Scope Z_scope.

(** *** Shifts and rounding from any location *)

Lemma shr_iter_any n : forall mrs,
  0 <= shr_m mrs ->
  shr_m (Nat.iter n shr_1 mrs) = shr_m mrs / 2 ^ Z.of_nat n /\
  (shr_r (Nat.iter n shr_1 mrs) || shr_s (Nat.iter n shr_1 mrs))%bool
  = (negb (shr_m mrs mod 2 ^ Z.of_nat n =? 0) || (shr_r mrs || shr_s mrs))%bool.
Proof.
  induction n as [|n IH]; intros mrs HM.
  - simpl. rewrite Z.div_1_r, Z.mod_1_r. split; reflexivity.
  - destruct (IH mrs HM) as [IHm IHrs]. simpl Nat.iter.
    destruct (Nat.iter n shr_1 mrs) as [m r s].
    simpl in IHm, IHrs. subst m.
    assert (Hpow : 0 < 2 ^ Z.of_nat n) by (apply Z.pow_pos_nonneg; lia).
    rewrite shr_1_spec by (apply Z.div_pos; lia). simpl shr_m. simpl shr_r. simpl shr_s.
    rewrite Nat2Z.inj_succ, Z.pow_succ_r by lia.
    split.
    + rewrite Z.div_div by lia. f_equal. lia.
    + rewrite IHrs. rewrite (Z.mul_comm 2), Z.rem_mul_r by lia.
      pose proof (Z.mod_pos_bound (shr_m mrs) (2 ^ Z.of_nat n) Hpow) as Hb.
      pose proof (Z.mod_pos_bound (shr_m mrs / 2 ^ Z.of_nat n) 2 ltac:(lia)) as Hb2.
      rewrite Zodd_mod.
      destruct (shr_r mrs || shr_s mrs)%bool; [rewrite !orb_true_r; reflexivity|].
      rewrite !orb_false_r.
      destruct (Z.eqb_spec ((shr_m mrs / 2 ^ Z.of_nat n) mod 2) 1) as [E1|E1];
      destruct (Z.eqb_spec (shr_m mrs mod 2 ^ Z.of_nat n) 0) as [E2|E2];
      destruct (Z.eqb_spec
                  (shr_m mrs mod 2 ^ Z.of_nat n
                   + 2 ^ Z.of_nat n * ((shr_m mrs / 2 ^ Z.of_nat n) mod 2)) 0) as [E3|E3];
      simpl; try reflexivity; exfalso; nia.
Qed.

Lemma shr_record_of_loc_m m l : shr_m (shr_record_of_loc m l) = m.
Proof. destruct l as [|[| |]]; reflexivity. Qed.

Lemma shr_record_of_loc_exact m l :
  (shr_r (shr_record_of_loc m l) || shr_s (shr_record_of_loc m l))%bool = false
  <-> l = loc_Exact.
Proof. destruct l as [|[| |]]; simpl; split; congruence. Qed.

(** The shift that brings a mantissa with a location to the exponent of
    its format. *)
Lemma shr_fexp_any M E l :
  0 <= M ->
  let k := Z.max 0 (fexp prec emax (Zdigits2 M + E) - E) in
  shr_m (fst (shr_fexp prec emax M E l)) = M / 2 ^ k /\
  snd (shr_fexp prec emax M E l) = E + k /\
  (loc_of_shr_record (fst (shr_fexp prec emax M E l)) = loc_Exact
   <-> M mod 2 ^ k = 0 /\ l = loc_Exact).
Proof.
  intros HM k. unfold shr_fexp, shr.
  subst k. destruct (fexp prec emax (Zdigits2 M + E) - E) as [|p|p] eqn:Hk.
  - simpl Z.max. cbn [fst snd]. rewrite Z.pow_0_r, Z.div_1_r, Z.mod_1_r, Z.add_0_r.
    rewrite shr_record_of_loc_m, loc_exact_iff, shr_record_of_loc_exact. tauto.
  - rewrite iter_pos_nat. cbn [fst snd].
    destruct (shr_iter_any (Pos.to_nat p) (shr_record_of_loc M l)) as [Hm Hrs];
      [rewrite shr_record_of_loc_m; exact HM|].
    rewrite positive_nat_Z, shr_record_of_loc_m in Hm, Hrs.
    replace (Z.max 0 (Zpos p)) with (Zpos p) by lia.
    split; [exact Hm|]. split; [reflexivity|].
    rewrite loc_exact_iff, Hrs, orb_false_iff, negb_false_iff, Z.eqb_eq.
    rewrite shr_record_of_loc_exact. reflexivity.
  - simpl Z.max. cbn [fst snd]. rewrite Z.pow_0_r, Z.div_1_r, Z.mod_1_r, Z.add_0_r.
    rewrite shr_record_of_loc_m, loc_exact_iff, shr_record_of_loc_exact. tauto.
Qed.

(** The sign a result carries. *)
Definition has_sign (s : bool) (f : spec_float) : Prop :=
  match f with
  | S754_zero s' | S754_infinity s' | S754_finite s' _ _ => s' = s
  | S754_nan => False
  end.

Lemma binary_round_aux_sign s M E l :
  0 <= M -> has_sign s (binary_round_aux prec emax s M E l).
Proof.
  intros HM. unfold binary_round_aux.
  destruct (shr_fexp_any M E l HM) as (Hm1 & _ & _).
  destruct (shr_fexp prec emax M E l) as [mrs1 e1]. cbn [fst] in Hm1.
  set (m2 := round_nearest_even (shr_m mrs1) (loc_of_shr_record mrs1)).
  assert (Hm2 : 0 <= m2).
  { pose proof (round_nearest_even_bounds (shr_m mrs1) (loc_of_shr_record mrs1)) as [Hb _].
    fold m2 in Hb. rewrite Hm1 in Hb.
    assert (0 <= M / 2 ^ Z.max 0 (fexp prec emax (Zdigits2 M + E) - E))
      by (apply Z.div_pos; [lia|apply Z.pow_pos_nonneg; lia]).
    lia. }
  destruct (shr_fexp_any m2 e1 loc_Exact Hm2) as (Hm3 & _ & _).
  destruct (shr_fexp prec emax m2 e1 loc_Exact) as [mrs3 e3]. cbn [fst] in Hm3.
  destruct (shr_m mrs3) as [|m3|m3] eqn:H3.
  - reflexivity.
  - destruct (e3 <=? emax - prec); reflexivity.
  - exfalso.
    assert (0 <= m2 / 2 ^ Z.max 0 (fexp prec emax (Zdigits2 m2 + e1) - e1))
      by (apply Z.div_pos; [lia|apply Z.pow_pos_nonneg; lia]).
    lia.
Qed.


(** *** Upper bounds from any location *)

(** Rounding up after a right shift cannot pass a bound that lies on the
    grid of the shifted exponent, whatever was dropped before. *)
Lemma round_step_any M E (l : location) B Eb :
  0 <= M -> -2200 <= E -> E <= Eb ->
  fexp prec emax (Zpos (digits2_pos B) + Eb) = Eb ->
  val M E <= val (Zpos B) Eb ->
  (l <> loc_Exact -> val M E < val (Zpos B) Eb) ->
  let k := Z.max 0 (fexp prec emax (Zdigits2 M + E) - E) in
  E + k <= Eb /\
  forall m2,
    M / 2 ^ k <= m2 <= M / 2 ^ k + 1 ->
    (M mod 2 ^ k = 0 /\ l = loc_Exact -> m2 = M / 2 ^ k) ->
    val m2 (E + k) <= val (Zpos B) Eb.
Proof.
  intros HM HE HEb Hcan Hle Hlt k.
  assert (HEb' : -1074 <= Eb) by (rewrite <- Hcan, fexp_eq; lia).
  assert (He' : E + k <= Eb).
  { destruct (Z.eq_dec M 0) as [->|Hpos].
    - subst k. cbn [Zdigits2]. rewrite fexp_eq. lia.
    - assert (Hmag : Zdigits2 M + E <= Zpos (digits2_pos B) + Eb)
        by (apply val_magnitude; lia).
      apply fexp_mono in Hmag. rewrite Hcan in Hmag. subst k. lia. }
  split; [exact He'|]. intros m2 Hm2 Hexact.
  assert (Hk : 0 <= k) by (subst k; lia).
  rewrite (val_split (Zpos B) Eb (E + k)) in Hle, Hlt |- * by lia.
  set (X := Zpos B * 2 ^ (Eb - (E + k))) in *.
  unfold val in Hle, Hlt.
  replace (E + k + 2200) with (k + (E + 2200)) in Hle, Hlt by lia.
  rewrite (Z.pow_add_r 2 k (E + 2200)) in Hle, Hlt by lia.
  assert (HQ : 0 < 2 ^ (E + 2200)) by (apply Z.pow_pos_nonneg; lia).
  assert (HP : 0 < 2 ^ k) by (apply Z.pow_pos_nonneg; lia).
  pose proof (Z.div_mod M (2 ^ k) ltac:(lia)) as Hdm.
  pose proof (Z.mod_pos_bound M (2 ^ k) HP) as Hmod.
  assert (HMX : M <= X * 2 ^ k) by nia.
  assert (Hm2X : m2 <= X).
  { destruct (Z.eq_dec (M mod 2 ^ k) 0) as [E0|E0].
    - destruct l as [|c] eqn:Hl.
      + rewrite (Hexact (conj E0 eq_refl)). nia.
      + assert (HMX' : M < X * 2 ^ k) by (specialize (Hlt ltac:(discriminate)); nia).
        nia.
    - nia. }
  unfold val. apply Z.mul_le_mono_nonneg_r; [|exact Hm2X].
  apply Z.pow_nonneg. lia.
Qed.

Lemma binary_round_aux_below_any s M E l B Eb :
  0 <= M -> -2200 <= E -> E <= Eb -> Eb <= 971 ->
  fexp prec emax (Zpos (digits2_pos B) + Eb) = Eb ->
  val M E <= val (Zpos B) Eb ->
  (l <> loc_Exact -> val M E < val (Zpos B) Eb) ->
  below (binary_round_aux prec emax s M E l) B Eb.
Proof.
  intros HM HE HEb Hmax Hcan Hle Hlt. unfold binary_round_aux.
  destruct (shr_fexp_any M E l HM) as (Hm1 & He1 & Hx1).
  destruct (shr_fexp prec emax M E l) as [mrs1 e1]. cbn [fst snd] in Hm1, He1, Hx1.
  destruct (round_step_any M E l B Eb HM HE HEb Hcan Hle Hlt) as [He1b Hround].
  set (k1 := Z.max 0 (fexp prec emax (Zdigits2 M + E) - E)) in *.
  set (m2 := round_nearest_even (shr_m mrs1) (loc_of_shr_record mrs1)).
  destruct (round_nearest_even_bounds (shr_m mrs1) (loc_of_shr_record mrs1)) as [Hb Hex].
  fold m2 in Hb, Hex.
  assert (Hm2 : val m2 e1 <= val (Zpos B) Eb).
  { rewrite He1. apply Hround.
    - rewrite <- Hm1. exact Hb.
    - intros H0. rewrite <- Hm1. apply Hex. apply Hx1. exact H0. }
  assert (Hm2pos : 0 <= m2).
  { assert (0 <= M / 2 ^ k1) by (apply Z.div_pos; [lia|apply Z.pow_pos_nonneg; subst k1; lia]).
    lia. }
  destruct (shr_fexp_exact m2 e1 Hm2pos) as (Hm3 & He3 & _).
  destruct (shr_fexp prec emax m2 e1 loc_Exact) as [mrs3 e3]. simpl in Hm3, He3.
  set (k2 := Z.max 0 (fexp prec emax (Zdigits2 m2 + e1) - e1)) in *.
  assert (He1lo : -2200 <= e1) by (subst k1; lia).
  destruct (shr_m mrs3) as [|m3|m3] eqn:Hm3'.
  - exact I.
  - assert (Hm2gt : 0 < m2).
    { destruct (Z.eq_dec m2 0) as [E0|E0]; [|lia].
      rewrite E0 in Hm3. rewrite Z.div_0_l in Hm3 by (apply Z.pow_nonzero; subst k2; lia).
      discriminate. }
    assert (Hmag : Zdigits2 m2 + e1 <= Zpos (digits2_pos B) + Eb)
      by (apply val_magnitude; lia).
    assert (He3b : e3 <= Eb).
    { apply fexp_mono in Hmag. rewrite Hcan in Hmag. subst k2. lia. }
    destruct (Z.leb_spec e3 (emax - prec)) as [_|Hover];
      [|unfold emax, prec in Hover; lia].
    cbn [below]. rewrite He3, Hm3.
    eapply Z.le_trans; [apply floor_step; subst k2; lia|exact Hm2].
  - exfalso.
    assert (0 <= m2 / 2 ^ k2) by (apply Z.div_pos; [lia|apply Z.pow_pos_nonneg; subst k2; lia]).
    lia.
Qed.

(** *** A lower bound: numbers that are at least one *)

(** [f] is infinite or a finite number that is at least one. *)
Definition at_least_one (f : spec_float) : Prop :=
  match f with
  | S754_infinity false => True
  | S754_finite false m e => 2 ^ 2200 <= val (Zpos m) e
  | _ => False
  end.

(** Dropping the digits beyond the precision keeps a number at least one. *)
Lemma floor_keeps_one M E :
  0 < M -> -2200 <= E -> 2 ^ 2200 <= val M E ->
  let k := Z.max 0 (fexp prec emax (Zdigits2 M + E) - E) in
  0 < M / 2 ^ k /\ 2 ^ 2200 <= val (M / 2 ^ k) (E + k) /\ -52 <= E + k.
Proof.
  intros HM HE Hone k. destruct M as [|p|p]; try lia.
  cbn [Zdigits2] in k. pose proof (digits2_pos_bounds p) as [Hlo Hhi].
  set (d := Zpos (digits2_pos p)) in *.
  assert (Hd : 1 <= d + E).
  { unfold val in Hone.
    assert (H : 2 ^ 2200 < 2 ^ (d + (E + 2200))).
    { rewrite (Z.pow_add_r 2 d (E + 2200)) by lia.
      eapply Z.le_lt_trans; [exact Hone|].
      apply Z.mul_lt_mono_pos_r; [apply Z.pow_pos_nonneg; lia|exact Hhi]. }
    apply Z.pow_lt_mono_r_iff in H; lia. }
  assert (Hk : k = Z.max 0 (d - 53)) by (subst k; rewrite fexp_eq; lia).
  destruct (Z.le_gt_cases d 53) as [Hsmall|Hbig].
  - replace k with 0 by lia. rewrite Z.pow_0_r, Z.div_1_r, Z.add_0_r.
    split; [lia|]. split; [exact Hone|]. lia.
  - assert (Hk' : k = d - 53) by lia. rewrite Hk'.
    assert (HP : 0 < 2 ^ (d - 53)) by (apply Z.pow_pos_nonneg; lia).
    assert (Hq : 2 ^ 52 <= Zpos p / 2 ^ (d - 53)).
    { apply Z.div_le_lower_bound; [exact HP|].
      rewrite <- (Z.pow_add_r 2 (d - 53) 52) by lia.
      replace (d - 53 + 52) with (d - 1) by lia. exact Hlo. }
    split; [change (2 ^ 52) with 4503599627370496 in Hq; lia|]. split; [|lia].
    unfold val. eapply Z.le_trans;
      [|apply Z.mul_le_mono_nonneg_r; [apply Z.pow_nonneg; lia|exact Hq]].
    rewrite <- (Z.pow_add_r 2 52 (E + (d - 53) + 2200)) by lia.
    apply Z.pow_le_mono_r; lia.
Qed.

Lemma val_mono_l m m' e : m <= m' -> val m e <= val m' e.
Proof.
  intros H. unfold val.
  destruct (Z.le_gt_cases 0 (e + 2200)) as [He|He].
  - apply Z.mul_le_mono_nonneg_r; [apply Z.pow_nonneg; lia|exact H].
  - rewrite Z.pow_neg_r by lia. lia.
Qed.

(** An exact value that is at least one rounds to a number that is at
    least one. *)
Lemma binary_round_aux_at_least_one M E :
  0 < M -> -2200 <= E -> 2 ^ 2200 <= val M E ->
  at_least_one (binary_round_aux prec emax false M E loc_Exact).
Proof.
  intros HM HE Hone. unfold binary_round_aux.
  destruct (shr_fexp_exact M E ltac:(lia)) as (Hm1 & He1 & _).
  destruct (shr_fexp prec emax M E loc_Exact) as [mrs1 e1]. cbn [fst snd] in Hm1, He1.
  destruct (floor_keeps_one M E HM HE Hone) as (Hpos1 & Hone1 & Hlo1).
  set (k1 := Z.max 0 (fexp prec emax (Zdigits2 M + E) - E)) in *.
  set (m2 := round_nearest_even (shr_m mrs1) (loc_of_shr_record mrs1)).
  pose proof (round_nearest_even_bounds (shr_m mrs1) (loc_of_shr_record mrs1)) as [Hb _].
  fold m2 in Hb. rewrite Hm1 in Hb. rewrite <- He1 in Hone1, Hlo1.
  assert (Hone2 : 2 ^ 2200 <= val m2 e1).
  { eapply Z.le_trans; [exact Hone1|]. apply val_mono_l. lia. }
  destruct (shr_fexp_exact m2 e1 ltac:(lia)) as (Hm3 & He3 & _).
  destruct (shr_fexp prec emax m2 e1 loc_Exact) as [mrs3 e3]. cbn [fst snd] in Hm3, He3.
  destruct (floor_keeps_one m2 e1 ltac:(lia) ltac:(lia) Hone2) as (Hpos3 & Hone3 & _).
  rewrite <- Hm3, <- He3 in Hone3. rewrite <- Hm3 in Hpos3.
  destruct (shr_m mrs3) as [|m3|m3]; try lia.
  destruct (e3 <=? emax - prec); [exact Hone3|exact I].
Qed.


(** *** Sums, products and quotients of numbers that are not negative *)

Lemma binary_round_sign s M E : has_sign s (binary_round prec emax s M E).
Proof.
  unfold binary_round.
  destruct (shl_align M E (fexp prec emax (Zpos (digits2_pos M) + E))) as [mz ez].
  apply binary_round_aux_sign. lia.
Qed.

Lemma binary_round_at_least_one M E :
  -1074 <= E -> 2 ^ 2200 <= val (Zpos M) E ->
  at_least_one (binary_round prec emax false M E).
Proof.
  intros HE Hone. unfold binary_round.
  set (t := fexp prec emax (Zpos (digits2_pos M) + E)).
  assert (Ht : -1074 <= t) by (subst t; rewrite fexp_eq; lia).
  destruct (shl_align_spec M E t) as [He _].
  pose proof (shl_align_val M E t ltac:(lia)) as Hv.
  destruct (shl_align M E t) as [mz ez]. cbn [fst snd] in He, Hv. subst ez.
  apply binary_round_aux_at_least_one; [lia | lia | rewrite Hv; exact Hone].
Qed.

Lemma add_not_negative f g :
  has_sign false f -> has_sign false g -> has_sign false (SFadd prec emax f g).
Proof.
  destruct f as [s|s| |s m e], g as [s'|s'| |s' m' e'];
    cbn [has_sign]; intros Hf Hg; subst; try contradiction; try reflexivity.
  cbn [SFadd cond_Zopp].
  set (ez := Z.min e e').
  change (Zpos (fst (shl_align m e ez)) + Zpos (fst (shl_align m' e' ez)))
    with (Zpos (fst (shl_align m e ez) + fst (shl_align m' e' ez))).
  cbn [binary_normalize]. apply binary_round_sign.
Qed.

Lemma mul_not_negative f m e :
  has_sign false f -> has_sign false (SFmul prec emax f (S754_finite false m e)).
Proof.
  destruct f as [s|s| |s m' e']; cbn [has_sign]; intros Hf; subst;
    try contradiction; try reflexivity.
  cbn [SFmul xorb]. apply binary_round_aux_sign. lia.
Qed.

(** The quotient and the remainder the division hands to the rounding. *)
Lemma div_core_spec m1 e1 m2 e2 :
  let ez := Z.min (fexp prec emax (Zpos (digits2_pos m1) + e1
                                   - (Zpos (digits2_pos m2) + e2))) (e1 - e2) in
  let n := Zpos m1 * 2 ^ (e1 - e2 - ez) in
  exists l,
    SFdiv_core_binary prec emax (Zpos m1) e1 (Zpos m2) e2
    = (n / Zpos m2, ez, l) /\
    (l <> loc_Exact -> n mod Zpos m2 <> 0).
Proof.
  intros ez n. unfold SFdiv_core_binary. cbn [Zdigits2]. fold ez.
  assert (Hs : 0 <= e1 - e2 - ez) by (subst ez; lia).
  assert (Hn : match e1 - e2 - ez with
               | 0 => Zpos m1
               | Zpos _ => Z.shiftl (Zpos m1) (e1 - e2 - ez)
               | Zneg _ => 0
               end = n).
  { subst n. destruct (e1 - e2 - ez) as [|p|p] eqn:Hp; [lia| |lia].
    rewrite Z.shiftl_mul_pow2 by lia. reflexivity. }
  rewrite Hn. unfold Z.div, Z.modulo.
  destruct (Z.div_eucl n (Zpos m2)) as [q r].
  eexists. split; [reflexivity|].
  unfold new_location, new_location_even, new_location_odd.
  destruct (Z.eqb_spec r 0) as [->|Hr]; [|intros _; exact Hr].
  destruct (Z.even (Zpos m2)); intros H; contradiction H; reflexivity.
Qed.

Lemma div_not_negative f m e :
  has_sign false f -> has_sign false (SFdiv prec emax f (S754_finite false m e)).
Proof.
  destruct f as [s|s| |s m' e']; cbn [has_sign]; intros Hf; subst;
    try contradiction; try reflexivity.
  cbn [SFdiv xorb].
  destruct (div_core_spec m' e' m e) as (l & -> & _).
  apply binary_round_aux_sign. apply Z.div_pos; [|lia].
  apply Z.mul_nonneg_nonneg; [lia|]. apply Z.pow_nonneg. lia.
Qed.

(** A quotient of two such numbers, the second one not zero, is again
    not negative, or it is no number (infinity over infinity). *)
Lemma ratio_not_negative f g :
  has_sign false f -> has_sign false g ->
  (forall s, g <> S754_zero s) ->
  SFdiv prec emax f g = S754_nan \/ has_sign false (SFdiv prec emax f g).
Proof.
  intros Hf Hg Hz. destruct g as [s|s| |s m e]; cbn [has_sign] in Hg;
    try contradiction; subst.
  - contradiction (Hz false). reflexivity.
  - destruct f as [s|s| |s m e]; cbn [has_sign] in Hf; subst;
      try contradiction; [right; reflexivity|left; reflexivity|right; reflexivity].
  - right. apply div_not_negative. exact Hf.
Qed.

(** *** The three steps of [100 - 100 / (1 + rs)] *)

Definition one_m : positive := 4503599627370496.

Lemma one_val : val (Zpos one_m) (-52) = 2 ^ 2200.
Proof.
  unfold val. change (Zpos one_m) with (2 ^ 52).
  rewrite <- (Z.pow_add_r 2 52 (-52 + 2200)) by lia. reflexivity.
Qed.

Lemma one_plus f :
  valid_binary f = true -> has_sign false f ->
  at_least_one (SFadd prec emax (S754_finite false one_m (-52)) f).
Proof.
  intros Hv Hf. destruct f as [s|s| |s m e]; cbn [has_sign] in Hf;
    try contradiction; subst.
  - cbn [SFadd at_least_one]. rewrite one_val. lia.
  - exact I.
  - destruct (valid_finite _ _ _ Hv) as (_ & He & _).
    cbn [SFadd cond_Zopp].
    assert (Hez : exists ez, ez = Z.min (-52) e) by (eexists; reflexivity).
    destruct Hez as [ez Hez]. rewrite <- Hez.
    pose proof (shl_align_val one_m (-52) ez ltac:(lia)) as H1.
    pose proof (shl_align_val m e ez ltac:(lia)) as H2.
    replace (Z.min (-52) ez) with ez in H1 by lia.
    replace (Z.min e ez) with ez in H2 by lia.
    pose proof (val_pos (Zpos m) e ltac:(lia) ltac:(lia)) as Hpos.
    change (Zpos (fst (shl_align one_m (-52) ez)) + Zpos (fst (shl_align m e ez)))
      with (Zpos (fst (shl_align one_m (-52) ez) + fst (shl_align m e ez))).
    cbn [binary_normalize]. apply binary_round_at_least_one; [lia|].
    rewrite Pos2Z.inj_add. unfold val in *. rewrite Z.mul_add_distr_r.
    rewrite H1, H2. rewrite <- one_val. unfold val. lia.
Qed.


(** Dividing a positive number by one that is at least one gives a result
    that is not negative and not above the dividend. *)
Lemma div_by_at_least_one B Eb g :
  valid_binary (S754_finite false B Eb) = true ->
  valid_binary g = true -> at_least_one g ->
  has_sign false (SFdiv prec emax (S754_finite false B Eb) g) /\
  below (SFdiv prec emax (S754_finite false B Eb) g) B Eb.
Proof.
  intros HvB Hv Hg. destruct (valid_finite _ _ _ HvB) as (Hcan & HEb & _).
  destruct g as [s|s| |s m e]; cbn [at_least_one] in Hg; try contradiction.
  - destruct s; [contradiction|]. split; [reflexivity|exact I].
  - destruct s; [contradiction|].
    split; [apply div_not_negative; reflexivity|].
    destruct (valid_finite _ _ _ Hv) as (_ & He & _).
    cbn [SFdiv xorb].
    destruct (div_core_spec B Eb m e) as (l & -> & Hl).
    set (ez := Z.min (fexp prec emax (Zpos (digits2_pos B) + Eb
                                      - (Zpos (digits2_pos m) + e))) (Eb - e)) in *.
    set (n := Zpos B * 2 ^ (Eb - e - ez)) in *.
    assert (Hd : 1 <= Zpos (digits2_pos m) + e).
    { pose proof (digits2_pos_bounds m) as [_ Hhi]. unfold val in Hg.
      assert (H : 2 ^ 2200 < 2 ^ (Zpos (digits2_pos m) + (e + 2200))).
      { rewrite (Z.pow_add_r 2 (Zpos (digits2_pos m)) (e + 2200)) by lia.
        eapply Z.le_lt_trans; [exact Hg|].
        apply Z.mul_lt_mono_pos_r; [apply Z.pow_pos_nonneg; lia|exact Hhi]. }
      apply Z.pow_lt_mono_r_iff in H; lia. }
    assert (Hez : ez <= Eb).
    { pose proof (fexp_mono (Zpos (digits2_pos B) + Eb - (Zpos (digits2_pos m) + e))
                    (Zpos (digits2_pos B) + Eb) ltac:(lia)) as Hm.
      rewrite Hcan in Hm. subst ez. lia. }
    assert (Hezlo : -2200 <= ez) by (subst ez; rewrite fexp_eq; lia).
    assert (Hs : 0 <= Eb - e - ez) by (subst ez; lia).
    assert (Hn : 0 <= n).
    { subst n. apply Z.mul_nonneg_nonneg; [lia|]. apply Z.pow_nonneg. lia. }
    pose proof (Z.div_mod n (Zpos m) ltac:(lia)) as Hdm.
    pose proof (Z.mod_pos_bound n (Zpos m) ltac:(lia)) as Hmod.
    assert (Hq : 0 <= n / Zpos m) by (apply Z.div_pos; lia).
    (* value of the dividend on the scale of the quotient *)
    assert (HB : val (Zpos B) Eb * 2 ^ 2200
                 = n * 2 ^ (e + 2200) * 2 ^ (ez + 2200)).
    { unfold val. subst n.
      rewrite <- !Z.mul_assoc. f_equal.
      rewrite <- !Z.pow_add_r by lia. f_equal. lia. }
    assert (HP : 0 < 2 ^ (ez + 2200)) by (apply Z.pow_pos_nonneg; lia).
    assert (HQ : 0 < 2 ^ (e + 2200)) by (apply Z.pow_pos_nonneg; lia).
    assert (HT : 0 < 2 ^ 2200) by (apply Z.pow_pos_nonneg; lia).
    unfold val in Hg.
    set (P := 2 ^ (ez + 2200)) in *. set (Q := 2 ^ (e + 2200)) in *.
    set (T := 2 ^ 2200) in *. set (q := n / Zpos m) in *.
    set (r := n mod Zpos m) in *. set (V := val (Zpos B) Eb) in *.
    assert (Hle : (q * P) * T <= V * T).
    { rewrite HB. 
      apply Z.le_trans with (q * P * (Zpos m * Q)).
      - apply Z.mul_le_mono_nonneg_l; [apply Z.mul_nonneg_nonneg; lia|exact Hg].
      - replace (q * P * (Zpos m * Q)) with ((q * Zpos m) * (Q * P)) by ring.
        replace (n * Q * P) with (n * (Q * P)) by ring.
        apply Z.mul_le_mono_nonneg_r; [apply Z.mul_nonneg_nonneg; lia|lia]. }
    apply binary_round_aux_below_any;
      [exact Hq | exact Hezlo | exact Hez | lia | exact Hcan | |].
    + change (q * P <= V). apply (Z.mul_le_mono_pos_r _ _ T HT). exact Hle.
    + intros Hne. specialize (Hl Hne). fold r in Hl. change (q * P < V).
      apply (Z.mul_lt_mono_pos_r T _ _ HT).
      assert (Hlt : (q * P) * T < V * T).
      { rewrite HB.
        apply Z.le_lt_trans with (q * P * (Zpos m * Q)).
        - apply Z.mul_le_mono_nonneg_l; [apply Z.mul_nonneg_nonneg; lia|exact Hg].
        - replace (q * P * (Zpos m * Q)) with ((q * Zpos m) * (Q * P)) by ring.
          replace (n * Q * P) with (n * (Q * P)) by ring.
          apply Z.mul_lt_mono_pos_r; [apply Z.mul_pos_pos; lia|lia]. }
      exact Hlt.
Qed.

(** Taking a number that is not negative and not above [x] from [x]
    leaves a number with the same two properties. *)
Lemma sub_from_bound B Eb q :
  valid_binary (S754_finite false B Eb) = true ->
  valid_binary q = true -> has_sign false q -> below q B Eb ->
  has_sign false (SFsub prec emax (S754_finite false B Eb) q) /\
  below (SFsub prec emax (S754_finite false B Eb) q) B Eb.
Proof.
  intros HvB Hv Hs Hb. destruct (valid_finite _ _ _ HvB) as (Hcan & HEb & _).
  destruct q as [s|s| |s m e]; cbn [has_sign below] in Hs, Hb;
    try contradiction; subst.
  - cbn [SFsub has_sign below]. split; [reflexivity|lia].
  - destruct (valid_finite _ _ _ Hv) as (_ & He & _).
    cbn [SFsub cond_Zopp].
    assert (Hez : exists ez, ez = Z.min Eb e) by (eexists; reflexivity).
    destruct Hez as [ez Hez]. rewrite <- Hez.
    pose proof (shl_align_val B Eb ez ltac:(lia)) as H1.
    pose proof (shl_align_val m e ez ltac:(lia)) as H2.
    replace (Z.min Eb ez) with ez in H1 by lia.
    replace (Z.min e ez) with ez in H2 by lia.
    pose proof (val_pos (Zpos m) e ltac:(lia) ltac:(lia)) as Hpos.
    set (a := Zpos (fst (shl_align B Eb ez))) in *.
    set (b := Zpos (fst (shl_align m e ez))) in *.
    pose proof (val_sub a b ez) as Hd.
    unfold binary_normalize. destruct (a - b) as [|p|p] eqn:Hab.
    + split; [reflexivity|exact I].
    + split; [apply binary_round_sign|].
      apply binary_round_below; [lia | lia | lia | exact Hcan | lia].
    + exfalso. change (Zneg p) with (- Zpos p) in Hd. rewrite val_opp in Hd.
      pose proof (val_pos (Zpos p) ez ltac:(lia) ltac:(lia)). lia.
Qed.

(** A valid number that is not negative and not above [x] compares so. *)
Lemma between_zero_and B Eb r :
  valid_binary (S754_finite false B Eb) = true ->
  valid_binary r = true -> has_sign false r -> below r B Eb ->
  SFleb (S754_zero false) r = true /\ SFleb r (S754_finite false B Eb) = true.
Proof.
  intros HvB Hv Hs Hb. destruct (valid_finite _ _ _ HvB) as (Hcan & HEb & _).
  split; [|apply (below_leb r B Eb Hv Hcan ltac:(lia) Hb)].
  destruct r as [s|s| |s m e]; cbn [has_sign below] in Hs, Hb;
    try contradiction; subst; reflexivity.
Qed.

End RsiRange.

(** ** The range of the relative strength index *)

Section RsiBounds.

Import Rounding RsiRange Design.

(** [x] is zero, a positive number or positive infinity. *)
Definition not_negative (x : float) : Prop := has_sign false (Prim2SF x).

Lemma max0_not_negative x : not_negative (max0 x).
Proof.
  unfold max0, JsNumber.gt, not_negative.
  destruct (0 <? x)%float eqn:H; [|reflexivity].
  rewrite ltb_spec in H. change (Prim2SF 0) with (S754_zero false) in H.
  destruct (Prim2SF x) as [s|s| |s m e]; try discriminate H;
    destruct s; try discriminate H; reflexivity.
Qed.

Lemma add_keeps_sign x y :
  not_negative x -> not_negative y -> not_negative (x + y).
Proof.
  unfold not_negative. rewrite add_spec. apply add_not_negative.
Qed.

Lemma times_13_keeps_sign x : not_negative x -> not_negative (x * 13).
Proof.
  unfold not_negative. rewrite mul_spec.
  set (c := Prim2SF 13). vm_compute in c. subst c. apply mul_not_negative.
Qed.

Lemma over_14_keeps_sign x : not_negative x -> not_negative (x / 14).
Proof.
  unfold not_negative. rewrite div_spec.
  set (c := Prim2SF 14). vm_compute in c. subst c. apply div_not_negative.
Qed.

Lemma running_sum_not_negative f k :
  (forall j, not_negative (f j)) -> not_negative (running_sum f k).
Proof.
  intros Hf. induction k as [|k IH]; [reflexivity|].
  unfold running_sum in *. rewrite seq_S, fold_left_app. cbn [fold_left].
  apply add_keeps_sign; [exact IH|apply Hf].
Qed.

(** Both running averages stay zero, positive or infinite: a gain and a
    loss are never negative and never [NaN], whatever the values are. *)
Lemma wilder_not_negative vs d :
  not_negative (fst (wilder vs d)) /\ not_negative (snd (wilder vs d)).
Proof.
  induction d as [|d [IHg IHl]].
  - cbn [wilder fst snd]. split; apply over_14_keeps_sign, running_sum_not_negative;
      intros j; apply max0_not_negative.
  - cbn [wilder]. destruct (wilder vs d) as [ag al]. cbn [fst snd] in *.
    split; apply over_14_keeps_sign, add_keeps_sign;
      try apply max0_not_negative; apply times_13_keeps_sign; assumption.
Qed.

Lemma rsi_formula_range avg :
  not_negative (fst avg) -> not_negative (snd avg) ->
  JsNumber.isNaN (rsi_formula avg) = true \/
  ((0 <=? rsi_formula avg)%float = true /\ (rsi_formula avg <=? 100)%float = true).
Proof.
  intros Hg Hl. unfold rsi_formula.
  set (rs := if JsNumber.strict_eq (snd avg) 0 then 100%float
             else (fst avg / snd avg)%float).
  assert (Hrs : Prim2SF rs = S754_nan \/ has_sign false (Prim2SF rs)).
  { subst rs. unfold JsNumber.strict_eq.
    destruct (snd avg =? 0)%float eqn:E; [right; reflexivity|].
    rewrite div_spec. apply ratio_not_negative; [exact Hg|exact Hl|].
    intros s Hz. rewrite FloatAxioms.eqb_spec, Hz in E. destruct s; discriminate E. }
  assert (H100 : Prim2SF 100 = S754_finite false 7036874417766400 (-46))
    by reflexivity.
  assert (Hv100 : valid_binary (S754_finite false 7036874417766400 (-46)) = true)
    by reflexivity.
  destruct Hrs as [Hnan|Hsign].
  - left. apply FloatFacts.is_nan_spec.
    rewrite sub_spec, div_spec, add_spec, Hnan, H100.
    destruct (Prim2SF 1) as [s|s| |s m e]; reflexivity.
  - right.
    assert (H1 : at_least_one (Prim2SF (1 + rs))).
    { rewrite add_spec. change (Prim2SF 1) with (S754_finite false one_m (-52)).
      apply one_plus; [apply Prim2SF_valid|exact Hsign]. }
    destruct (div_by_at_least_one _ _ _ Hv100 (Prim2SF_valid (1 + rs)) H1)
      as [Hqs Hqb].
    assert (Eq : SFdiv prec emax (S754_finite false 7036874417766400 (-46))
                   (Prim2SF (1 + rs)) = Prim2SF (100 / (1 + rs)))
      by (rewrite div_spec, H100; reflexivity).
    rewrite Eq in Hqs, Hqb.
    destruct (sub_from_bound _ _ _ Hv100 (Prim2SF_valid (100 / (1 + rs))) Hqs Hqb)
      as [Hrsn Hrb].
    assert (Er : SFsub prec emax (S754_finite false 7036874417766400 (-46))
                   (Prim2SF (100 / (1 + rs))) = Prim2SF (100 - 100 / (1 + rs)))
      by (rewrite sub_spec, H100; reflexivity).
    rewrite Er in Hrsn, Hrb.
    destruct (between_zero_and _ _ _ Hv100
                (Prim2SF_valid (100 - 100 / (1 + rs))) Hrsn Hrb) as [Hlo Hhi].
    rewrite !leb_spec, H100. split; [exact Hlo|exact Hhi].
Qed.

End RsiBounds.

(** X16. Every [rsi] the engine stores is [null], [NaN] or a number
    from 0 to 100, whatever the values of the series are: gains and
    losses are never negative, so neither are their averages, and
    [100 / (1 + rs)] lies between 0 and 100 for every [rs] that is not
    negative.  ([NaN] is what infinity over infinity leaves.) *)
Theorem rsi_within_bounds (w : world) (a : loc) :
  all_have_properties (arrs w !!! a) ->
  refs_allocated w (arrs w !!! a) ->
  exists out,
    enrich_output w a = Some out /\
    forall i o, out !! i = Some o ->
      o !! "rsi" = Some PNull \/
      exists x, o !! "rsi" = Some (PNum x) /\
        (JsNumber.isNaN x = true \/
         ((0 <=? x)%float = true /\ (x <=? 100)%float = true)).
Proof.
  intros Hn Hwf. rewrite (enrich_output_eq w a Hn Hwf).
  eexists. split; [reflexivity|]. intros i o Ho.
  destruct (output_entry _ _ _ _ Ho) as (_ & _ & _ & Hr). rewrite Hr.
  destruct (Nat.lt_ge_cases i 14) as [Hi|Hi].
  - left. rewrite rsi_at_early by exact Hi. reflexivity.
  - right. replace i with (14 + (i - 14)) by lia. rewrite rsi_at_wilder.
    eexists. split; [reflexivity|].
    destruct (wilder_not_negative (values w (arrs w !!! a)) (i - 14)) as [Hg Hl].
    apply rsi_formula_range; assumption.
Qed.

Lemma rsi_within_bounds_witness :
  all_have_properties (arrs Examples.wavy22 !!! 0) /\
  refs_allocated Examples.wavy22 (arrs Examples.wavy22 !!! 0) /\
  exists out o,
    enrich_output Examples.wavy22 0 = Some out /\
    out !! 15 = Some o /\
    (o !! "rsi" = Some PNull \/
     exists x, o !! "rsi" = Some (PNum x) /\
       (JsNumber.isNaN x = true \/
        ((0 <=? x)%float = true /\ (x <=? 100)%float = true))).
Proof.
  split; [apply Examples.series_have_properties|].
  split; [apply Examples.series_allocated|].
  destruct (rsi_within_bounds Examples.wavy22 0
              (Examples.series_have_properties _) (Examples.series_allocated _))
    as (out & Hout & Hrange).
  pose proof (enrich_output_length _ _ _ (Examples.series_have_properties _)
                (Examples.series_allocated _) Hout) as Hlen.
  destruct (lookup_lt_is_Some_2 out 15) as [o Ho];
    [rewrite Hlen; vm_compute; lia|].
  exists out, o. split; [exact Hout|]. split; [exact Ho|].
  exact (Hrange 15 o Ho).
Defined.

(** ** The share link and the state a page opened from it starts with *)

Definition PERIODS : list string := ["1W"; "1M"; "3M"; "6M"; "1Y"].

(** [s.replace(c, '')] for a one-character pattern: the first occurrence
    is removed. *)
Fixpoint replace_first (c : ascii) (s : string) : string :=
  match s with
  | EmptyString => EmptyString
  | String a rest =>
      if Ascii.eqb a c then rest else String a (replace_first c rest)
  end.

(** [s.split(c)] for a one-character separator. *)
Fixpoint split_at (c : ascii) (s : string) : list string :=
  match s with
  | EmptyString => [EmptyString]
  | String a rest =>
      if Ascii.eqb a c then EmptyString :: split_at c rest
      else match split_at c rest with
           | first :: others => String a first :: others
           | [] => [String a EmptyString]
           end
  end.

(** [xs.join(sep)] *)
Definition Array_join (sep : string) (xs : list string) : string :=
  String.concat sep xs.

Fixpoint has_char (c : ascii) (s : string) : bool :=
  match s with
  | EmptyString => false
  | String a rest => Ascii.eqb a c || has_char c rest
  end.

(** The search parameters of a URL: [set] inserts, [get] looks up and
    gives [null] for a missing name.  The text of the link, which
    [url.toString()] writes and [new URLSearchParams(location.search)]
    reads back, is not modelled. *)
Abbreviation search_params := (gmap string string).

(** [handleShare]: the parameters of the link that is copied; [None] when
    nothing was searched. *)
Definition handleShare (searchedSymbol period chartColor : string)
    (comparisons : list string) : option search_params :=
  if String.eqb searchedSymbol "" then None
  else
    let url : search_params := ∅ in
    let url := <["view" := "VISUAL_ANALYSIS"]> url in
    let url := <["symbol" := searchedSymbol]> url in
    let url := <["period" := period]> url in
    let url := <["color" := replace_first "#" chartColor]> url in
    let url :=
      if (0 <? length comparisons)%nat
      then <["comparisons" := Array_join "," comparisons]> url
      else url in
    Some url.

(** A string or [null] as a condition. *)
Definition nonempty (s : option string) : option string :=
  match s with
  | Some v => if String.eqb v "" then None else Some v
  | None => None
  end.

Definition includes (xs : list string) (x : string) : bool :=
  bool_decide (x ∈ xs).

(** The initial [period] in a browser: the URL, then the stored
    preference, then ['1M']. *)
Definition initial_period (params : search_params) (saved : option string) : string :=
  match nonempty (params !! "period") with
  | Some p => if includes PERIODS p then p
              else match nonempty saved with
                   | Some s => if includes PERIODS s then s else "1M"
                   | None => "1M"
                   end
  | None => match nonempty saved with
            | Some s => if includes PERIODS s then s else "1M"
            | None => "1M"
            end
  end.

(** The initial [chartColor] in a browser. *)
Definition initial_chartColor (params : search_params) (saved : option string) : string :=
  match nonempty (params !! "color") with
  | Some c => "#" +:+ c
  | None => default "#10B981" (nonempty saved)
  end.

(** The comparisons the mount effect sets; the state starts as [[]]. *)
Definition initial_comparisons (params : search_params) : list string :=
  match nonempty (params !! "comparisons") with
  | Some comps => split_at "," comps
  | None => []
  end.

(** [urlSymbol || initialSymbol || symbol] of the second mount effect;
    [None] when all three are falsy and nothing is fetched. *)
Definition initial_target (params : search_params)
    (initialSymbol : option string) (symbol : string) : option string :=
  match nonempty (params !! "symbol") with
  | Some s => Some s
  | None => match nonempty initialSymbol with
            | Some s => Some s
            | None => nonempty (Some symbol)
            end
  end.

Lemma split_at_plain c s : has_char c s = false -> split_at c s = [s].
Proof.
  induction s as [|a rest IH]; [reflexivity|]. cbn [has_char split_at].
  destruct (Ascii.eqb a c); [discriminate|]. intros H. rewrite (IH H). reflexivity.
Qed.

Lemma append_nil (t : string) : "" +:+ t = t.
Proof. reflexivity. Qed.

Lemma append_cons a (s t : string) : String a s +:+ t = String a (s +:+ t).
Proof. reflexivity. Qed.

Lemma split_at_app c s rest :
  has_char c s = false ->
  split_at c (s +:+ String c rest) = s :: split_at c rest.
Proof.
  induction s as [|a s IH]; intros H.
  - rewrite append_nil. cbn [split_at]. rewrite Ascii.eqb_refl. reflexivity.
  - cbn [has_char] in H. rewrite append_cons. cbn [split_at].
    destruct (Ascii.eqb a c); [discriminate|]. rewrite (IH H). reflexivity.
Qed.

Lemma join_cons sep x y rest :
  Array_join sep (x :: y :: rest) = x +:+ sep +:+ Array_join sep (y :: rest).
Proof. reflexivity. Qed.

(** Splitting what [join] wrote gives the list back when no element
    holds the separator. *)
Lemma split_join c xs :
  xs <> [] -> Forall (fun x => has_char c x = false) xs ->
  split_at c (Array_join (String c EmptyString) xs) = xs.
Proof.
  intros Hne Hall. induction Hall as [|x rest Hx Hrest IH]; [contradiction|].
  destruct rest as [|y rest].
  - cbn. apply split_at_plain. exact Hx.
  - rewrite join_cons, append_cons, append_nil.
    rewrite split_at_app by exact Hx. rewrite IH by discriminate. reflexivity.
Qed.

Lemma join_nonempty sep x xs :
  x <> EmptyString -> Array_join sep (x :: xs) <> EmptyString.
Proof.
  intros Hx. unfold Array_join. destruct x as [|a x]; [contradiction|].
  destruct xs; cbn; discriminate.
Qed.

Lemma nonempty_some s : s <> EmptyString -> nonempty (Some s) = Some s.
Proof.
  intros H. cbn. destruct (String.eqb_spec s ""); [contradiction|reflexivity].
Qed.

Lemma replace_first_absent c s : has_char c s = false -> replace_first c s = s.
Proof.
  induction s as [|a rest IH]; [reflexivity|]. cbn [has_char replace_first].
  destruct (Ascii.eqb a c); [discriminate|]. intros H. rewrite (IH H). reflexivity.
Qed.

Lemma initial_period_valid params saved : initial_period params saved ∈ PERIODS.
Proof.
  assert (Hsaved : match nonempty saved with
                   | Some s => if includes PERIODS s then s else "1M"
                   | None => "1M"
                   end ∈ PERIODS).
  { destruct (nonempty saved) as [s|]; [|set_solver].
    unfold includes. case_bool_decide; [assumption|set_solver]. }
  unfold initial_period. destruct (nonempty (params !! "period")) as [p|]; [|exact Hsaved].
  unfold includes at 1. case_bool_decide; [assumption|exact Hsaved].
Qed.

(** The parameters [handleShare] writes. *)
Lemma handleShare_params searchedSymbol period chartColor comparisons :
  searchedSymbol <> "" ->
  exists url,
    handleShare searchedSymbol period chartColor comparisons = Some url /\
    url !! "symbol" = Some searchedSymbol /\
    url !! "period" = Some period /\
    url !! "color" = Some (replace_first "#" chartColor) /\
    url !! "comparisons"
    = match comparisons with
      | [] => None
      | _ => Some (Array_join "," comparisons)
      end.
Proof.
  intros Hs. unfold handleShare.
  destruct (String.eqb_spec searchedSymbol ""); [contradiction|].
  eexists. split; [reflexivity|].
  destruct comparisons as [|c rest]; cbn [length Nat.ltb Nat.leb];
    repeat (rewrite lookup_insert_eq || (rewrite lookup_insert_ne by discriminate));
    auto.
Qed.

(** X17. A page opened from a share link starts with what was shared: the
    searched symbol, the comparisons (none of which is empty or holds a
    comma), the period if it is one of the five periods, and the colour
    if it is [#] followed by something.  A colour without [#] comes back
    with one put before it, and whatever the URL and the stored
    preference hold, the page starts with one of the five periods. *)
Theorem share_link_round_trip (searchedSymbol period chartColor : string)
    (comparisons : list string) :
  searchedSymbol <> "" ->
  Forall (fun c => c <> "" /\ has_char "," c = false) comparisons ->
  exists url,
    handleShare searchedSymbol period chartColor comparisons = Some url /\
    (forall initialSymbol symbol,
       initial_target url initialSymbol symbol = Some searchedSymbol) /\
    initial_comparisons url = comparisons /\
    (forall saved, period ∈ PERIODS -> initial_period url saved = period) /\
    (forall saved rest,
       chartColor = String "#" rest -> rest <> "" ->
       initial_chartColor url saved = chartColor) /\
    (forall saved,
       chartColor <> "" -> has_char "#" chartColor = false ->
       initial_chartColor url saved = "#" +:+ chartColor) /\
    (forall params saved, initial_period params saved ∈ PERIODS).
Proof.
  intros Hs Hcomps.
  destruct (handleShare_params searchedSymbol period chartColor comparisons Hs)
    as (url & Hurl & Hsym & Hper & Hcol & Hcmp).
  exists url. split; [exact Hurl|]. split; [|split; [|split; [|split; [|split]]]].
  - intros initialSymbol symbol. unfold initial_target.
    rewrite Hsym, nonempty_some by exact Hs. reflexivity.
  - unfold initial_comparisons. rewrite Hcmp.
    destruct comparisons as [|c rest]; [reflexivity|].
    rewrite nonempty_some
      by (apply join_nonempty; inversion Hcomps as [|? ? [Hc _] _]; exact Hc).
    apply (split_join ","); [discriminate|].
    eapply Forall_impl; [exact Hcomps|]. intros x [_ Hx]. exact Hx.
  - intros saved Hin. unfold initial_period. rewrite Hper.
    rewrite nonempty_some
      by (intros ->; repeat (apply elem_of_cons in Hin as [Hin|Hin];
                             [discriminate Hin|]); inversion Hin).
    unfold includes. rewrite bool_decide_eq_true_2 by exact Hin. reflexivity.
  - intros saved rest -> Hrest. unfold initial_chartColor. rewrite Hcol.
    cbn [replace_first]. change (Ascii.eqb "#" "#") with true. cbv iota.
    rewrite nonempty_some by exact Hrest. reflexivity.
  - intros saved Hne Hno. unfold initial_chartColor.
    rewrite Hcol, replace_first_absent by exact Hno.
    rewrite nonempty_some by exact Hne. reflexivity.
  - apply initial_period_valid.
Qed.

Lemma share_link_round_trip_witness :
  exists url,
    handleShare "AAPL" "3M" "#3B82F6" ["MSFT"; "GOOG"] = Some url /\
    initial_target url None "" = Some "AAPL"%string /\
    initial_comparisons url = ["MSFT"; "GOOG"]%string /\
    initial_period url (Some "1W"%string) = "3M"%string /\
    initial_chartColor url None = "#3B82F6"%string.
Proof.
  destruct (share_link_round_trip "AAPL" "3M" "#3B82F6" ["MSFT"; "GOOG"])
    as (url & Hurl & Htarget & Hcomps & Hperiod & Hcolour & _).
  - discriminate.
  - repeat constructor; discriminate.
  - exists url. split; [exact Hurl|]. split; [apply Htarget|].
    split; [exact Hcomps|]. split.
    + apply Hperiod. do 2 (apply elem_of_cons; right). apply elem_of_cons. left. reflexivity.
    + apply (Hcolour None "3B82F6"); [reflexivity|discriminate].
Defined.

(** ** Changing the comparisons while the feed is live *)







